(** * dmohadash: the ad-suggestions analysis job subsystem

    A shallow embedding of
    - [netlify/functions/ad-suggestions.js]: the negative-keyword normalizer
      ([combineNegativeKeywords]), the search-term classification engine
      ([analyzeSearchTermsForGaps]) and the two-tier job store
      ([saveJob] / [loadJob]);
    - [AdSuggestionsService] (the Angular client poller): [getSuggestions],
      [startPolling], [cancelPolling].

    Modelling conventions.
    - JS strings are [string]; [toLowerCase] lowers the ASCII letters and
      [trim] strips the ASCII white space characters.  The code's own are
      Unicode-aware; the two agree on ASCII text.
    - JS numbers that carry money or ratios are exact rationals [Q]
      (binary floating point is not modelled); click counts are [Z] and
      array lengths [nat].
    - A JS [Set] of strings is a [gset string]; the in-process [Map] of jobs
      is a [gmap string _].
    - [Array.prototype.sort] is a stable sort driven by the comparator.
    - The RxJS machinery of the poller is a transition system over the
      events the browser can deliver (timer ticks and HTTP completions). *)

From stdpp Require Import gmap strings.
From Stdlib Require Import QArith Qround ZArith Lia Lqa Bool Ascii String.
From Stdlib Require Import List Sorted Permutation.
Import ListNotations.

Open Scope string_scope.
Open Scope list_scope.
Open Scope Z_scope.

(** ** JavaScript string primitives *)

Module JsString.

Definition lower_ascii (c : ascii) : ascii :=
  let n := nat_of_ascii c in
  if ((65 <=? n) && (n <=? 90))%nat then ascii_of_nat (n + 32) else c.

(** [String.prototype.toLowerCase] *)
Fixpoint toLowerCase (s : string) : string :=
  match s with
  | EmptyString => EmptyString
  | String c s' => String (lower_ascii c) (toLowerCase s')
  end.

Definition is_white_space (c : ascii) : bool :=
  let n := nat_of_ascii c in
  ((9 <=? n) && (n <=? 13) || (n =? 32))%nat.

Fixpoint trimStart (s : string) : string :=
  match s with
  | EmptyString => EmptyString
  | String c s' => if is_white_space c then trimStart s' else s
  end.

Fixpoint trimEnd (s : string) : string :=
  match s with
  | EmptyString => EmptyString
  | String c s' =>
      match trimEnd s' with
      | EmptyString => if is_white_space c then EmptyString else String c EmptyString
      | t => String c t
      end
  end.

(** [String.prototype.trim] *)
Definition trim (s : string) : string := trimEnd (trimStart s).

(** [String.prototype.startsWith] *)
Fixpoint startsWith (s p : string) {struct p} : bool :=
  match p, s with
  | EmptyString, _ => true
  | String _ _, EmptyString => false
  | String a p', String b s' => Ascii.eqb a b && startsWith s' p'
  end.

(** [String.prototype.includes] *)
Fixpoint includes (s needle : string) : bool :=
  startsWith s needle ||
  match s with
  | EmptyString => false
  | String _ s' => includes s' needle
  end.

(** Truthiness of a possibly missing string: [undefined] and [''] are falsy. *)
Definition truthy (o : option string) : bool :=
  match o with
  | Some (String _ _) => true
  | _ => false
  end.

(** [o || ''] *)
Definition orEmpty (o : option string) : string :=
  match o with
  | Some s => s
  | None => EmptyString
  end.

End JsString.

Import JsString.

(** ** JavaScript number primitives (exact arithmetic) *)

Module JsNumber.

(** [Math.round]: to the nearest integer, halves towards plus infinity.
    Numbers are exact rationals here.  The code computes on doubles, so a
    quotient whose exact value lies on a half may reach [Math.round] just
    below it and fall the other way; what is stated about rounded values
    leaves the direction of an exact half open. *)
Definition Math_round (x : Q) : Z := Qfloor (x + (1 # 2)).

(** The idiom [Math.round(x * 100) / 100]. *)
Definition round_cents (x : Q) : Q := (inject_Z (Math_round (x * 100)) / 100)%Q.

(** [x > y] *)
Definition Qgt_bool (x y : Q) : bool := negb (Qle_bool x y).

End JsNumber.

Import JsNumber.

(** ** JavaScript array primitives *)

Module JsArray.

Section Sort.
Context {A : Type}.
Variable compareFn : A -> A -> Q.

(** [a] stays in front of [b] unless the comparator is positive. *)
Definition keeps_before (a b : A) : bool := Qle_bool (compareFn a b) 0.

Fixpoint sort_insert (x : A) (l : list A) : list A :=
  match l with
  | [] => [x]
  | y :: l' => if keeps_before x y then x :: y :: l' else y :: sort_insert x l'
  end.

(** [Array.prototype.sort(compareFn)]: stable, so an element moves
    behind a later one only when the comparator asks for it. *)
Fixpoint sort (l : list A) : list A :=
  match l with
  | [] => []
  | x :: l' => sort_insert x (sort l')
  end.
End Sort.

(** [Array.prototype.slice(0, n)] *)
Definition slice0 {A : Type} (n : nat) (l : list A) : list A := firstn n l.

End JsArray.

Import JsArray.

(** ** Values handed over by the fetchers

    Every [fetch*] function of the job runner resolves either to an array of
    rows or to the sentinel [{ error, data: null }]; a caller may also pass
    nothing at all or some other non-array value. *)

Inductive Fetched (A : Type) : Type :=
| Missing                      (* undefined / null *)
| ErrorSentinel (error : string) (* { error: message, data: null } *)
| NonArray                     (* any other value that is not an array *)
| Rows (rows : list A).

Arguments Missing {A}.
Arguments ErrorSentinel {A} error.
Arguments NonArray {A}.
Arguments Rows {A} rows.

(** The rows a consumer iterates over: those of an array, and none when
    its guard ([x && Array.isArray(x)], with [!x.error] in the normalizer)
    turns the value away. *)
Definition usable_rows {A : Type} (x : Fetched A) : list A :=
  match x with
  | Rows rows => rows
  | _ => []
  end.

(** ** Negative-keyword normalizer ([combineNegativeKeywords]) *)

Inductive Scope : Type := ScopeCampaign | ScopeAccount.

(** A row as produced by [fetchCampaignNegativeKeywords] or
    [fetchSharedSetNegativeKeywords]; a field the fetcher does not set is
    [None]. *)
Record NegativeRow : Type := mkNegativeRow {
  neg_keyword : option string;
  neg_matchType : string;
  neg_campaignName : option string;
  neg_sharedSetName : option string;
  neg_scope : Scope
}.

(** An entry of [existingNegatives], the detailed list used for reporting. *)
Record ExistingNegative : Type := mkExistingNegative {
  en_keyword : string;
  en_matchType : string;
  en_scope : Scope;
  en_campaignName : option string;
  en_sharedSetName : option string
}.

Record CombinedNegatives : Type := mkCombinedNegatives {
  existingNegatives : list ExistingNegative;
  negativeKeywordsSet : gset string
}.

Definition has_keyword (neg : NegativeRow) : bool := truthy (neg_keyword neg).

(** The reporting entry pushed for a campaign-level row. *)
Definition campaign_entry (neg : NegativeRow) : ExistingNegative :=
  {| en_keyword := orEmpty (neg_keyword neg);
     en_matchType := neg_matchType neg;
     en_scope := ScopeCampaign;
     en_campaignName := neg_campaignName neg;
     en_sharedSetName := None |}.

(** The reporting entry pushed for a shared-set (account-level) row. *)
Definition account_entry (neg : NegativeRow) : ExistingNegative :=
  {| en_keyword := orEmpty (neg_keyword neg);
     en_matchType := neg_matchType neg;
     en_scope := ScopeAccount;
     en_campaignName := None;
     en_sharedSetName := neg_sharedSetName neg |}.

(** One iteration of either [forEach] body: the two accumulators
    [existingNegatives] (an array, [push]) and [negativeKeywordsSet]
    (a Set, [add]) are threaded through. *)
Definition add_negative (entry : NegativeRow -> ExistingNegative)
    (acc : CombinedNegatives) (neg : NegativeRow) : CombinedNegatives :=
  if has_keyword neg then
    let normalizedKeyword := trim (toLowerCase (orEmpty (neg_keyword neg))) in
    {| existingNegatives := existingNegatives acc ++ [entry neg];
       negativeKeywordsSet := {[ normalizedKeyword ]} ∪ negativeKeywordsSet acc |}
  else acc.

Definition combineNegativeKeywords
    (campaignNegatives sharedSetNegatives : Fetched NegativeRow) : CombinedNegatives :=
  let start := {| existingNegatives := []; negativeKeywordsSet := ∅ |} in
  let afterCampaign :=
    fold_left (add_negative campaign_entry) (usable_rows campaignNegatives) start in
  fold_left (add_negative account_entry) (usable_rows sharedSetNegatives) afterCampaign.

(** ** Search-term classification engine ([analyzeSearchTermsForGaps]) *)

Definition WRONG_INTENT_WORDS : list string :=
  [ "lawyer"; "lawyers"; "attorney"; "attorneys"; "near me"; "legal advice";
    "free consultation"; "pro bono"; "lawsuit"; "sue"; "court";
    "template"; "templates"; "free"; "sample"; "example"; "diy template";
    "word doc"; "download" ].

Definition HIGH_INTENT_WORDS : list string :=
  [ "respond"; "response"; "letter"; "dispute"; "fight"; "violation";
    "notice"; "write"; "help"; "fine" ].

(** A row of [fetchSearchTermData].  The search term is taken as present,
    so that [st.searchTerm || ''] in the filters is [st.searchTerm] itself;
    numeric fields are numbers, so that [st.clicks || 0] is [st.clicks]. *)
Record SearchTermRow : Type := mkSearchTermRow {
  st_searchTerm : string;
  st_clicks : Z;
  st_impressions : Z;
  st_spend : Q;
  st_conversions : Q;
  st_ctr : Q
}.

(** A row of [fetchKeywordData]; only [keyword] is read by the engine. *)
Record KeywordRow : Type := mkKeywordRow {
  kw_keyword : option string;
  kw_matchType : string;
  kw_status : string
}.

Inductive IntentScore : Type := IntentHigh | IntentMedium.

Record Opportunity : Type := mkOpportunity {
  op_searchTerm : string;
  op_clicks : Z;
  op_impressions : Z;
  op_spend : Q;
  op_conversions : Q;
  op_ctr : Q;
  op_actualCpc : Q;
  op_intentScore : IntentScore
}.

Record WasteTerm : Type := mkWasteTerm {
  wt_searchTerm : string;
  wt_clicks : Z;
  wt_spend : Q;
  wt_conversions : Q;
  wt_actualCpc : Q;
  wt_alreadyNegative : bool
}.

Record CoveredWaste : Type := mkCoveredWaste {
  cw_keyword : string;
  cw_wastedSpend : Q;
  cw_note : string
}.

Record Analysis : Type := mkAnalysis {
  totalSearchTerms : nat;
  confirmedGaps : nat;
  confirmedWaste : nat;
  totalWastedOnWrongIntent : Q;
  alreadyNegated : nat
}.

Record ClassificationResult : Type := mkClassificationResult {
  opportunities : list Opportunity;
  wasteTerms : list WasteTerm;
  alreadyCovered : list CoveredWaste;
  analysis : Analysis
}.

Definition hasWrongIntent (term : string) : bool :=
  let lowerTerm := toLowerCase term in
  existsb (fun word => includes lowerTerm (toLowerCase word)) WRONG_INTENT_WORDS.

Definition scoreIntent (term : string) : IntentScore :=
  let lowerTerm := toLowerCase term in
  let matchCount :=
    length (List.filter (fun word => includes lowerTerm (toLowerCase word))
                        HIGH_INTENT_WORDS) in
  if (2 <=? matchCount)%nat then IntentHigh else IntentMedium.

Definition isAlreadyNegated (negativeKeywordsSet : gset string) (term : string) : bool :=
  let lowerTerm := trim (toLowerCase term) in
  if bool_decide (lowerTerm ∈ negativeKeywordsSet) then true
  else existsb (fun negative => includes lowerTerm negative)
               (elements negativeKeywordsSet).

(** The [forEach] that fills [existingKeywords]. *)
Definition add_existing_keyword (acc : gset string) (kw : KeywordRow) : gset string :=
  if truthy (kw_keyword kw)
  then {[ trim (toLowerCase (orEmpty (kw_keyword kw))) ]} ∪ acc
  else acc.

Definition existingKeywordsOf (keywordData : Fetched KeywordRow) : gset string :=
  fold_left add_existing_keyword (usable_rows keywordData) ∅.

(** [st.clicks > 0 ? Math.round((st.spend / st.clicks) * 100) / 100 : 0] *)
Definition actualCpcOf (st : SearchTermRow) : Q :=
  if 0 <? st_clicks st
  then round_cents (st_spend st / inject_Z (st_clicks st))
  else 0%Q.

Definition is_opportunity (existingKeywords : gset string) (st : SearchTermRow) : bool :=
  let term := st_searchTerm st in
  let clicks := st_clicks st in
  let isExistingKeyword := bool_decide (trim (toLowerCase term) ∈ existingKeywords) in
  (1 <=? clicks) && negb (hasWrongIntent term) && negb isExistingKeyword.

Definition to_opportunity (st : SearchTermRow) : Opportunity :=
  {| op_searchTerm := st_searchTerm st;
     op_clicks := st_clicks st;
     op_impressions := st_impressions st;
     op_spend := st_spend st;
     op_conversions := st_conversions st;
     op_ctr := st_ctr st;
     op_actualCpc := actualCpcOf st;
     op_intentScore := scoreIntent (st_searchTerm st) |}.

Definition is_waste (st : SearchTermRow) : bool :=
  let term := st_searchTerm st in
  let clicks := st_clicks st in
  let conversions := st_conversions st in
  let spend := st_spend st in
  (1 <=? clicks) && Qeq_bool conversions 0 && Qgt_bool spend 2 && hasWrongIntent term.

Definition to_waste (negativeKeywordsSet : gset string) (st : SearchTermRow) : WasteTerm :=
  {| wt_searchTerm := st_searchTerm st;
     wt_clicks := st_clicks st;
     wt_spend := st_spend st;
     wt_conversions := st_conversions st;
     wt_actualCpc := actualCpcOf st;
     wt_alreadyNegative := isAlreadyNegated negativeKeywordsSet (st_searchTerm st) |}.

Definition to_covered (wt : WasteTerm) : CoveredWaste :=
  {| cw_keyword := wt_searchTerm wt;
     cw_wastedSpend := wt_spend wt;
     cw_note := "already negated" |}.

(** [(a, b) => b.clicks - a.clicks] *)
Definition by_clicks_desc (a b : Opportunity) : Q := inject_Z (op_clicks b - op_clicks a).

(** [(a, b) => b.spend - a.spend] *)
Definition by_spend_desc (a b : WasteTerm) : Q := (wt_spend b - wt_spend a)%Q.

Definition emptyAnalysis : Analysis :=
  {| totalSearchTerms := 0; confirmedGaps := 0; confirmedWaste := 0;
     totalWastedOnWrongIntent := 0%Q; alreadyNegated := 0 |}.

Definition allWasteTermsOf (negativeKeywordsSet : gset string)
    (rows : list SearchTermRow) : list WasteTerm :=
  sort by_spend_desc (map (to_waste negativeKeywordsSet) (List.filter is_waste rows)).

(** [function analyzeSearchTermsForGaps(searchTermData, keywordData,
    negativeKeywordsSet = new Set())]; a caller that leaves the third
    argument out passes [∅]. *)
Definition analyzeSearchTermsForGaps (searchTermData : Fetched SearchTermRow)
    (keywordData : Fetched KeywordRow) (negativeKeywordsSet : gset string)
    : ClassificationResult :=
  match searchTermData with
  | Rows rows =>
      let existingKeywords := existingKeywordsOf keywordData in
      let opportunities :=
        slice0 20 (sort by_clicks_desc
                     (map to_opportunity (List.filter (is_opportunity existingKeywords) rows))) in
      let allWasteTerms := allWasteTermsOf negativeKeywordsSet rows in
      let wasteTerms :=
        slice0 15 (List.filter (fun wt => negb (wt_alreadyNegative wt)) allWasteTerms) in
      let alreadyCovered :=
        map to_covered (List.filter (fun wt => wt_alreadyNegative wt) allWasteTerms) in
      {| opportunities := opportunities;
         wasteTerms := wasteTerms;
         alreadyCovered := alreadyCovered;
         analysis :=
           {| totalSearchTerms := length rows;
              confirmedGaps := length opportunities;
              confirmedWaste := length wasteTerms;
              totalWastedOnWrongIntent :=
                round_cents (fold_left (fun sum wt => (sum + wt_spend wt)%Q) wasteTerms 0%Q);
              alreadyNegated := length alreadyCovered |} |}
  | _ =>
      {| opportunities := []; wasteTerms := []; alreadyCovered := [];
         analysis := emptyAnalysis |}
  end.

(** A search-term row with the fields the engine reads; the others are
    fixed. *)
Definition row (term : string) (clicks : Z) (spend conversions : Q) : SearchTermRow :=
  {| st_searchTerm := term; st_clicks := clicks; st_impressions := 100;
     st_spend := spend; st_conversions := conversions; st_ctr := 0%Q |}.

(** ** Two-tier job store ([saveJob] / [loadJob])

    The module-level [jobStore] Map is the in-process tier, the Supabase
    table [ad_suggestion_jobs] the durable one.  The remote calls are
    fallible: what a call does is an input of the model. *)

Module JobStore.

(** A computation that returns or throws. *)
Inductive Completion (A : Type) : Type :=
| Returns (a : A)
| Throws (message : string).
Arguments Returns {A} a.
Arguments Throws {A} message.

(** [try { body } catch (err) { handler }] *)
Definition try_catch {A B : Type} (body : Completion A)
    (continue : A -> B) (handler : string -> B) : B :=
  match body with
  | Returns a => continue a
  | Throws message => handler message
  end.

Inductive JobStatus : Type := StatusProcessing | StatusComplete | StatusError.

Section WithResult.
(** The analysis payload of a completed job. *)
Context {Result : Type}.

(** The object handed to [saveJob]. *)
Record Job : Type := mkJob {
  job_status : JobStatus;
  job_result : option Result;
  job_error : option string
}.

(** A row of the table [ad_suggestion_jobs]. *)
Record DurableRow : Type := mkDurableRow {
  row_job_id : string;
  row_status : JobStatus;
  row_result : option Result;
  row_error : option string;
  row_created_at : string;
  row_updated_at : string
}.

Record Store : Type := mkStore {
  jobStore : gmap string Job;
  (** [None]: [SUPABASE_URL] or the service key is unset, so
      [getSupabaseClient()] is [null]. *)
  supabase : option (gmap string DurableRow)
}.

(** What the upsert request does this time. *)
Inductive UpsertBehaviour : Type :=
| UpsertSucceeds
| UpsertReportsError (message : string)   (* [{ error }] in the reply *)
| UpsertThrows (message : string).        (* the awaited call rejects *)

(** What the select request does this time. *)
Inductive SelectBehaviour : Type :=
| SelectSucceeds
| SelectReportsError (message : string)
| SelectThrows (message : string).

(** [supabase.from(..).upsert(row, { onConflict: 'job_id' }).select()]:
    the new table and the [error] field of the reply. *)
Definition upsert (how : UpsertBehaviour) (table : gmap string DurableRow)
    (r : DurableRow) : Completion (gmap string DurableRow * option string) :=
  match how with
  | UpsertSucceeds => Returns (<[row_job_id r := r]> table, None)
  | UpsertReportsError message => Returns (table, Some message)
  | UpsertThrows message => Throws message
  end.

(** [supabase.from(..).select('*').eq('job_id', jobId).single()]:
    [data] and [error] of the reply; [single()] reports an error when no
    row matches. *)
Definition select_single (how : SelectBehaviour) (table : gmap string DurableRow)
    (jobId : string) : Completion (option DurableRow * option string) :=
  match how with
  | SelectSucceeds =>
      match table !! jobId with
      | Some r => Returns (Some r, None)
      | None => Returns (None, Some "no rows")
      end
  | SelectReportsError message => Returns (None, Some message)
  | SelectThrows message => Throws message
  end.

(** [data.error || null]: an empty text is stored as [null]. *)
Definition or_null (o : option string) : option string :=
  if truthy o then o else None.

(** [async function saveJob(jobId, data)]; [now] is [new Date().toISOString()],
    read twice in a row for the two time stamps.  [data.result || null]
    keeps a result as it is: a result is an object. *)
Definition saveJob (jobId : string) (data : Job) (now : string)
    (how : UpsertBehaviour) (st : Store) : Completion Store :=
  let st1 := {| jobStore := <[jobId := data]> (jobStore st); supabase := supabase st |} in
  match supabase st1 with
  | None => Returns st1
  | Some table =>
      try_catch
        (upsert how table
           {| row_job_id := jobId;
              row_status := job_status data;
              row_result := job_result data;
              row_error := or_null (job_error data);
              row_created_at := now;
              row_updated_at := now |})
        (fun reply => Returns {| jobStore := jobStore st1; supabase := Some (fst reply) |})
        (fun err => Returns st1)
  end.

(** [async function loadJob(jobId)] *)
Definition loadJob (jobId : string) (how : SelectBehaviour) (st : Store)
    : Completion (option Job) :=
  match jobStore st !! jobId with
  | Some job => Returns (Some job)
  | None =>
      match supabase st with
      | None => Returns None
      | Some table =>
          try_catch (select_single how table jobId)
            (fun reply =>
               match snd reply, fst reply with
               | Some _, _ => Returns None
               | None, Some data =>
                   Returns (Some {| job_status := row_status data;
                                    job_result := row_result data;
                                    job_error := row_error data |})
               | None, None => Returns None
               end)
            (fun err => Returns None)
      end
  end.
End WithResult.

Arguments Job : clear implicits.
Arguments DurableRow : clear implicits.
Arguments Store : clear implicits.

End JobStore.

(** ** Client poller ([AdSuggestionsService])

    Each call of [getSuggestions] creates one [Subject] ([result$]); once its
    POST has returned a job id, [startPolling] attaches one [interval(2000)]
    subscription to it.  A session gathers the two together with the
    [attempts] counter of the closure.  The service keeps a single field,
    [pollingSubscription].  Time is abstracted to the order in which the
    browser delivers timer ticks and HTTP completions.

    The repository holds two copies of the service.  The model follows the
    dashboard copy; the campaign copy has the same structure and differs in
    the two constants of [startPolling] (parameters here), in testing
    [response.error] where this one tests [response.status === 'error'],
    and in taking the text of a failed request from [err.message] alone. *)

Module Poller.

Record AdSuggestionsData : Type := mkData {
  performanceSummary : string;
  keywordSuggestions : list string;
  negativeKeywordSuggestions : list string;
  adCopySuggestions : list string;
  generalRecommendations : list string;
  data_error : option string
}.

Definition createEmptyResult (error : string) : AdSuggestionsData :=
  {| performanceSummary := "";
     keywordSuggestions := [];
     negativeKeywordSuggestions := [];
     adCopySuggestions := [];
     generalRecommendations := [];
     data_error := Some error |}.

Inductive Status : Type := Processing | Complete | Error.

Record JobResponse : Type := mkJobResponse {
  status : Status;
  jobId : option string;
  result : option AdSuggestionsData;
  error : option string
}.

(** An [HttpErrorResponse]: [err.error?.error] and [err.message]. *)
Record HttpError : Type := mkHttpError {
  err_body_error : option string;
  err_message : option string
}.

(** [a || fallback] on possibly missing strings *)
Definition or_else (a : option string) (fallback : string) : string :=
  if truthy a then orEmpty a else fallback.

Record Session : Type := mkSession {
  ss_postPending : bool;      (* the POST has not completed yet *)
  ss_jobId : option string;   (* the job polled, once polling has started *)
  ss_attempts : nat;          (* [let attempts] of [startPolling] *)
  ss_timer : bool;            (* the interval subscription is live *)
  ss_inflight : nat;          (* GET requests awaiting completion *)
  ss_polls : nat;             (* GET requests issued so far *)
  ss_emitted : list AdSuggestionsData;  (* values delivered by [result$] *)
  ss_completed : bool         (* [result$.complete()] has run *)
}.

Record Service : Type := mkService {
  pollingSubscription : option nat;
  sessions : list Session
}.

Definition newService : Service := {| pollingSubscription := None; sessions := [] |}.

Definition newSession : Session :=
  {| ss_postPending := true; ss_jobId := None; ss_attempts := 0%nat;
     ss_timer := false; ss_inflight := 0%nat; ss_polls := 0%nat;
     ss_emitted := []; ss_completed := false |}.

(** [subscription.unsubscribe()] on the interval *)
Definition unsubscribe (s : Session) : Session :=
  {| ss_postPending := ss_postPending s; ss_jobId := ss_jobId s;
     ss_attempts := ss_attempts s; ss_timer := false;
     ss_inflight := ss_inflight s; ss_polls := ss_polls s;
     ss_emitted := ss_emitted s; ss_completed := ss_completed s |}.

(** [result$.next(v)]: a stopped Subject drops the value. *)
Definition next (v : AdSuggestionsData) (s : Session) : Session :=
  if ss_completed s then s else
  {| ss_postPending := ss_postPending s; ss_jobId := ss_jobId s;
     ss_attempts := ss_attempts s; ss_timer := ss_timer s;
     ss_inflight := ss_inflight s; ss_polls := ss_polls s;
     ss_emitted := ss_emitted s ++ [v]; ss_completed := false |}.

(** [result$.complete()] *)
Definition complete (s : Session) : Session :=
  {| ss_postPending := ss_postPending s; ss_jobId := ss_jobId s;
     ss_attempts := ss_attempts s; ss_timer := ss_timer s;
     ss_inflight := ss_inflight s; ss_polls := ss_polls s;
     ss_emitted := ss_emitted s; ss_completed := true |}.

Definition postDone (s : Session) : Session :=
  {| ss_postPending := false; ss_jobId := ss_jobId s;
     ss_attempts := ss_attempts s; ss_timer := ss_timer s;
     ss_inflight := ss_inflight s; ss_polls := ss_polls s;
     ss_emitted := ss_emitted s; ss_completed := ss_completed s |}.

(** The interval created by [startPolling(jobId, result$)]. *)
Definition armed (job : string) (s : Session) : Session :=
  {| ss_postPending := ss_postPending s; ss_jobId := Some job;
     ss_attempts := 0%nat; ss_timer := true;
     ss_inflight := ss_inflight s; ss_polls := ss_polls s;
     ss_emitted := ss_emitted s; ss_completed := ss_completed s |}.

(** [attempts++] *)
Definition counted (s : Session) : Session :=
  {| ss_postPending := ss_postPending s; ss_jobId := ss_jobId s;
     ss_attempts := S (ss_attempts s); ss_timer := ss_timer s;
     ss_inflight := ss_inflight s; ss_polls := ss_polls s;
     ss_emitted := ss_emitted s; ss_completed := ss_completed s |}.

(** [this.http.get(..).subscribe(..)]: one more request on the wire. *)
Definition requested (s : Session) : Session :=
  {| ss_postPending := ss_postPending s; ss_jobId := ss_jobId s;
     ss_attempts := ss_attempts s; ss_timer := ss_timer s;
     ss_inflight := S (ss_inflight s); ss_polls := S (ss_polls s);
     ss_emitted := ss_emitted s; ss_completed := ss_completed s |}.

(** A GET request has completed (either way). *)
Definition answered (s : Session) : Session :=
  {| ss_postPending := ss_postPending s; ss_jobId := ss_jobId s;
     ss_attempts := ss_attempts s; ss_timer := ss_timer s;
     ss_inflight := pred (ss_inflight s); ss_polls := ss_polls s;
     ss_emitted := ss_emitted s; ss_completed := ss_completed s |}.

Definition on_session (k : nat) (f : Session -> Session) (svc : Service) : Service :=
  {| pollingSubscription := pollingSubscription svc;
     sessions := alter f k (sessions svc) |}.

(** [private cancelPolling()] *)
Definition cancelPolling (svc : Service) : Service :=
  match pollingSubscription svc with
  | Some j =>
      {| pollingSubscription := None; sessions := alter unsubscribe j (sessions svc) |}
  | None => svc
  end.

(** [result$.next(v); result$.complete()] on the Subject of session [k] *)
Definition finish (k : nat) (v : AdSuggestionsData) (svc : Service) : Service :=
  on_session k complete (on_session k (next v) svc).

Section Configured.
(** [const maxAttempts] and the text of the timeout result: 120 and
    "4 minutes" in one copy of the service, 90 and "3 minutes" in the
    other. *)
Variable maxAttempts : nat.
Variable timeoutMessage : string.

(** [private startPolling(jobId, result$)]: the new subscription simply
    overwrites the field. *)
Definition startPolling (k : nat) (job : string) (svc : Service) : Service :=
  {| pollingSubscription := Some k;
     sessions := alter (armed job) k (sessions svc) |}.

(** The callback given to [interval(2000).subscribe]. *)
Definition tick (k : nat) (svc : Service) : Service :=
  let svc1 := on_session k counted svc in
  match sessions svc1 !! k with
  | Some s =>
      if (maxAttempts <? ss_attempts s)%nat
      then finish k (createEmptyResult timeoutMessage) (cancelPolling svc1)
      else on_session k requested svc1
  | None => svc
  end.

(** The [next] handler of a poll request. *)
Definition pollNext (k : nat) (response : JobResponse) (svc : Service) : Service :=
  match status response with
  | Processing => svc
  | Error =>
      finish k (createEmptyResult (or_else (error response) "Analysis failed"))
             (cancelPolling svc)
  | Complete =>
      match result response with
      | Some r => finish k r (cancelPolling svc)
      | None =>
          finish k (createEmptyResult "Unexpected response format") (cancelPolling svc)
      end
  end.

Definition pollErrorMessage (err : HttpError) : string :=
  or_else (err_body_error err) (or_else (err_message err) "Polling failed").

(** The [error] handler of a poll request. *)
Definition pollError (k : nat) (err : HttpError) (svc : Service) : Service :=
  finish k (createEmptyResult (pollErrorMessage err)) (cancelPolling svc).

(** The subscriber of the POST in [getSuggestions]. *)
Definition postNext (k : nat) (response : JobResponse) (svc : Service) : Service :=
  match status response, truthy (jobId response) with
  | Error, false =>
      finish k (createEmptyResult (or_else (error response) "Failed to start analysis")) svc
  | _, true => startPolling k (orEmpty (jobId response)) svc
  | _, false => finish k (createEmptyResult "No job ID returned") svc
  end.

(** [catchError] of the POST: the failure becomes an error response. *)
Definition postCaught (err : HttpError) : JobResponse :=
  {| status := Error;
     jobId := None;
     result := None;
     error := Some (or_else (err_body_error err)
                      (or_else (err_message err) "Failed to start analysis")) |}.

(** [getSuggestions(request)]: cancel, create [result$], send the POST. *)
Definition getSuggestions (svc : Service) : Service :=
  let svc1 := cancelPolling svc in
  {| pollingSubscription := pollingSubscription svc1;
     sessions := sessions svc1 ++ [newSession] |}.

(** What the browser can deliver to the service. *)
Inductive Event : Type :=
| CallGetSuggestions
| PostReturns (k : nat) (response : JobResponse)
| PostFails (k : nat) (err : HttpError)
| IntervalTick (k : nat)
| PollReturns (k : nat) (response : JobResponse)
| PollFails (k : nat) (err : HttpError).

(** An event is delivered only when something is there to deliver it:
    a POST completes once, a timer fires while subscribed, a poll
    completes while it is on the wire.  Anything else changes nothing. *)
Definition step (svc : Service) (e : Event) : Service :=
  match e with
  | CallGetSuggestions => getSuggestions svc
  | PostReturns k response =>
      match sessions svc !! k with
      | Some s =>
          if ss_postPending s then postNext k response (on_session k postDone svc)
          else svc
      | None => svc
      end
  | PostFails k err =>
      match sessions svc !! k with
      | Some s =>
          if ss_postPending s
          then postNext k (postCaught err) (on_session k postDone svc)
          else svc
      | None => svc
      end
  | IntervalTick k =>
      match sessions svc !! k with
      | Some s => if ss_timer s then tick k svc else svc
      | None => svc
      end
  | PollReturns k response =>
      match sessions svc !! k with
      | Some s =>
          if (0 <? ss_inflight s)%nat
          then pollNext k response (on_session k answered svc)
          else svc
      | None => svc
      end
  | PollFails k err =>
      match sessions svc !! k with
      | Some s =>
          if (0 <? ss_inflight s)%nat
          then pollError k err (on_session k answered svc)
          else svc
      | None => svc
      end
  end.

Definition run (svc : Service) (events : list Event) : Service :=
  fold_left step events svc.
End Configured.

End Poller.

(** * Facts about the primitives *)

Module JsFacts.

(** [needle] occurs in [s]. *)
Definition is_substring (needle s : string) : Prop :=
  exists before after, s = before +:+ needle +:+ after.

Lemma append_empty (s : string) : EmptyString +:+ s = s.
Proof. reflexivity. Qed.

Lemma append_String (c : ascii) (s t : string) : String c s +:+ t = String c (s +:+ t).
Proof. reflexivity. Qed.

Lemma startsWith_spec (p s : string) :
  startsWith s p = true <-> exists after, s = p +:+ after.
Proof.
  revert s. induction p as [|a p IH]; intros s; simpl.
  - split; [intros _; now exists s | reflexivity].
  - destruct s as [|b s]; simpl.
    + split; [discriminate | intros [after H]; discriminate].
    + rewrite andb_true_iff, Ascii.eqb_eq, IH. split.
      * intros [-> [after ->]]. now exists after.
      * intros [after H]. rewrite append_String in H. injection H as -> ->.
        split; [reflexivity | now exists after].
Qed.

Lemma startsWith_refl (s : string) : startsWith s s = true.
Proof.
  induction s as [|c s IH]; simpl; [reflexivity |].
  now rewrite Ascii.eqb_refl, IH.
Qed.

Lemma includes_spec (s needle : string) :
  includes s needle = true <-> is_substring needle s.
Proof.
  unfold is_substring. induction s as [|c s IH].
  - cbn [includes]. rewrite orb_false_r, startsWith_spec. split.
    + intros [after H]. now exists EmptyString, after.
    + intros [before [after H]]. destruct before as [|c before]; [now exists after |].
      rewrite append_String in H. discriminate.
  - cbn [includes]. rewrite orb_true_iff, startsWith_spec, IH. split.
    + intros [[after H] | [before [after H]]].
      * now exists EmptyString, after.
      * exists (String c before), after. rewrite append_String. now rewrite H.
    + intros [before [after H]]. destruct before as [|c' before].
      * left. now exists after.
      * right. rewrite append_String in H. injection H as -> ->. now exists before, after.
Qed.

Lemma includes_refl (s : string) : includes s s = true.
Proof. destruct s; cbn [includes]; now rewrite startsWith_refl. Qed.

Lemma truthy_spec (o : option string) :
  truthy o = true <-> exists k, o = Some k /\ k <> EmptyString.
Proof.
  destruct o as [[|c k]|]; simpl; split; try discriminate.
  - intros [k [H Hk]]. injection H as <-. now destruct Hk.
  - intros _. now exists (String c k).
  - reflexivity.
  - intros [k [H _]]. discriminate.
Qed.

(** *** [slice(0, n)] *)
Section SliceFacts.
Context {A : Type}.

Lemma slice0_In (n : nat) (l : list A) (x : A) : In x (slice0 n l) -> In x l.
Proof.
  unfold slice0. revert n. induction l as [|y l IH]; intros [|n]; simpl; try tauto.
  intros [-> | H]; [now left | right; now apply (IH n)].
Qed.

Lemma slice0_length (n : nat) (l : list A) : (length (slice0 n l) <= n)%nat.
Proof. unfold slice0. apply firstn_le_length. Qed.

End SliceFacts.

(** *** The stable sort, for a comparator that subtracts keys *)
Section SortFacts.
Context {A : Type}.
Variable compareFn : A -> A -> Q.

Lemma sort_insert_perm (x : A) (l : list A) :
  Permutation (sort_insert compareFn x l) (x :: l).
Proof.
  induction l as [|y l IH]; simpl; [reflexivity |].
  destruct (keeps_before compareFn x y); [reflexivity |].
  rewrite IH. apply perm_swap.
Qed.

Lemma sort_perm (l : list A) : Permutation (sort compareFn l) l.
Proof.
  induction l as [|x l IH]; simpl; [reflexivity |].
  rewrite sort_insert_perm. now apply perm_skip.
Qed.

Lemma sort_In (x : A) (l : list A) : In x (sort compareFn l) <-> In x l.
Proof.
  split; apply Permutation_in; [apply sort_perm | symmetry; apply sort_perm].
Qed.

Variable key : A -> Q.

(** [b] does not rank above [a]. *)
Definition descending (a b : A) : Prop := (key b <= key a)%Q.

Definition subtracts_keys : Prop :=
  forall a b, (compareFn a b == key b - key a)%Q.

Lemma keeps_before_descending (Hkey : subtracts_keys) (a b : A) :
  keeps_before compareFn a b = true <-> descending a b.
Proof.
  unfold keeps_before, descending. rewrite Qle_bool_iff, (Hkey a b).
  split; intros H; lra.
Qed.

Lemma descending_trans (a b c : A) : descending a b -> descending b c -> descending a c.
Proof. unfold descending. intros H1 H2. eapply Qle_trans; eassumption. Qed.

Lemma sort_insert_sorted (Hkey : subtracts_keys) (x : A) (l : list A) :
  StronglySorted descending l -> StronglySorted descending (sort_insert compareFn x l).
Proof.
  induction 1 as [|y l Hl IH Hy]; simpl.
  - constructor; [constructor | constructor].
  - destruct (keeps_before compareFn x y) eqn:E.
    + apply keeps_before_descending in E; [|assumption].
      constructor; [now constructor |].
      constructor; [assumption |].
      eapply Forall_impl; [|exact Hy]. intros z Hz. now apply (descending_trans x y z).
    + constructor; [assumption |].
      assert (Hyx : descending y x).
      { unfold descending. destruct (Qlt_le_dec (key x) (key y)) as [Hlt | Hle].
        - now apply Qlt_le_weak.
        - exfalso. assert (keeps_before compareFn x y = true) as E'
            by (apply keeps_before_descending; assumption).
          congruence. }
      eapply Permutation_Forall; [symmetry; apply sort_insert_perm |].
      now constructor.
Qed.

Lemma sort_sorted (Hkey : subtracts_keys) (l : list A) :
  StronglySorted descending (sort compareFn l).
Proof.
  induction l as [|x l IH]; simpl; [constructor | now apply sort_insert_sorted].
Qed.

Lemma filter_sorted (f : A -> bool) (l : list A) :
  StronglySorted descending l -> StronglySorted descending (List.filter f l).
Proof.
  induction 1 as [|x l Hl IH Hx]; simpl; [constructor |].
  destruct (f x); [|assumption].
  constructor; [assumption |].
  apply Forall_forall. intros y Hy. apply filter_In in Hy as [Hy _].
  rewrite Forall_forall in Hx. now apply Hx.
Qed.

Lemma slice0_sorted (n : nat) (l : list A) :
  StronglySorted descending l -> StronglySorted descending (slice0 n l).
Proof.
  unfold slice0. intros H. revert n.
  induction H as [|x l Hl IH Hx]; intros [|n]; simpl; try constructor.
  - apply IH.
  - apply Forall_forall. intros y Hy. rewrite Forall_forall in Hx.
    apply Hx. now apply (slice0_In n).
Qed.

(** What [slice(0, n)] cuts off ranks no higher than what it keeps. *)
Lemma slice0_keeps_top (n : nat) (l : list A) (x : A) :
  StronglySorted descending l -> In x l ->
  In x (slice0 n l) \/
  (length (slice0 n l) = n /\ forall y, In y (slice0 n l) -> descending y x).
Proof.
  unfold slice0. intros H. revert n.
  induction H as [|z l Hl IH Hz]; intros n Hx; [destruct Hx |].
  destruct n as [|n]; simpl.
  - right. split; [reflexivity | intros y []].
  - destruct Hx as [-> | Hx]; [now left; left |].
    destruct (IH n Hx) as [Hin | [Hlen Htop]].
    + left. now right.
    + right. split; [now rewrite Hlen |].
      intros y [<- | Hy]; [|now apply Htop].
      rewrite Forall_forall in Hz. now apply Hz.
Qed.
End SortFacts.

(** *** Normalization keeps occurrences *)

Lemma append_assoc (a b c : string) : (a +:+ b) +:+ c = a +:+ (b +:+ c).
Proof.
  induction a as [|x a IH]; [reflexivity |].
  rewrite !append_String. now rewrite IH.
Qed.

Lemma append_empty_r (a : string) : a +:+ EmptyString = a.
Proof.
  induction a as [|x a IH]; [reflexivity |]. rewrite append_String. now rewrite IH.
Qed.

Lemma is_substring_empty (s : string) : is_substring EmptyString s.
Proof. exists EmptyString, s. reflexivity. Qed.

Lemma is_substring_refl (s : string) : is_substring s s.
Proof. exists EmptyString, EmptyString. now rewrite append_empty, append_empty_r. Qed.

Lemma is_substring_trans (a b c : string) :
  is_substring a b -> is_substring b c -> is_substring a c.
Proof.
  intros [p1 [q1 ->]] [p2 [q2 ->]]. exists (p2 +:+ p1), (q1 +:+ q2).
  now rewrite !append_assoc.
Qed.

Lemma is_substring_String (c : ascii) (n s : string) :
  is_substring n s -> is_substring n (String c s).
Proof.
  intros [p [q ->]]. exists (String c p), q. now rewrite append_String.
Qed.

Lemma is_substring_append_l (p n s : string) :
  is_substring n s -> is_substring n (p +:+ s).
Proof.
  intros [p' [q ->]]. exists (p +:+ p'), q. now rewrite append_assoc.
Qed.

Lemma is_substring_append_r (q n s : string) :
  is_substring n s -> is_substring n (s +:+ q).
Proof.
  intros [p [q' ->]]. exists p, (q' +:+ q). now rewrite !append_assoc.
Qed.

Lemma toLowerCase_append (a b : string) :
  toLowerCase (a +:+ b) = toLowerCase a +:+ toLowerCase b.
Proof.
  induction a as [|x a IH]; [reflexivity |].
  rewrite append_String. cbn [toLowerCase]. now rewrite IH, append_String.
Qed.

Lemma toLowerCase_substring (n s : string) :
  is_substring n s -> is_substring (toLowerCase n) (toLowerCase s).
Proof.
  intros [p [q ->]]. exists (toLowerCase p), (toLowerCase q).
  now rewrite !toLowerCase_append.
Qed.

(** [trimStart] keeps a suffix. *)
Lemma trimStart_suffix (s : string) : exists p, s = p +:+ trimStart s.
Proof.
  induction s as [|c s [p IH]]; [now exists EmptyString |]. cbn [trimStart].
  destruct (is_white_space c).
  - exists (String c p). rewrite append_String. now rewrite <- IH.
  - now exists EmptyString.
Qed.

Lemma trimStart_append (n q : string) :
  is_substring (trimStart n) (trimStart (n +:+ q)).
Proof.
  induction n as [|c n IH]; [apply is_substring_empty |].
  rewrite append_String. cbn [trimStart]. destruct (is_white_space c); [exact IH |].
  rewrite <- append_String. apply is_substring_append_r, is_substring_refl.
Qed.

Lemma trimStart_substring (n s : string) :
  is_substring n s -> is_substring (trimStart n) (trimStart s).
Proof.
  intros [p [q ->]]. induction p as [|c p IH].
  - rewrite append_empty. apply trimStart_append.
  - rewrite append_String. cbn [trimStart]. destruct (is_white_space c); [exact IH |].
    apply is_substring_String, is_substring_append_l, is_substring_append_r.
    destruct (trimStart_suffix n) as [p' Hn]. exists p', EmptyString.
    now rewrite append_empty_r.
Qed.

(** [trimEnd] keeps a prefix. *)
Lemma trimEnd_prefix (s : string) : exists q, s = trimEnd s +:+ q.
Proof.
  induction s as [|c s [q IH]]; [now exists EmptyString |]. cbn [trimEnd].
  destruct (trimEnd s) as [|d t] eqn:E.
  - rewrite append_empty in IH. subst q. destruct (is_white_space c).
    + now exists (String c s).
    + now exists s.
  - exists q. rewrite append_String. now rewrite <- IH.
Qed.

Lemma trimEnd_append (a b : string) :
  trimEnd (a +:+ b) =
  match trimEnd b with
  | EmptyString => trimEnd a
  | String _ _ => a +:+ trimEnd b
  end.
Proof.
  induction a as [|c a IH].
  - rewrite append_empty. now destruct (trimEnd b).
  - rewrite append_String. cbn [trimEnd]. rewrite IH.
    destruct (trimEnd b) as [|d t]; [reflexivity |].
    rewrite append_String. now destruct a.
Qed.

Lemma trimEnd_append_keeps (n q : string) :
  is_substring (trimEnd n) (trimEnd (n +:+ q)).
Proof.
  rewrite trimEnd_append. destruct (trimEnd q) as [|d t]; [apply is_substring_refl |].
  destruct (trimEnd_prefix n) as [r Hn]. exists EmptyString, (r +:+ String d t).
  rewrite append_empty, <- append_assoc. now rewrite <- Hn.
Qed.

Lemma trimEnd_substring (n s : string) :
  is_substring n s -> is_substring (trimEnd n) (trimEnd s).
Proof.
  intros [p [q ->]]. rewrite trimEnd_append.
  pose proof (trimEnd_append_keeps n q) as H.
  destruct (trimEnd (n +:+ q)) as [|d t].
  - apply (is_substring_trans _ EmptyString); [exact H | apply is_substring_empty].
  - now apply is_substring_append_l.
Qed.

Lemma trim_substring (n s : string) :
  is_substring n s -> is_substring (trim n) (trim s).
Proof. intros H. unfold trim. now apply trimEnd_substring, trimStart_substring. Qed.

(** If [keyword] occurs in [term], its normalized form occurs in the
    normalized term. *)
Lemma normalized_substring (keyword term : string) :
  is_substring keyword term ->
  is_substring (trim (toLowerCase keyword)) (trim (toLowerCase term)).
Proof. intros H. now apply trim_substring, toLowerCase_substring. Qed.

End JsFacts.

Import JsFacts.

(** * The classification engine *)

Module Classification.

Lemma Qgt_bool_spec (x y : Q) : Qgt_bool x y = true <-> (y < x)%Q.
Proof.
  unfold Qgt_bool. rewrite negb_true_iff. split.
  - intros H. apply Qnot_le_lt. intros Hle. apply Qle_bool_iff in Hle. congruence.
  - intros H. destruct (Qle_bool x y) eqn:E; [|reflexivity].
    apply Qle_bool_iff in E. exfalso. now apply (Qlt_not_le y x).
Qed.

(** A waste candidate, in the words of the filter. *)
Definition waste_candidate (st : SearchTermRow) : Prop :=
  hasWrongIntent (st_searchTerm st) = true /\
  1 <= st_clicks st /\
  (st_conversions st == 0)%Q /\
  (2 < st_spend st)%Q.

Lemma is_waste_spec (st : SearchTermRow) : is_waste st = true <-> waste_candidate st.
Proof.
  unfold is_waste, waste_candidate.
  rewrite !andb_true_iff, Z.leb_le, Qeq_bool_iff, Qgt_bool_spec. tauto.
Qed.

Section Engine.
Variable rows : list SearchTermRow.
Variable keywordData : Fetched KeywordRow.
Variable negatives : gset string.

Let r := analyzeSearchTermsForGaps (Rows rows) keywordData negatives.

Lemma allWasteTerms_In (w : WasteTerm) :
  In w (allWasteTermsOf negatives rows) <->
  exists st, In st rows /\ is_waste st = true /\ w = to_waste negatives st.
Proof.
  unfold allWasteTermsOf. rewrite sort_In, in_map_iff. split.
  - intros [st [<- H]]. apply filter_In in H as [H1 H2]. now exists st.
  - intros [st [H1 [H2 ->]]]. exists st. split; [reflexivity | now apply filter_In].
Qed.

Lemma opportunities_In (o : Opportunity) :
  In o (opportunities r) ->
  exists st, In st rows /\ is_opportunity (existingKeywordsOf keywordData) st = true /\
             o = to_opportunity st.
Proof.
  subst r. cbn [analyzeSearchTermsForGaps opportunities]. intros H.
  apply slice0_In in H. apply sort_In in H.
  apply in_map_iff in H as [st [<- H]].
  apply filter_In in H as [H1 H2]. now exists st.
Qed.

Lemma wasteTerms_In (w : WasteTerm) :
  In w (wasteTerms r) ->
  exists st, In st rows /\ is_waste st = true /\ w = to_waste negatives st /\
             isAlreadyNegated negatives (st_searchTerm st) = false.
Proof.
  subst r. cbn [analyzeSearchTermsForGaps wasteTerms]. intros H.
  apply slice0_In in H. apply filter_In in H as [H Hneg].
  apply allWasteTerms_In in H as [st [H1 [H2 ->]]].
  exists st. repeat split; try assumption.
  now apply negb_true_iff in Hneg.
Qed.

Lemma alreadyCovered_In (c : CoveredWaste) :
  In c (alreadyCovered r) <->
  exists st, In st rows /\ is_waste st = true /\
             isAlreadyNegated negatives (st_searchTerm st) = true /\
             c = to_covered (to_waste negatives st).
Proof.
  subst r. cbn [analyzeSearchTermsForGaps alreadyCovered].
  rewrite in_map_iff. split.
  - intros [w [<- H]]. apply filter_In in H as [H Hneg].
    apply allWasteTerms_In in H as [st [H1 [H2 ->]]]. now exists st.
  - intros [st [H1 [H2 [H3 ->]]]]. exists (to_waste negatives st).
    split; [reflexivity |]. apply filter_In. split; [|exact H3].
    apply allWasteTerms_In. now exists st.
Qed.

Lemma opportunity_term_intent (t : string) :
  In t (map op_searchTerm (opportunities r)) -> hasWrongIntent t = false.
Proof.
  intros H. apply in_map_iff in H as [o [<- H]].
  apply opportunities_In in H as [st [_ [H ->]]].
  unfold is_opportunity in H. rewrite !andb_true_iff in H.
  destruct H as [[_ H] _]. now apply negb_true_iff in H.
Qed.

Lemma wasteTerm_term_facts (t : string) :
  In t (map wt_searchTerm (wasteTerms r)) ->
  hasWrongIntent t = true /\ isAlreadyNegated negatives t = false.
Proof.
  intros H. apply in_map_iff in H as [w [<- H]].
  apply wasteTerms_In in H as [st [_ [H [-> Hneg]]]].
  apply is_waste_spec in H as [H _]. now split.
Qed.

Lemma alreadyCovered_term_facts (t : string) :
  In t (map cw_keyword (alreadyCovered r)) ->
  hasWrongIntent t = true /\ isAlreadyNegated negatives t = true.
Proof.
  intros H. apply in_map_iff in H as [c [<- H]].
  apply alreadyCovered_In in H as [st [_ [H [Hneg ->]]]].
  apply is_waste_spec in H as [H _]. now split.
Qed.
End Engine.

(** Two lists of terms share no string. *)
Definition disjoint_terms (l1 l2 : list string) : Prop :=
  forall t, In t l1 -> ~ In t l2.

(** C2: for every input triple, no term string occurs in more than one of
    [opportunities], [wasteTerms] and [alreadyCovered]: an opportunity has
    no wrong-intent word while the other two lists hold only wrong-intent
    terms, and those are split by [isAlreadyNegated], a function of the
    term alone.  When the search-term input is not an array all three
    lists are empty. *)
Theorem buckets_pairwise_disjoint (searchTermData : Fetched SearchTermRow)
    (keywordData : Fetched KeywordRow) (negatives : gset string) :
  let r := analyzeSearchTermsForGaps searchTermData keywordData negatives in
  disjoint_terms (map op_searchTerm (opportunities r)) (map wt_searchTerm (wasteTerms r)) /\
  disjoint_terms (map op_searchTerm (opportunities r)) (map cw_keyword (alreadyCovered r)) /\
  disjoint_terms (map wt_searchTerm (wasteTerms r)) (map cw_keyword (alreadyCovered r)).
Proof.
  destruct searchTermData as [| e | | rows];
    try (cbn; repeat split; intros t []).
  cbv zeta. repeat split; intros t H1 H2.
  - apply opportunity_term_intent in H1. apply wasteTerm_term_facts in H2 as [H2 _].
    congruence.
  - apply opportunity_term_intent in H1. apply alreadyCovered_term_facts in H2 as [H2 _].
    congruence.
  - apply wasteTerm_term_facts in H1 as [_ H1].
    apply alreadyCovered_term_facts in H2 as [_ H2]. congruence.
Qed.

(** *** Waste candidates *)

Lemma by_spend_desc_subtracts : subtracts_keys by_spend_desc wt_spend.
Proof. intros a b. reflexivity. Qed.

Lemma allWasteTerms_sorted (negatives : gset string) (rows : list SearchTermRow) :
  StronglySorted (descending wt_spend) (allWasteTermsOf negatives rows).
Proof. apply sort_sorted, by_spend_desc_subtracts. Qed.

(** Sixteen distinct wrong-intent terms, one click and 3.00 spent on each,
    none converted and none negated. *)
Definition sixteen_lawyers : list SearchTermRow :=
  map (fun suffix => row ("lawyer " +:+ suffix) 1 3 0)
      [ "a"; "b"; "c"; "d"; "e"; "f"; "g"; "h";
        "i"; "j"; "k"; "l"; "m"; "n"; "o"; "p" ].

(** C1, as stated, fails: with sixteen candidates that are not negated,
    [slice(0, 15)] leaves the last one out of [wasteTerms], and it is not
    in [alreadyCovered] either. *)
Lemma sixteenth_waste_term_dropped :
  let r := analyzeSearchTermsForGaps (Rows sixteen_lawyers) (Rows []) ∅ in
  let st := row "lawyer p" 1 3 0 in
  In st sixteen_lawyers /\ waste_candidate st /\
  ~ In (st_searchTerm st) (map wt_searchTerm (wasteTerms r)) /\
  ~ In (st_searchTerm st) (map cw_keyword (alreadyCovered r)).
Proof.
  cbv zeta. split; [|split; [|split]].
  - vm_compute. do 15 right. now left.
  - apply is_waste_spec. vm_compute. reflexivity.
  - vm_compute. intros H.
    repeat (destruct H as [H | H]; [discriminate H |]). exact H.
  - vm_compute. intros H. exact H.
Qed.

(** C1, amended: a waste candidate (wrong-intent, clicks >= 1, no
    conversion, spend > 2.00) that is already negated appears in
    [alreadyCovered] and not in [wasteTerms]; one that is not negated never
    appears in [alreadyCovered], and appears in [wasteTerms] unless that
    list is full with 15 entries whose spend is at least as high.  No
    candidate term is in both lists. *)
Theorem waste_candidate_accounted_for (rows : list SearchTermRow)
    (keywordData : Fetched KeywordRow) (negatives : gset string) (st : SearchTermRow) :
  In st rows -> waste_candidate st ->
  let r := analyzeSearchTermsForGaps (Rows rows) keywordData negatives in
  let t := st_searchTerm st in
  (isAlreadyNegated negatives t = true ->
     In t (map cw_keyword (alreadyCovered r)) /\
     ~ In t (map wt_searchTerm (wasteTerms r))) /\
  (isAlreadyNegated negatives t = false ->
     ~ In t (map cw_keyword (alreadyCovered r)) /\
     (In t (map wt_searchTerm (wasteTerms r)) \/
      (length (wasteTerms r) = 15%nat /\
       forall w, In w (wasteTerms r) -> (st_spend st <= wt_spend w)%Q))).
Proof.
  intros Hin Hcand r t. apply is_waste_spec in Hcand. split; intros Hneg.
  - split.
    + apply in_map_iff. exists (to_covered (to_waste negatives st)).
      split; [reflexivity |]. apply alreadyCovered_In. now exists st.
    + intros H. apply wasteTerm_term_facts in H as [_ H]. congruence.
  - split.
    + intros H. apply alreadyCovered_term_facts in H as [_ H]. congruence.
    + set (fresh := filter (fun wt => negb (wt_alreadyNegative wt))
                           (allWasteTermsOf negatives rows)).
      assert (Hsorted : StronglySorted (descending wt_spend) fresh)
        by apply filter_sorted, allWasteTerms_sorted.
      assert (Hfresh : In (to_waste negatives st) fresh).
      { apply filter_In. split.
        - apply allWasteTerms_In. now exists st.
        - cbn. fold t. now rewrite Hneg. }
      destruct (slice0_keeps_top wt_spend 15 fresh _ Hsorted Hfresh) as [H | [Hlen Htop]].
      * left. apply in_map_iff. now exists (to_waste negatives st).
      * right. split; [exact Hlen |]. intros w Hw. now apply (Htop w).
Qed.

(** The amended C1 applies to the sixteenth candidate above. *)
Lemma waste_candidate_accounted_for_witness :
  let r := analyzeSearchTermsForGaps (Rows sixteen_lawyers) (Rows []) ∅ in
  ~ In "lawyer p" (map cw_keyword (alreadyCovered r)) /\
  (In "lawyer p" (map wt_searchTerm (wasteTerms r)) \/
   (length (wasteTerms r) = 15%nat /\
    forall w, In w (wasteTerms r) -> (3 <= wt_spend w)%Q)).
Proof.
  refine (proj2 (waste_candidate_accounted_for sixteen_lawyers (Rows []) ∅
                   (row "lawyer p" 1 3 0) _ _) _).
  - vm_compute. do 15 right. now left.
  - apply is_waste_spec. vm_compute. reflexivity.
  - vm_compute. reflexivity.
Defined.

(** *** The negative match set *)

Lemma isAlreadyNegated_spec (negatives : gset string) (term : string) :
  isAlreadyNegated negatives term = true <->
  exists negative, negative ∈ negatives /\
                   is_substring negative (trim (toLowerCase term)).
Proof.
  unfold isAlreadyNegated. cbv zeta.
  destruct (bool_decide (trim (toLowerCase term) ∈ negatives)) eqn:E.
  - apply bool_decide_eq_true in E. split; [intros _ | reflexivity].
    exists (trim (toLowerCase term)). split; [exact E |].
    apply includes_spec, includes_refl.
  - rewrite existsb_exists. split.
    + intros [negative [Hin Hinc]]. exists negative. split.
      * apply elem_of_elements, list_elem_of_In, Hin.
      * now apply includes_spec.
    + intros [negative [Hin Hsub]]. exists negative. split.
      * apply list_elem_of_In, elem_of_elements, Hin.
      * now apply includes_spec.
Qed.

(** C3: a term is negated when its lower-cased, trimmed text is in the set,
    and more generally exactly when some negative keyword of the set
    occurs inside that text; in particular a keyword that occurs in the
    term as written is matched through its normalized form, the one the
    normalizer puts in the set.  The negative keyword "attorney" matches
    "hoa attorney near me", and with the set {"attorney"} the term
    "hoa attorney help" (3 clicks, no conversion, 5.00 spent) lands in
    [alreadyCovered] while [wasteTerms] stays empty. *)
Theorem negated_by_equality_or_substring (negatives : gset string) (term : string) :
  (trim (toLowerCase term) ∈ negatives -> isAlreadyNegated negatives term = true) /\
  (forall negative, negative ∈ negatives ->
     is_substring negative (trim (toLowerCase term)) ->
     isAlreadyNegated negatives term = true) /\
  (isAlreadyNegated negatives term = true ->
     exists negative, negative ∈ negatives /\
                      is_substring negative (trim (toLowerCase term))) /\
  (forall keyword, trim (toLowerCase keyword) ∈ negatives ->
     is_substring keyword term ->
     isAlreadyNegated negatives term = true) /\
  isAlreadyNegated {[ "attorney" ]} "hoa attorney near me" = true /\
  (forall (impressions : Z) (ctr : Q) (keywordData : Fetched KeywordRow),
     let st := {| st_searchTerm := "hoa attorney help"; st_clicks := 3;
                  st_impressions := impressions; st_spend := 5;
                  st_conversions := 0; st_ctr := ctr |} in
     let r := analyzeSearchTermsForGaps (Rows [st]) keywordData {[ "attorney" ]} in
     alreadyCovered r =
       [ {| cw_keyword := "hoa attorney help"; cw_wastedSpend := 5;
            cw_note := "already negated" |} ] /\
     wasteTerms r = []).
Proof.
  split; [|split; [|split; [|split; [|split]]]].
  - intros H. apply isAlreadyNegated_spec. exists (trim (toLowerCase term)).
    split; [exact H | apply includes_spec, includes_refl].
  - intros negative Hin Hsub. apply isAlreadyNegated_spec. now exists negative.
  - apply isAlreadyNegated_spec.
  - intros keyword Hin Hsub. apply isAlreadyNegated_spec.
    exists (trim (toLowerCase keyword)). split; [exact Hin |].
    now apply normalized_substring.
  - vm_compute. reflexivity.
  - intros impressions ctr keywordData. cbv zeta. split; vm_compute; reflexivity.
Qed.

(** *** Opportunities *)

Lemma existingKeywords_fold (l : list KeywordRow) (acc : gset string) (s : string) :
  s ∈ fold_left add_existing_keyword l acc <->
  s ∈ acc \/
  exists kw k, In kw l /\ kw_keyword kw = Some k /\ k <> EmptyString /\
               s = trim (toLowerCase k).
Proof.
  revert acc. induction l as [|kw l IH]; intros acc; simpl.
  - split; [now left | intros [H | [kw [k [[] _]]]]; exact H].
  - rewrite IH. unfold add_existing_keyword.
    destruct (truthy (kw_keyword kw)) eqn:E.
    + apply truthy_spec in E as [k [Hk Hne]]. rewrite Hk. simpl.
      rewrite elem_of_union, elem_of_singleton. split.
      * intros [[-> | H] | [kw' [k' [Hin H]]]].
        -- right. exists kw, k. tauto.
        -- now left.
        -- right. exists kw', k'. tauto.
      * intros [H | [kw' [k' [[<- | Hin] [Hk' [Hne' ->]]]]]].
        -- left. now right.
        -- left. left. congruence.
        -- right. now exists kw', k'.
    + split.
      * intros [H | [kw' [k' [Hin H]]]]; [now left |]. right. exists kw', k'. tauto.
      * intros [H | [kw' [k' [[<- | Hin] [Hk' [Hne' ->]]]]]]; [now left | |].
        -- exfalso. assert (truthy (kw_keyword kw) = true) as E'
             by (apply truthy_spec; now exists k').
           congruence.
        -- right. now exists kw', k'.
Qed.

(** The term is the normalized text of a keyword of the array. *)
Definition is_existing_keyword (keywords : list KeywordRow) (term : string) : Prop :=
  exists kw k, In kw keywords /\ kw_keyword kw = Some k /\
               k <> EmptyString /\
               trim (toLowerCase term) = trim (toLowerCase k).

Lemma existingKeywordsOf_spec (keywords : list KeywordRow) (term : string) :
  trim (toLowerCase term) ∈ existingKeywordsOf (Rows keywords) <->
  is_existing_keyword keywords term.
Proof.
  unfold existingKeywordsOf, is_existing_keyword. cbn [usable_rows].
  rewrite existingKeywords_fold.
  split; [intros [H | H]; [|exact H] | intros H; now right].
  now apply not_elem_of_empty in H.
Qed.

(** An opportunity candidate, in the words of the filter. *)
Definition opportunity_candidate (keywords : list KeywordRow)
    (st : SearchTermRow) : Prop :=
  1 <= st_clicks st /\
  hasWrongIntent (st_searchTerm st) = false /\
  ~ is_existing_keyword keywords (st_searchTerm st).

Lemma is_opportunity_spec (keywords : list KeywordRow) (st : SearchTermRow) :
  is_opportunity (existingKeywordsOf (Rows keywords)) st = true <->
  opportunity_candidate keywords st.
Proof.
  unfold is_opportunity, opportunity_candidate. cbv zeta.
  rewrite !andb_true_iff, !negb_true_iff, Z.leb_le, bool_decide_eq_false,
    existingKeywordsOf_spec.
  tauto.
Qed.

Lemma by_clicks_desc_subtracts :
  subtracts_keys by_clicks_desc (fun o => inject_Z (op_clicks o)).
Proof.
  intros a b. unfold by_clicks_desc, Z.sub.
  now rewrite inject_Z_plus, inject_Z_opp.
Qed.

(** [b] has no more clicks than [a]. *)
Definition clicks_descending (a b : Opportunity) : Prop := op_clicks b <= op_clicks a.

Lemma StronglySorted_weaken {A : Type} (R R' : A -> A -> Prop) (l : list A) :
  (forall a b, R a b -> R' a b) -> StronglySorted R l -> StronglySorted R' l.
Proof.
  intros HR. induction 1 as [|x l Hl IH Hx]; constructor; [assumption |].
  eapply List.Forall_impl; [|exact Hx]. intros b. apply HR.
Qed.

(** Rounded to cents: a whole number of cents at most half a cent away
    from [x].  Which way an exact half cent falls is left open: the code
    rounds the double it has computed, and 1.15 / 2 comes out as 0.57 there
    while the exact quotient rounds to 0.58. *)
Definition rounded_to_cents (x y : Q) : Prop :=
  exists cents : Z,
    (y == inject_Z cents / 100)%Q /\
    (x * 100 - (1 # 2) <= inject_Z cents)%Q /\
    (inject_Z cents <= x * 100 + (1 # 2))%Q.

Lemma round_cents_spec (x : Q) : rounded_to_cents x (round_cents x).
Proof.
  exists (Math_round (x * 100)). unfold round_cents, Math_round.
  split; [reflexivity |].
  pose proof (Qfloor_le (x * 100 + (1 # 2))) as Hle.
  pose proof (Qlt_floor (x * 100 + (1 # 2))) as Hlt.
  rewrite inject_Z_plus in Hlt. split; [|exact Hle].
  change (inject_Z 1) with 1%Q in Hlt. lra.
Qed.

(** The entry that the [map] step makes of a row: every field copied, the
    intent score of the term, and the cost per click rounded to cents. *)
Definition carries (st : SearchTermRow) (o : Opportunity) : Prop :=
  op_searchTerm o = st_searchTerm st /\
  op_clicks o = st_clicks st /\
  op_impressions o = st_impressions st /\
  op_spend o = st_spend st /\
  op_conversions o = st_conversions st /\
  op_ctr o = st_ctr st /\
  op_intentScore o = scoreIntent (st_searchTerm st) /\
  rounded_to_cents (st_spend st / inject_Z (st_clicks st)) (op_actualCpc o).

Lemma to_opportunity_carries (st : SearchTermRow) :
  1 <= st_clicks st -> carries st (to_opportunity st).
Proof.
  intros Hclicks. unfold carries. cbn [to_opportunity op_searchTerm op_clicks
    op_impressions op_spend op_conversions op_ctr op_intentScore op_actualCpc].
  repeat split. unfold actualCpcOf.
  destruct (0 <? st_clicks st) eqn:E; [apply round_cents_spec |].
  apply Z.ltb_ge in E. lia.
Qed.

(** The spec's example row, whatever its impressions and click-through rate. *)
Definition response_letter_row (impressions : Z) (ctr : Q) : SearchTermRow :=
  {| st_searchTerm := "diy hoa response letter"; st_clicks := 5;
     st_impressions := impressions; st_spend := 4;
     st_conversions := 1; st_ctr := ctr |}.

Lemma response_letter_opportunity (impressions : Z) (ctr : Q) :
  exists o,
    opportunities (analyzeSearchTermsForGaps
                     (Rows [response_letter_row impressions ctr]) (Rows []) ∅) = [o] /\
    op_searchTerm o = "diy hoa response letter" /\
    (op_actualCpc o == 80 # 100)%Q.
Proof.
  eexists. split; [vm_compute; reflexivity |].
  split; vm_compute; reflexivity.
Qed.

(** The account already has that term as a keyword, written with capitals
    and with spaces around it. *)
Definition response_letter_keyword : KeywordRow :=
  {| kw_keyword := Some " DIY HOA Response Letter "; kw_matchType := "PHRASE";
     kw_status := "ENABLED" |}.

Lemma response_letter_is_a_keyword (impressions : Z) (ctr : Q) :
  opportunities (analyzeSearchTermsForGaps
                   (Rows [response_letter_row impressions ctr])
                   (Rows [response_letter_keyword]) ∅) = [].
Proof. vm_compute. reflexivity. Qed.

(** C4, as stated, fails on the price: one click in three at 1.00 spent
    carries [actualCpc] 0.33, which is not 1/3. *)
Lemma actualCpc_is_rounded_not_exact :
  let r := analyzeSearchTermsForGaps (Rows [row "hoa fine" 3 1 0]) (Rows []) ∅ in
  exists o, In o (opportunities r) /\
            (op_actualCpc o == 33 # 100)%Q /\
            ~ (op_actualCpc o == op_spend o / inject_Z (op_clicks o))%Q.
Proof.
  cbv zeta. eexists. split; [vm_compute; left; reflexivity |].
  split; vm_compute; [reflexivity | discriminate].
Qed.

(** C4, amended: for an array of search terms and an array of keywords,
    every entry of [opportunities] is the copy of an input row with
    clicks >= 1, no wrong-intent word and a text whose lower-cased, trimmed
    form is not that of a keyword of the array; the list is in descending
    order of clicks and has at most 20 entries; a qualifying row is left
    out only when 20 entries with at least as many clicks fill the list;
    and [actualCpc] is spend/clicks rounded to whole cents, not the exact
    quotient, and 0 for a row without clicks.  Keyword data that is not an
    array (missing, a failure sentinel, anything else) counts as no
    keywords.
    The single term "diy hoa response letter" (5 clicks, 4.00 spent, one
    conversion, no keywords) yields one opportunity with [actualCpc] 0.80;
    with the keyword " DIY HOA Response Letter " in the account it yields
    none. *)
Theorem opportunities_characterized (rows : list SearchTermRow)
    (keywords : list KeywordRow) (negatives : gset string) :
  let r := analyzeSearchTermsForGaps (Rows rows) (Rows keywords) negatives in
  (forall o, In o (opportunities r) ->
     exists st, In st rows /\ opportunity_candidate keywords st /\ carries st o) /\
  StronglySorted clicks_descending (opportunities r) /\
  (length (opportunities r) <= 20)%nat /\
  (forall st, In st rows -> opportunity_candidate keywords st ->
     (exists o, In o (opportunities r) /\ carries st o) \/
     (length (opportunities r) = 20%nat /\
      forall o, In o (opportunities r) -> st_clicks st <= op_clicks o)) /\
  (forall st, st_clicks st <= 0 -> op_actualCpc (to_opportunity st) = 0%Q) /\
  (opportunities (analyzeSearchTermsForGaps (Rows rows) Missing negatives) =
     opportunities (analyzeSearchTermsForGaps (Rows rows) (Rows []) negatives) /\
   (forall message,
      opportunities (analyzeSearchTermsForGaps (Rows rows) (ErrorSentinel message)
                       negatives) =
      opportunities (analyzeSearchTermsForGaps (Rows rows) (Rows []) negatives)) /\
   opportunities (analyzeSearchTermsForGaps (Rows rows) NonArray negatives) =
     opportunities (analyzeSearchTermsForGaps (Rows rows) (Rows []) negatives)) /\
  (forall (impressions : Z) (ctr : Q),
     (exists o,
        opportunities (analyzeSearchTermsForGaps
                         (Rows [response_letter_row impressions ctr]) (Rows []) ∅) = [o] /\
        op_searchTerm o = "diy hoa response letter" /\
        (op_actualCpc o == 80 # 100)%Q) /\
     opportunities (analyzeSearchTermsForGaps
                      (Rows [response_letter_row impressions ctr])
                      (Rows [response_letter_keyword]) ∅) = []).
Proof.
  intros r.
  assert (Hsorted : StronglySorted (descending (fun o => inject_Z (op_clicks o)))
            (sort by_clicks_desc
               (map to_opportunity
                  (filter (is_opportunity (existingKeywordsOf (Rows keywords))) rows))))
    by apply sort_sorted, by_clicks_desc_subtracts.
  split; [|split; [|split; [|split; [|split; [|split]]]]].
  - intros o Ho. apply opportunities_In in Ho as [st [Hin [Hopp ->]]].
    apply is_opportunity_spec in Hopp. exists st.
    split; [exact Hin |]. split; [exact Hopp |].
    apply to_opportunity_carries, Hopp.
  - subst r. cbn [analyzeSearchTermsForGaps opportunities].
    apply (StronglySorted_weaken (descending (fun o => inject_Z (op_clicks o)))).
    + intros a b H. unfold descending in H. unfold clicks_descending. now rewrite Zle_Qle.
    + now apply slice0_sorted.
  - apply slice0_length.
  - intros st Hin Hcand.
    assert (Hmem : In (to_opportunity st)
              (sort by_clicks_desc
                 (map to_opportunity
                    (filter (is_opportunity (existingKeywordsOf (Rows keywords))) rows)))).
    { apply sort_In, in_map. apply filter_In. split; [exact Hin |].
      now apply is_opportunity_spec. }
    destruct (slice0_keeps_top (fun o => inject_Z (op_clicks o)) 20 _ _ Hsorted Hmem)
      as [H | [Hlen Htop]].
    + left. exists (to_opportunity st). split; [exact H |].
      apply to_opportunity_carries, Hcand.
    + right. split; [exact Hlen |]. intros o Ho. specialize (Htop o Ho).
      unfold descending in Htop. cbv beta in Htop. rewrite Zle_Qle. exact Htop.
  - intros st Hclicks. cbn [to_opportunity op_actualCpc]. unfold actualCpcOf.
    destruct (0 <? st_clicks st) eqn:E; [|reflexivity].
    apply Z.ltb_lt in E. lia.
  - split; [reflexivity |]. split; [intros message |]; reflexivity.
  - intros impressions ctr.
    split; [apply response_letter_opportunity | apply response_letter_is_a_keyword].
Qed.

(** *** Absent input *)

(** Nothing classified and every count at zero. *)
Definition is_empty_result (r : ClassificationResult) : Prop :=
  opportunities r = [] /\ wasteTerms r = [] /\ alreadyCovered r = [] /\
  totalSearchTerms (analysis r) = 0%nat /\
  confirmedGaps (analysis r) = 0%nat /\
  confirmedWaste (analysis r) = 0%nat /\
  (totalWastedOnWrongIntent (analysis r) == 0)%Q /\
  alreadyNegated (analysis r) = 0%nat.

(** C9: when the search-term input is missing, is the fetch-failure
    sentinel, is some other non-array value, or is the empty array, the
    engine returns (it is a total function of these inputs) the empty
    result: no opportunity, no waste term, nothing already covered, and
    all five statistics zero, whatever the keywords and negatives are. *)
Theorem absent_input_gives_empty_result (keywordData : Fetched KeywordRow)
    (negatives : gset string) :
  is_empty_result (analyzeSearchTermsForGaps Missing keywordData negatives) /\
  (forall message,
     is_empty_result (analyzeSearchTermsForGaps (ErrorSentinel message)
                        keywordData negatives)) /\
  is_empty_result (analyzeSearchTermsForGaps NonArray keywordData negatives) /\
  is_empty_result (analyzeSearchTermsForGaps (Rows []) keywordData negatives).
Proof.
  unfold is_empty_result. cbn [analyzeSearchTermsForGaps opportunities wasteTerms
    alreadyCovered analysis emptyAnalysis totalSearchTerms confirmedGaps confirmedWaste
    totalWastedOnWrongIntent alreadyNegated].
  repeat match goal with |- _ /\ _ => split end;
    try intros message; repeat match goal with |- _ /\ _ => split end;
    reflexivity.
Qed.

End Classification.

(** * The negative-keyword normalizer *)

Module Normalizer.

Lemma has_keyword_spec (neg : NegativeRow) :
  has_keyword neg = true <-> exists k, neg_keyword neg = Some k /\ k <> EmptyString.
Proof. apply truthy_spec. Qed.

(** One [forEach] loop: what it appends to the detailed list and what it
    adds to the match set. *)
Lemma add_negative_fold (entry : NegativeRow -> ExistingNegative)
    (l : list NegativeRow) (acc : CombinedNegatives) :
  existingNegatives (fold_left (add_negative entry) l acc) =
    existingNegatives acc ++ map entry (filter has_keyword l) /\
  forall s,
    s ∈ negativeKeywordsSet (fold_left (add_negative entry) l acc) <->
    s ∈ negativeKeywordsSet acc \/
    exists neg k, In neg l /\ neg_keyword neg = Some k /\ k <> EmptyString /\
                  s = trim (toLowerCase k).
Proof.
  revert acc. induction l as [|neg l IH]; intros acc; simpl.
  - split; [now rewrite app_nil_r |].
    intros s. split; [now left | intros [H | [neg [k [[] _]]]]; exact H].
  - destruct (IH (add_negative entry acc neg)) as [IHl IHs]. unfold add_negative in *.
    destruct (has_keyword neg) eqn:E; cbn [existingNegatives negativeKeywordsSet] in *.
    + split; [now rewrite IHl, <- app_assoc |].
      intros s. rewrite IHs, elem_of_union, elem_of_singleton.
      apply has_keyword_spec in E as [k [Hk Hne]]. rewrite Hk. cbn [orEmpty]. split.
      * intros [[-> | H] | [neg' [k' [Hin H]]]].
        -- right. exists neg, k. tauto.
        -- now left.
        -- right. exists neg', k'. tauto.
      * intros [H | [neg' [k' [[<- | Hin] [Hk' [Hne' ->]]]]]].
        -- left. now right.
        -- left. left. congruence.
        -- right. now exists neg', k'.
    + split; [exact IHl |].
      intros s. rewrite IHs. split.
      * intros [H | [neg' [k' [Hin H]]]]; [now left |]. right. exists neg', k'. tauto.
      * intros [H | [neg' [k' [[<- | Hin] [Hk' [Hne' ->]]]]]]; [now left | |].
        -- exfalso. assert (has_keyword neg = true) as E'
             by (apply has_keyword_spec; now exists k').
           congruence.
        -- right. now exists neg', k'.
Qed.

(** The match set of the combination, by the rows it comes from. *)
Lemma combine_match_set (campaignNegatives sharedSetNegatives : Fetched NegativeRow)
    (s : string) :
  s ∈ negativeKeywordsSet (combineNegativeKeywords campaignNegatives sharedSetNegatives) <->
  exists neg k,
    In neg (usable_rows campaignNegatives ++ usable_rows sharedSetNegatives) /\
    neg_keyword neg = Some k /\ k <> EmptyString /\ s = trim (toLowerCase k).
Proof.
  unfold combineNegativeKeywords. cbv zeta.
  set (start := {| existingNegatives := []; negativeKeywordsSet := ∅ |}).
  destruct (add_negative_fold campaign_entry (usable_rows campaignNegatives) start)
    as [_ Hs1].
  destruct (add_negative_fold account_entry (usable_rows sharedSetNegatives)
              (fold_left (add_negative campaign_entry)
                         (usable_rows campaignNegatives) start)) as [_ Hs2].
  rewrite Hs2, Hs1. split.
  - intros [[H | [neg [k [Hin H]]]] | [neg [k [Hin H]]]].
    + now apply not_elem_of_empty in H.
    + exists neg, k. split; [apply in_or_app; now left | exact H].
    + exists neg, k. split; [apply in_or_app; now right | exact H].
  - intros [neg [k [Hin H]]]. apply in_app_or in Hin as [Hin | Hin].
    + left. right. now exists neg, k.
    + right. now exists neg, k.
Qed.

(** End to end: a keyword of either negative list that occurs in a search
    term, as written, makes the engine treat the term as negated. *)
Lemma fetched_keyword_negates (campaignNegatives sharedSetNegatives : Fetched NegativeRow)
    (neg : NegativeRow) (k term : string) :
  In neg (usable_rows campaignNegatives ++ usable_rows sharedSetNegatives) ->
  neg_keyword neg = Some k -> k <> EmptyString ->
  is_substring k term ->
  isAlreadyNegated
    (negativeKeywordsSet (combineNegativeKeywords campaignNegatives sharedSetNegatives))
    term = true.
Proof.
  intros Hin Hk Hne Hsub. apply Classification.isAlreadyNegated_spec.
  exists (trim (toLowerCase k)). split; [|now apply normalized_substring].
  apply combine_match_set. now exists neg, k.
Qed.

(** Every row carries the scope of the fetcher that produced it. *)
Definition scopes_as_fetched (campaign account : list NegativeRow) : Prop :=
  (forall neg, In neg campaign -> neg_scope neg = ScopeCampaign) /\
  (forall neg, In neg account -> neg_scope neg = ScopeAccount).

(** Four campaign-level rows: a keyword with capitals and spaces around
    it, an empty keyword, a missing one, and a plain one. *)
Definition campaign_rows : list NegativeRow :=
  [ {| neg_keyword := Some " Attorney "; neg_matchType := "PHRASE";
       neg_campaignName := Some "Search"; neg_sharedSetName := None;
       neg_scope := ScopeCampaign |};
    {| neg_keyword := Some ""; neg_matchType := "UNKNOWN";
       neg_campaignName := Some "Search"; neg_sharedSetName := None;
       neg_scope := ScopeCampaign |};
    {| neg_keyword := None; neg_matchType := "EXACT";
       neg_campaignName := Some "Search"; neg_sharedSetName := None;
       neg_scope := ScopeCampaign |};
    {| neg_keyword := Some "lawsuit"; neg_matchType := "EXACT";
       neg_campaignName := Some "Brand"; neg_sharedSetName := None;
       neg_scope := ScopeCampaign |} ].

(** One row of a shared set. *)
Definition shared_rows : list NegativeRow :=
  [ {| neg_keyword := Some "Free Template"; neg_matchType := "BROAD";
       neg_campaignName := None; neg_sharedSetName := Some "Account negatives";
       neg_scope := ScopeAccount |} ].

Lemma combine_example :
  let c := combineNegativeKeywords (Rows campaign_rows) (Rows shared_rows) in
  existingNegatives c =
    [ {| en_keyword := " Attorney "; en_matchType := "PHRASE"; en_scope := ScopeCampaign;
         en_campaignName := Some "Search"; en_sharedSetName := None |};
      {| en_keyword := "lawsuit"; en_matchType := "EXACT"; en_scope := ScopeCampaign;
         en_campaignName := Some "Brand"; en_sharedSetName := None |};
      {| en_keyword := "Free Template"; en_matchType := "BROAD"; en_scope := ScopeAccount;
         en_campaignName := None; en_sharedSetName := Some "Account negatives" |} ] /\
  forall s, s ∈ negativeKeywordsSet c <->
            s = "attorney" \/ s = "lawsuit" \/ s = "free template".
Proof.
  cbv zeta. split; [vm_compute; reflexivity |].
  intros s. rewrite combine_match_set. cbn [usable_rows campaign_rows shared_rows app].
  split.
  - intros [neg [k [Hin [Hk [Hne ->]]]]].
    destruct Hin as [<- | [<- | [<- | [<- | [<- | []]]]]]; cbn in Hk;
      try discriminate; injection Hk as <-; try congruence;
      [left | right; left | right; right]; vm_compute; reflexivity.
  - intros [-> | [-> | ->]].
    + eexists _, " Attorney ". split; [left; reflexivity |].
      split; [reflexivity |]. split; [discriminate | vm_compute; reflexivity].
    + eexists _, "lawsuit". split; [right; right; right; left; reflexivity |].
      split; [reflexivity |]. split; [discriminate | vm_compute; reflexivity].
    + eexists _, "Free Template".
      split; [right; right; right; right; left; reflexivity |].
      split; [reflexivity |]. split; [discriminate | vm_compute; reflexivity].
Qed.

(** C8: for two arrays of rows, the detailed list holds, in order, one
    entry per row whose keyword is present and non-empty and nothing for
    the other rows; an entry keeps the keyword as written, the match type,
    and the scope of the array the row came from (which is the row's own
    scope for rows as the fetchers build them); the match set holds exactly
    the lower-cased, trimmed keywords of the surviving rows.  Two empty
    arrays give an empty list and an empty set, and an input that is not an
    array (missing, a failure sentinel, anything else) counts as an empty
    array.  The campaign rows " Attorney ", "", none, "lawsuit" with the
    shared row "Free Template" give the three entries " Attorney ",
    "lawsuit", "Free Template" as written, scopes campaign, campaign,
    account, and the match set "attorney", "lawsuit", "free template". *)
Theorem combine_keeps_rows_with_keyword (campaign account : list NegativeRow) :
  let c := combineNegativeKeywords (Rows campaign) (Rows account) in
  existingNegatives c =
    map campaign_entry (filter has_keyword campaign) ++
    map account_entry (filter has_keyword account) /\
  (forall neg, has_keyword neg = true <->
               exists k, neg_keyword neg = Some k /\ k <> EmptyString) /\
  (forall neg k, neg_keyword neg = Some k ->
     en_keyword (campaign_entry neg) = k /\ en_keyword (account_entry neg) = k /\
     en_matchType (campaign_entry neg) = neg_matchType neg /\
     en_matchType (account_entry neg) = neg_matchType neg /\
     en_scope (campaign_entry neg) = ScopeCampaign /\
     en_scope (account_entry neg) = ScopeAccount) /\
  (scopes_as_fetched campaign account ->
     map en_scope (existingNegatives c) =
     map neg_scope (filter has_keyword (campaign ++ account))) /\
  (forall s, s ∈ negativeKeywordsSet c <->
     exists neg k, In neg (campaign ++ account) /\ neg_keyword neg = Some k /\
                   k <> EmptyString /\ s = trim (toLowerCase k)) /\
  (existingNegatives (combineNegativeKeywords (Rows []) (Rows [])) = [] /\
   negativeKeywordsSet (combineNegativeKeywords (Rows []) (Rows [])) = ∅) /\
  (combineNegativeKeywords Missing (Rows account) =
     combineNegativeKeywords (Rows []) (Rows account) /\
   (forall message,
      combineNegativeKeywords (ErrorSentinel message) (Rows account) =
      combineNegativeKeywords (Rows []) (Rows account)) /\
   combineNegativeKeywords NonArray (Rows account) =
     combineNegativeKeywords (Rows []) (Rows account)) /\
  (forall first : Fetched NegativeRow,
     combineNegativeKeywords first Missing = combineNegativeKeywords first (Rows []) /\
     (forall message,
        combineNegativeKeywords first (ErrorSentinel message) =
        combineNegativeKeywords first (Rows [])) /\
     combineNegativeKeywords first NonArray = combineNegativeKeywords first (Rows [])) /\
  (let example := combineNegativeKeywords (Rows campaign_rows) (Rows shared_rows) in
   existingNegatives example =
     [ {| en_keyword := " Attorney "; en_matchType := "PHRASE"; en_scope := ScopeCampaign;
          en_campaignName := Some "Search"; en_sharedSetName := None |};
       {| en_keyword := "lawsuit"; en_matchType := "EXACT"; en_scope := ScopeCampaign;
          en_campaignName := Some "Brand"; en_sharedSetName := None |};
       {| en_keyword := "Free Template"; en_matchType := "BROAD"; en_scope := ScopeAccount;
          en_campaignName := None; en_sharedSetName := Some "Account negatives" |} ] /\
   forall s, s ∈ negativeKeywordsSet example <->
             s = "attorney" \/ s = "lawsuit" \/ s = "free template").
Proof.
  intros c.
  set (start := {| existingNegatives := []; negativeKeywordsSet := ∅ |}).
  destruct (add_negative_fold campaign_entry campaign start) as [Hl1 Hs1].
  destruct (add_negative_fold account_entry account
              (fold_left (add_negative campaign_entry) campaign start)) as [Hl2 Hs2].
  assert (Hlist : existingNegatives c =
            map campaign_entry (filter has_keyword campaign) ++
            map account_entry (filter has_keyword account)).
  { subst c. unfold combineNegativeKeywords. cbv zeta. cbn [usable_rows]. fold start.
    rewrite Hl2, Hl1. reflexivity. }
  split; [exact Hlist |]. split; [apply has_keyword_spec |].
  split; [intros neg k Hk; cbn; rewrite Hk; cbn; tauto |].
  split; [|split; [|split; [|split; [|split]]]].
  - intros [Hc Ha]. rewrite Hlist, filter_app, !map_app, !map_map. f_equal.
    + apply map_ext_in. intros neg Hin. apply filter_In in Hin as [Hin _].
      cbn. symmetry. now apply Hc.
    + apply map_ext_in. intros neg Hin. apply filter_In in Hin as [Hin _].
      cbn. symmetry. now apply Ha.
  - intros s. apply (combine_match_set (Rows campaign) (Rows account)).
  - split; reflexivity.
  - split; [reflexivity |]. split; [intros message |]; reflexivity.
  - intros first. split; [reflexivity |]. split; [intros message |]; reflexivity.
  - apply combine_example.
Qed.

End Normalizer.

(** * The job store *)

Module JobStoreFacts.
Import JobStore.

(** C7: whatever the durable tier does with the upsert (it is not
    configured, the reply carries an error, the call throws, or it
    succeeds), [saveJob] returns normally with the record in the
    in-process map, and a following [loadJob] of the same id returns that
    record from the map without consulting the durable tier. *)
Theorem saved_job_is_loaded_from_memory {Result : Type}
    (jobId : string) (data : Job Result) (now : string)
    (upsertDoes : UpsertBehaviour) (selectDoes : SelectBehaviour) (st : Store Result) :
  exists st',
    saveJob jobId data now upsertDoes st = Returns st' /\
    jobStore st' !! jobId = Some data /\
    loadJob jobId selectDoes st' = Returns (Some data).
Proof.
  unfold saveJob, loadJob. cbn [supabase jobStore].
  destruct (supabase st) as [table|].
  - destruct upsertDoes; cbn [upsert try_catch jobStore supabase fst];
      eexists; (split; [reflexivity |]); cbn [jobStore];
      rewrite lookup_insert_eq; split; reflexivity.
  - eexists. split; [reflexivity |]. cbn [jobStore].
    rewrite lookup_insert_eq. split; reflexivity.
Qed.

End JobStoreFacts.

(** * The client poller *)

Module PollerFacts.
Import Poller.

(** The POST reply that starts a poll: [{ status: 'processing', jobId }]. *)
Definition started (job : string) : JobResponse :=
  {| status := Processing; jobId := Some job; result := None; error := None |}.

(** The two copies of the service. *)
Definition dashboard_maxAttempts : nat := 120.
Definition dashboard_timeoutMessage : string :=
  "Analysis timed out after 4 minutes. Please try again.".
Definition campaign_maxAttempts : nat := 90.
Definition campaign_timeoutMessage : string :=
  "Analysis timed out after 3 minutes. Please try again.".

(** *** One poll that the server never settles *)

(** The only things that happen: the timer of session 0 fires, and poll
    requests come back with [status: 'processing']. *)
Definition quiet (e : Event) : bool :=
  match e with
  | IntervalTick 0 => true
  | PollReturns 0 response =>
      match status response with Processing => true | _ => false end
  | _ => false
  end.

Definition is_tick (e : Event) : bool :=
  match e with IntervalTick _ => true | _ => false end.

Definition ticks (events : list Event) : nat := length (filter is_tick events).

Section OnePoll.
Variable maxAttempts : nat.
Variable timeoutMessage : string.
Variable job : string.

(** Session 0 is polling: [a] ticks so far, all of them polled. *)
Definition polling (a i : nat) : Service :=
  {| pollingSubscription := Some 0%nat;
     sessions :=
       [ {| ss_postPending := false; ss_jobId := Some job; ss_attempts := a;
            ss_timer := true; ss_inflight := i; ss_polls := a;
            ss_emitted := []; ss_completed := false |} ] |}.

(** Session 0 has given up. *)
Definition timed_out (i : nat) : Service :=
  {| pollingSubscription := None;
     sessions :=
       [ {| ss_postPending := false; ss_jobId := Some job;
            ss_attempts := S maxAttempts;
            ss_timer := false; ss_inflight := i; ss_polls := maxAttempts;
            ss_emitted := [createEmptyResult timeoutMessage];
            ss_completed := true |} ] |}.

Lemma poll_starts :
  job <> EmptyString ->
  run maxAttempts timeoutMessage newService
      [CallGetSuggestions; PostReturns 0 (started job)] = polling 0 0.
Proof.
  intros Hjob.
  assert (Htruthy : truthy (Some job) = true) by (apply truthy_spec; now exists job).
  unfold run. cbn [fold_left step getSuggestions cancelPolling newService
    pollingSubscription sessions app].
  change ([newSession] !! 0%nat) with (Some newSession).
  cbn [newSession ss_postPending]. unfold postNext.
  cbn [status jobId started]. rewrite Htruthy. reflexivity.
Qed.

Lemma quiet_step_timed_out (i : nat) (e : Event) :
  quiet e = true ->
  exists i', step maxAttempts timeoutMessage (timed_out i) e = timed_out i'.
Proof.
  destruct e as [| k r | k err | k | k r | k err]; try discriminate;
    destruct k as [|k]; try discriminate; cbn.
  - intros _. now exists i.
  - destruct (status r) eqn:E; try discriminate. intros _.
    unfold pollNext. destruct i as [|i]; cbn; rewrite ?E; eexists; reflexivity.
Qed.

Lemma quiet_run_timed_out (events : list Event) (i : nat) :
  forallb quiet events = true ->
  exists i', run maxAttempts timeoutMessage (timed_out i) events = timed_out i'.
Proof.
  revert i. induction events as [|e events IH]; intros i H; [now exists i |].
  cbn in H. apply andb_true_iff in H as [He H].
  destruct (quiet_step_timed_out i e He) as [i' E].
  cbn [run fold_left]. rewrite E. now apply IH.
Qed.

Lemma tick_while_polling (a i : nat) :
  (a <= maxAttempts)%nat ->
  step maxAttempts timeoutMessage (polling a i) (IntervalTick 0) =
  if (maxAttempts <=? a)%nat then timed_out i else polling (S a) (S i).
Proof.
  intros Ha. cbn. unfold tick. cbn.
  destruct (Nat.leb_spec maxAttempts a) as [Hle | Hlt]; [|reflexivity].
  assert (a = maxAttempts) as -> by lia. reflexivity.
Qed.

Lemma response_while_polling (a i : nat) (response : JobResponse) :
  status response = Processing ->
  step maxAttempts timeoutMessage (polling a i) (PollReturns 0 response) =
  polling a (pred i).
Proof.
  intros E. cbn. unfold pollNext. destruct i as [|i]; cbn; rewrite ?E; reflexivity.
Qed.

(** Where a quiet run leaves the poller, by the number of ticks. *)
Lemma quiet_run_polling (events : list Event) (a i : nat) :
  (a <= maxAttempts)%nat ->
  forallb quiet events = true ->
  ((a + ticks events <= maxAttempts)%nat /\
   exists i', run maxAttempts timeoutMessage (polling a i) events =
              polling (a + ticks events) i') \/
  ((maxAttempts < a + ticks events)%nat /\
   exists i', run maxAttempts timeoutMessage (polling a i) events = timed_out i').
Proof.
  revert a i. induction events as [|e events IH]; intros a i Ha H.
  - left. unfold ticks. cbn. rewrite Nat.add_0_r. split; [exact Ha | now exists i].
  - cbn in H. apply andb_true_iff in H as [He H].
    destruct e as [| k r | k err | k | k r | k err]; try discriminate;
      destruct k as [|k]; try discriminate.
    + cbn [run fold_left]. rewrite (tick_while_polling a i Ha).
      change (ticks (IntervalTick 0 :: events)) with (S (ticks events)).
      destruct (Nat.leb_spec maxAttempts a) as [Hle | Hlt].
      * right. split; [lia |]. now apply quiet_run_timed_out.
      * destruct (IH (S a) (S i) Hlt H) as [[Hn Hrun] | [Hn Hrun]].
        -- left. split; [lia |]. now rewrite Nat.add_succ_r.
        -- right. split; [lia | exact Hrun].
    + cbn in He. destruct (status r) eqn:E; try discriminate.
      cbn [run fold_left]. rewrite (response_while_polling a i r E).
      change (ticks (PollReturns 0 r :: events)) with (ticks events).
      now apply IH.
Qed.
End OnePoll.

(** C5: for every bound [maxAttempts], a poll whose requests only ever
    come back with [status: 'processing'] issues one request per tick up
    to [maxAttempts] requests and never more; the tick after that sends no
    request, cancels the interval, delivers exactly one value, the
    client-made timeout result, and completes the Subject; nothing happens
    afterwards.  The timeout result is built from the fixed timeout text
    with no server reply involved, and differs from the result relayed for
    any error text other than that one. *)
Theorem quiet_poll_times_out (maxAttempts : nat) (timeoutMessage job : string)
    (events : list Event) :
  job <> EmptyString ->
  forallb quiet events = true ->
  let svc :=
    run maxAttempts timeoutMessage
        (run maxAttempts timeoutMessage newService
             [CallGetSuggestions; PostReturns 0 (started job)])
        events in
  exists s,
    sessions svc = [s] /\
    (ss_polls s <= maxAttempts)%nat /\
    ss_polls s = Nat.min maxAttempts (ticks events) /\
    ((ticks events <= maxAttempts)%nat ->
       ss_emitted s = [] /\ ss_completed s = false /\ ss_timer s = true) /\
    ((maxAttempts < ticks events)%nat ->
       ss_emitted s = [createEmptyResult timeoutMessage] /\
       ss_completed s = true /\ ss_timer s = false /\
       pollingSubscription svc = None) /\
    (forall text, text <> timeoutMessage ->
       createEmptyResult text <> createEmptyResult timeoutMessage).
Proof.
  intros Hjob Hquiet svc. subst svc. rewrite (poll_starts _ _ _ Hjob).
  destruct (quiet_run_polling maxAttempts timeoutMessage job events 0 0
              (Nat.le_0_l _) Hquiet) as [[Hn [i' ->]] | [Hn [i' ->]]];
    cbn [Nat.add] in Hn; eexists; (split; [reflexivity |]);
    cbn [ss_polls ss_emitted ss_completed ss_timer pollingSubscription polling timed_out
           sessions Nat.add].
  - repeat split; try lia. intros text Hne H. injection H as H. contradiction.
  - repeat split; try lia. intros text Hne H. injection H as H. contradiction.
Qed.

(** With [maxAttempts = 3]: three ticks poll, the fourth times out instead
    of polling, and a later tick finds the interval cancelled. *)
Lemma quiet_poll_times_out_witness :
  let events :=
    [ IntervalTick 0; PollReturns 0 (started "job_1"); IntervalTick 0;
      IntervalTick 0; PollReturns 0 (started "job_1"); IntervalTick 0;
      IntervalTick 0 ] in
  let svc :=
    run 3 campaign_timeoutMessage
        (run 3 campaign_timeoutMessage newService
             [CallGetSuggestions; PostReturns 0 (started "job_1")])
        events in
  exists s,
    sessions svc = [s] /\
    (ss_polls s <= 3)%nat /\
    ss_polls s = Nat.min 3 (ticks events) /\
    ((ticks events <= 3)%nat ->
       ss_emitted s = [] /\ ss_completed s = false /\ ss_timer s = true) /\
    ((3 < ticks events)%nat ->
       ss_emitted s = [createEmptyResult campaign_timeoutMessage] /\
       ss_completed s = true /\ ss_timer s = false /\
       pollingSubscription svc = None) /\
    (forall text, text <> campaign_timeoutMessage ->
       createEmptyResult text <> createEmptyResult campaign_timeoutMessage).
Proof.
  apply (quiet_poll_times_out 3 campaign_timeoutMessage "job_1").
  - discriminate.
  - reflexivity.
Defined.

(** *** What one event can do to one session *)

Definition unsubscribe_if (b : bool) (s : Session) : Session :=
  if b then unsubscribe s else s.

(** The ways a session changes when the service handles one event; each
    handler runs only under its guard. *)
Inductive session_move : Session -> Session -> Prop :=
| move_stay s : session_move s s
| move_unsubscribe s : session_move s (unsubscribe s)
| move_start s job :
    ss_postPending s = true -> session_move s (armed job (postDone s))
| move_refuse s v :
    ss_postPending s = true -> session_move s (complete (next v (postDone s)))
| move_poll s :
    ss_timer s = true -> session_move s (requested (counted s))
| move_timeout s v b :
    ss_timer s = true ->
    session_move s (complete (next v (unsubscribe_if b (counted s))))
| move_answer s :
    (0 < ss_inflight s)%nat -> session_move s (answered s)
| move_settle s v b :
    (0 < ss_inflight s)%nat ->
    session_move s (complete (next v (unsubscribe_if b (answered s)))).

Lemma alter_lookup (f : Session -> Session) (i j : nat) (l : list Session) (s : Session) :
  l !! j = Some s -> alter f i l !! j = Some (if decide (i = j) then f s else s).
Proof.
  intros H. rewrite list_lookup_alter. destruct (decide (i = j)) as [-> | Hne].
  - now rewrite H.
  - exact H.
Qed.

Lemma on_session_lookup (k : nat) (f : Session -> Session) (svc : Service) (j : nat)
    (s : Session) :
  sessions svc !! j = Some s ->
  sessions (on_session k f svc) !! j = Some (if decide (k = j) then f s else s).
Proof. apply alter_lookup. Qed.

Lemma cancelPolling_lookup (svc : Service) (j : nat) (s : Session) :
  sessions svc !! j = Some s ->
  sessions (cancelPolling svc) !! j =
  Some (unsubscribe_if (bool_decide (pollingSubscription svc = Some j)) s).
Proof.
  intros H. unfold cancelPolling. destruct (pollingSubscription svc) as [p|].
  - cbn [sessions]. rewrite (alter_lookup unsubscribe p j _ s H).
    destruct (decide (p = j)) as [-> | Hne].
    + now rewrite bool_decide_eq_true_2.
    + rewrite bool_decide_eq_false_2; [reflexivity | congruence].
  - rewrite bool_decide_eq_false_2; [exact H | discriminate].
Qed.

Lemma finish_lookup (k : nat) (v : AdSuggestionsData) (svc : Service) (j : nat)
    (s : Session) :
  sessions svc !! j = Some s ->
  sessions (finish k v svc) !! j = Some (if decide (k = j) then complete (next v s) else s).
Proof.
  intros H. unfold finish.
  rewrite (on_session_lookup k complete _ j _ (on_session_lookup k (next v) svc j s H)).
  now destruct (decide (k = j)).
Qed.

Lemma startPolling_lookup (k : nat) (job : string) (svc : Service) (j : nat) (s : Session) :
  sessions svc !! j = Some s ->
  sessions (startPolling k job svc) !! j = Some (if decide (k = j) then armed job s else s).
Proof. apply alter_lookup. Qed.

Lemma postNext_moves (k : nat) (response : JobResponse) (svc : Service) (sk : Session)
    (j : nat) (s : Session) :
  sessions svc !! k = Some sk -> ss_postPending sk = true ->
  sessions svc !! j = Some s ->
  exists s', sessions (postNext k response (on_session k postDone svc)) !! j = Some s' /\
             session_move s s'.
Proof.
  intros Hk Hp Hj. pose proof (on_session_lookup k postDone svc j s Hj) as H1.
  unfold postNext.
  destruct (status response), (truthy (jobId response));
    (eexists; split;
     [first [apply startPolling_lookup, H1 | apply finish_lookup, H1] |]);
    destruct (decide (k = j)) as [-> | Hne];
    try apply move_stay;
    assert (sk = s) as -> by congruence;
    first [now apply move_start | now apply move_refuse].
Qed.

Section Moves.
Variable maxAttempts : nat.
Variable timeoutMessage : string.

Lemma tick_moves (k : nat) (svc : Service) (sk : Session) (j : nat) (s : Session) :
  sessions svc !! k = Some sk -> ss_timer sk = true ->
  sessions svc !! j = Some s ->
  exists s', sessions (tick maxAttempts timeoutMessage k svc) !! j = Some s' /\
             session_move s s'.
Proof.
  intros Hk Ht Hj. unfold tick.
  pose proof (on_session_lookup k counted svc k sk Hk) as Hkk.
  destruct (decide (k = k)) as [_ | Hne]; [|congruence]. rewrite Hkk.
  pose proof (on_session_lookup k counted svc j s Hj) as H1.
  destruct (maxAttempts <? ss_attempts (counted sk))%nat.
  - eexists. split; [apply finish_lookup, cancelPolling_lookup, H1 |].
    destruct (decide (k = j)) as [-> | Hne].
    + assert (sk = s) as -> by congruence. now apply move_timeout.
    + destruct (bool_decide _); [apply move_unsubscribe | apply move_stay].
  - eexists. split; [apply on_session_lookup, H1 |].
    destruct (decide (k = j)) as [-> | Hne]; [|apply move_stay].
    assert (sk = s) as -> by congruence. now apply move_poll.
Qed.

Lemma settle_moves (k : nat) (v : AdSuggestionsData) (svc : Service) (sk : Session)
    (j : nat) (s : Session) :
  sessions svc !! k = Some sk -> (0 < ss_inflight sk)%nat ->
  sessions svc !! j = Some s ->
  exists s', sessions (finish k v (cancelPolling (on_session k answered svc))) !! j = Some s' /\
             session_move s s'.
Proof.
  intros Hk Hi Hj. pose proof (on_session_lookup k answered svc j s Hj) as H1.
  eexists. split; [apply finish_lookup, cancelPolling_lookup, H1 |].
  destruct (decide (k = j)) as [-> | Hne].
  - assert (sk = s) as -> by congruence. now apply move_settle.
  - destruct (bool_decide _); [apply move_unsubscribe | apply move_stay].
Qed.

(** Every session survives an event, changed by one move. *)
Lemma step_moves (svc : Service) (e : Event) (j : nat) (s : Session) :
  sessions svc !! j = Some s ->
  exists s', sessions (step maxAttempts timeoutMessage svc e) !! j = Some s' /\
             session_move s s'.
Proof.
  intros Hj.
  assert (Hstay : exists s', sessions svc !! j = Some s' /\ session_move s s')
    by (exists s; split; [exact Hj | apply move_stay]).
  destruct e as [| k r | k err | k | k r | k err]; cbn [step].
  - unfold getSuggestions. cbn [sessions]. eexists.
    split; [apply lookup_app_l_Some, cancelPolling_lookup, Hj |].
    destruct (bool_decide _); [apply move_unsubscribe | apply move_stay].
  - destruct (sessions svc !! k) as [sk|] eqn:Hk; [|exact Hstay].
    destruct (ss_postPending sk) eqn:Hp; [|exact Hstay].
    now apply (postNext_moves k r svc sk).
  - destruct (sessions svc !! k) as [sk|] eqn:Hk; [|exact Hstay].
    destruct (ss_postPending sk) eqn:Hp; [|exact Hstay].
    now apply (postNext_moves k (postCaught err) svc sk).
  - destruct (sessions svc !! k) as [sk|] eqn:Hk; [|exact Hstay].
    destruct (ss_timer sk) eqn:Ht; [|exact Hstay].
    now apply (tick_moves k svc sk).
  - destruct (sessions svc !! k) as [sk|] eqn:Hk; [|exact Hstay].
    destruct (0 <? ss_inflight sk)%nat eqn:Hi; [|exact Hstay].
    apply Nat.ltb_lt in Hi. unfold pollNext.
    destruct (status r).
    + eexists. split; [apply on_session_lookup, Hj |].
      destruct (decide (k = j)) as [-> | Hne]; [|apply move_stay].
      assert (sk = s) as -> by congruence. now apply move_answer.
    + destruct (result r); now apply (settle_moves k _ svc sk).
    + now apply (settle_moves k _ svc sk).
  - destruct (sessions svc !! k) as [sk|] eqn:Hk; [|exact Hstay].
    destruct (0 <? ss_inflight sk)%nat eqn:Hi; [|exact Hstay].
    apply Nat.ltb_lt in Hi. unfold pollError. now apply (settle_moves k _ svc sk).
Qed.

(** A session that appears with an event is a brand new one. *)
Lemma step_new_session (svc : Service) (e : Event) (j : nat) (s' : Session) :
  sessions svc !! j = None ->
  sessions (step maxAttempts timeoutMessage svc e) !! j = Some s' ->
  s' = newSession.
Proof.
  intros Hnone Hsome.
  assert (Hlen : forall svc', length (sessions svc') = length (sessions svc) ->
                 sessions svc' !! j = Some s' -> False).
  { intros svc' Hl H. apply lookup_ge_None in Hnone. apply lookup_lt_Some in H. lia. }
  assert (Hcancel : forall x, length (sessions (cancelPolling x)) = length (sessions x)).
  { intros x. unfold cancelPolling. destruct (pollingSubscription x); [|reflexivity].
    cbn [sessions]. apply length_alter. }
  assert (Hfinish : forall k v x, length (sessions (finish k v x)) = length (sessions x)).
  { intros k v x. unfold finish, on_session. cbn [sessions]. now rewrite !length_alter. }
  assert (Hon : forall k f x, length (sessions (on_session k f x)) = length (sessions x)).
  { intros k f x. unfold on_session. cbn [sessions]. apply length_alter. }
  assert (Hpost : forall k r x, length (sessions (postNext k r x)) = length (sessions x)).
  { intros k r x. unfold postNext, startPolling.
    destruct (status r), (truthy (jobId r)); rewrite ?Hfinish; cbn [sessions];
      rewrite ?length_alter; reflexivity. }
  destruct e as [| k r | k err | k | k r | k err]; cbn [step] in Hsome.
  - unfold getSuggestions in Hsome. cbn [sessions] in Hsome.
    apply lookup_snoc_Some in Hsome as [[Hlt _] | [_ Heq]]; [|now symmetry].
    rewrite Hcancel in Hlt. apply lookup_ge_None in Hnone. lia.
  - exfalso. destruct (sessions svc !! k) as [sk|]; [|congruence].
    destruct (ss_postPending sk); [|congruence].
    apply (Hlen _ (eq_trans (Hpost _ _ _) (Hon _ _ _)) Hsome).
  - exfalso. destruct (sessions svc !! k) as [sk|]; [|congruence].
    destruct (ss_postPending sk); [|congruence].
    apply (Hlen _ (eq_trans (Hpost _ _ _) (Hon _ _ _)) Hsome).
  - exfalso. destruct (sessions svc !! k) as [sk|]; [|congruence].
    destruct (ss_timer sk); [|congruence]. unfold tick in Hsome.
    destruct (sessions (on_session k counted svc) !! k) as [s1|]; [|congruence].
    destruct (maxAttempts <? ss_attempts s1)%nat.
    + apply (Hlen _ (eq_trans (Hfinish _ _ _) (eq_trans (Hcancel _) (Hon _ _ _))) Hsome).
    + apply (Hlen _ (eq_trans (Hon _ _ _) (Hon _ _ _)) Hsome).
  - exfalso. destruct (sessions svc !! k) as [sk|]; [|congruence].
    destruct (0 <? ss_inflight sk)%nat; [|congruence]. unfold pollNext in Hsome.
    destruct (status r); [apply (Hlen _ (Hon _ _ _) Hsome) | |].
    + destruct (result r);
        apply (Hlen _ (eq_trans (Hfinish _ _ _) (eq_trans (Hcancel _) (Hon _ _ _))) Hsome).
    + apply (Hlen _ (eq_trans (Hfinish _ _ _) (eq_trans (Hcancel _) (Hon _ _ _))) Hsome).
  - exfalso. destruct (sessions svc !! k) as [sk|]; [|congruence].
    destruct (0 <? ss_inflight sk)%nat; [|congruence]. unfold pollError in Hsome.
    apply (Hlen _ (eq_trans (Hfinish _ _ _) (eq_trans (Hcancel _) (Hon _ _ _))) Hsome).
Qed.
End Moves.

(** *** What holds of every session the service can reach *)

(** While the POST is pending nothing else has started; an open Subject has
    delivered nothing; no Subject delivers more than one value. *)
Definition sound (s : Session) : Prop :=
  (ss_postPending s = true ->
     ss_timer s = false /\ ss_inflight s = 0%nat /\ ss_completed s = false) /\
  (ss_completed s = false -> ss_emitted s = []) /\
  (length (ss_emitted s) <= 1)%nat.

(** Splits a [sound] goal into its clauses and closes those that follow
    from the fields at hand. *)
Ltac sound_clauses :=
  repeat split; cbn in *; intros; try congruence; try tauto; try lia.

Lemma sound_newSession : sound newSession.
Proof. sound_clauses. Qed.

Lemma sound_unsubscribe_if (b : bool) (s : Session) : sound s -> sound (unsubscribe_if b s).
Proof. destruct b; [|trivial]. intros [H1 [H2 H3]]. sound_clauses. Qed.

(** [next] then [complete] on a session that is otherwise sound. *)
Lemma sound_settled (v : AdSuggestionsData) (s : Session) :
  ss_postPending s = false -> sound s -> sound (complete (next v s)).
Proof.
  intros Hp [_ [H2 H3]]. unfold next. destruct (ss_completed s) eqn:E.
  - sound_clauses.
  - sound_clauses. rewrite (H2 eq_refl). cbn. lia.
Qed.

Lemma pending_is_idle (s : Session) :
  sound s -> ss_timer s = true \/ (0 < ss_inflight s)%nat -> ss_postPending s = false.
Proof.
  intros [H1 _] H. destruct (ss_postPending s); [|reflexivity].
  destruct (H1 eq_refl) as [Ht [Hi _]]. destruct H; [congruence | lia].
Qed.

Lemma move_sound (s s' : Session) : session_move s s' -> sound s -> sound s'.
Proof.
  intros Hmove Hs. pose proof Hs as [H1 [H2 H3]].
  destruct Hmove as [s | s | s job Hp | s v Hp | s Ht | s v b Ht | s Hi | s v b Hi].
  - exact Hs.
  - now apply (sound_unsubscribe_if true).
  - sound_clauses.
  - apply sound_settled; [reflexivity |]. sound_clauses.
  - pose proof (pending_is_idle s Hs (or_introl Ht)) as Hp. sound_clauses.
  - pose proof (pending_is_idle s Hs (or_introl Ht)) as Hp.
    apply sound_settled; [now destruct b |]. apply sound_unsubscribe_if. sound_clauses.
  - pose proof (pending_is_idle s Hs (or_intror Hi)) as Hp. sound_clauses.
  - pose proof (pending_is_idle s Hs (or_intror Hi)) as Hp.
    apply sound_settled; [now destruct b |]. apply sound_unsubscribe_if. sound_clauses.
Qed.

(** Once [s] is completed, [s'] is completed too and has delivered the
    same values. *)
Definition frozen (s s' : Session) : Prop :=
  ss_completed s = true ->
  ss_completed s' = true /\ ss_emitted s' = ss_emitted s.

Lemma move_frozen (s s' : Session) : session_move s s' -> frozen s s'.
Proof.
  intros Hmove Hc.
  destruct Hmove as [s | s | s job Hp | s v Hp | s Ht | s v b Ht | s Hi | s v b Hi];
    try destruct b; unfold next; cbn; rewrite ?Hc; cbn; now split.
Qed.

(** Once the timer of [s] is off and its POST has been answered, nothing
    polls for it again. *)
Definition stopped (s s' : Session) : Prop :=
  ss_timer s = false -> ss_postPending s = false ->
  ss_timer s' = false /\ ss_postPending s' = false /\
  ss_polls s' = ss_polls s /\ ss_attempts s' = ss_attempts s.

Lemma move_stopped (s s' : Session) : session_move s s' -> stopped s s'.
Proof.
  intros Hmove Ht Hp.
  destruct Hmove as [s | s | s job Hp' | s v Hp' | s Ht' | s v b Ht' | s Hi | s v b Hi];
    try congruence; try destruct b; unfold next; cbn;
    try destruct (ss_completed s); cbn; now repeat split.
Qed.

Section Runs.
Variable maxAttempts : nat.
Variable timeoutMessage : string.

(** A relation on sessions that is reflexive and absorbs one more move
    holds between a session and what any run makes of it. *)
Lemma run_carries (R : Session -> Session -> Prop) :
  (forall s, R s s) ->
  (forall a b c, R a b -> session_move b c -> R a c) ->
  forall events svc j s,
    sessions svc !! j = Some s ->
    exists s', sessions (run maxAttempts timeoutMessage svc events) !! j = Some s' /\ R s s'.
Proof.
  intros Hrefl Hext events. induction events as [|e events IH] using rev_ind;
    intros svc j s Hj.
  - exists s. split; [exact Hj | apply Hrefl].
  - destruct (IH svc j s Hj) as [s1 [H1 R1]].
    destruct (step_moves maxAttempts timeoutMessage _ e j s1 H1) as [s2 [H2 M2]].
    exists s2. unfold run in *. rewrite fold_left_app. cbn [fold_left].
    split; [exact H2 | now apply (Hext s s1 s2)].
Qed.

Lemma run_frozen (events : list Event) (svc : Service) (j : nat) (s : Session) :
  sessions svc !! j = Some s ->
  exists s', sessions (run maxAttempts timeoutMessage svc events) !! j = Some s' /\
             frozen s s'.
Proof.
  apply (run_carries frozen).
  - intros x Hx. now split.
  - intros a b c Hab Hbc Ha. destruct (Hab Ha) as [Hb Eb].
    destruct (move_frozen b c Hbc Hb) as [Hc Ec]. split; [exact Hc | congruence].
Qed.

Lemma run_stopped (events : list Event) (svc : Service) (j : nat) (s : Session) :
  sessions svc !! j = Some s ->
  exists s', sessions (run maxAttempts timeoutMessage svc events) !! j = Some s' /\
             stopped s s'.
Proof.
  apply (run_carries stopped).
  - intros x Ht Hp. now repeat split.
  - intros a b c Hab Hbc Ht Hp. destruct (Hab Ht Hp) as [Ht' [Hp' [E1 E2]]].
    destruct (move_stopped b c Hbc Ht' Hp') as [Ht'' [Hp'' [E1' E2']]].
    repeat split; congruence.
Qed.

Lemma step_sound (svc : Service) (e : Event) :
  (forall j s, sessions svc !! j = Some s -> sound s) ->
  forall j s, sessions (step maxAttempts timeoutMessage svc e) !! j = Some s -> sound s.
Proof.
  intros Hall j s' Hj. destruct (sessions svc !! j) as [s|] eqn:E.
  - destruct (step_moves maxAttempts timeoutMessage svc e j s E) as [s2 [H2 M2]].
    assert (s2 = s') as -> by congruence.
    apply (move_sound s s' M2), (Hall j s E).
  - rewrite (step_new_session maxAttempts timeoutMessage svc e j s' E Hj).
    apply sound_newSession.
Qed.

(** Every session of every reachable state is sound. *)
Lemma reachable_sound (events : list Event) (j : nat) (s : Session) :
  sessions (run maxAttempts timeoutMessage newService events) !! j = Some s -> sound s.
Proof.
  revert j s. induction events as [|e events IH] using rev_ind; intros j s.
  - cbn. intros H. rewrite lookup_nil in H. discriminate.
  - unfold run in *. rewrite fold_left_app. cbn [fold_left]. now apply step_sound.
Qed.
(** The subscription kept in [pollingSubscription] is a live interval that
    feeds an open Subject. *)
Definition holds_interval (svc : Service) : Prop :=
  forall k, pollingSubscription svc = Some k ->
  exists s, sessions svc !! k = Some s /\ ss_timer s = true /\ ss_completed s = false.

Lemma pollingSubscription_cancelPolling (svc : Service) :
  pollingSubscription (cancelPolling svc) = None.
Proof. unfold cancelPolling. now destruct (pollingSubscription svc) eqn:E. Qed.

(** A change that leaves the timer and the Subject alone. *)
Definition keeps_interval (f : Session -> Session) : Prop :=
  forall s, ss_timer (f s) = ss_timer s /\ ss_completed (f s) = ss_completed s.

Lemma on_session_holds_interval (k : nat) (f : Session -> Session) (svc : Service) :
  keeps_interval f \/ pollingSubscription svc <> Some k ->
  holds_interval svc -> holds_interval (on_session k f svc).
Proof.
  intros Hf Hinv j Hj. cbn [on_session pollingSubscription] in Hj.
  destruct (Hinv j Hj) as [s [Hs [Ht Hc]]].
  rewrite (on_session_lookup k f svc j s Hs).
  destruct (decide (k = j)) as [-> | Hne]; [|now exists s].
  destruct Hf as [Hf | Hf]; [|congruence].
  exists (f s). destruct (Hf s) as [E1 E2]. split; [reflexivity |]. split; congruence.
Qed.

Lemma finish_holds_interval (k : nat) (v : AdSuggestionsData) (svc : Service) :
  pollingSubscription svc <> Some k ->
  holds_interval svc -> holds_interval (finish k v svc).
Proof.
  intros Hk Hinv. unfold finish.
  apply on_session_holds_interval; [now right |].
  apply on_session_holds_interval; [now right | exact Hinv].
Qed.

Lemma no_interval_holds (svc : Service) :
  pollingSubscription svc = None -> holds_interval svc.
Proof. intros H k Hk. congruence. Qed.

Lemma finish_after_cancel_holds_interval (k : nat) (v : AdSuggestionsData) (svc : Service) :
  holds_interval (finish k v (cancelPolling svc)).
Proof.
  apply no_interval_holds. unfold finish, on_session. cbn [pollingSubscription].
  apply pollingSubscription_cancelPolling.
Qed.

Lemma postNext_holds_interval (k : nat) (response : JobResponse) (svc : Service)
    (sk : Session) :
  sessions svc !! k = Some sk -> ss_postPending sk = true -> sound sk ->
  holds_interval svc ->
  holds_interval (postNext k response (on_session k postDone svc)).
Proof.
  intros Hk Hp [Hs1 _] Hinv. destruct (Hs1 Hp) as [Ht [_ Hc]].
  assert (Hother : pollingSubscription svc <> Some k).
  { intros H. destruct (Hinv k H) as [s [Hs [Ht' _]]]. congruence. }
  assert (Hdone : holds_interval (on_session k postDone svc))
    by (apply on_session_holds_interval; [now right | exact Hinv]).
  assert (Hstart : forall job, holds_interval (startPolling k job (on_session k postDone svc))).
  { intros job j Hj. cbn [startPolling pollingSubscription] in Hj. injection Hj as <-.
    rewrite (startPolling_lookup k job _ k _ (on_session_lookup k postDone svc k sk Hk)).
    destruct (decide (k = k)) as [_ | Hne]; [|congruence].
    eexists. split; [reflexivity |]. split; [reflexivity | exact Hc]. }
  unfold postNext.
  destruct (status response), (truthy (jobId response));
    first [apply Hstart | now apply finish_holds_interval].
Qed.

Lemma step_holds_interval (svc : Service) (e : Event) :
  (forall j s, sessions svc !! j = Some s -> sound s) ->
  holds_interval svc ->
  holds_interval (step maxAttempts timeoutMessage svc e).
Proof.
  intros Hsound Hinv.
  destruct e as [| k r | k err | k | k r | k err]; cbn [step].
  - apply no_interval_holds. unfold getSuggestions. cbn [pollingSubscription].
    apply pollingSubscription_cancelPolling.
  - destruct (sessions svc !! k) as [sk|] eqn:Hk; [|exact Hinv].
    destruct (ss_postPending sk) eqn:Hp; [|exact Hinv].
    apply (postNext_holds_interval k r svc sk Hk Hp (Hsound k sk Hk) Hinv).
  - destruct (sessions svc !! k) as [sk|] eqn:Hk; [|exact Hinv].
    destruct (ss_postPending sk) eqn:Hp; [|exact Hinv].
    apply (postNext_holds_interval k _ svc sk Hk Hp (Hsound k sk Hk) Hinv).
  - destruct (sessions svc !! k) as [sk|] eqn:Hk; [|exact Hinv].
    destruct (ss_timer sk) eqn:Ht; [|exact Hinv]. unfold tick.
    destruct (sessions (on_session k counted svc) !! k) as [s1|]; [|exact Hinv].
    destruct (maxAttempts <? ss_attempts s1)%nat.
    + apply finish_after_cancel_holds_interval.
    + apply on_session_holds_interval; [left; intros s; now split |].
      apply on_session_holds_interval; [left; intros s; now split | exact Hinv].
  - destruct (sessions svc !! k) as [sk|] eqn:Hk; [|exact Hinv].
    destruct (0 <? ss_inflight sk)%nat; [|exact Hinv]. unfold pollNext.
    destruct (status r).
    + apply on_session_holds_interval; [left; intros s; now split | exact Hinv].
    + destruct (result r); apply finish_after_cancel_holds_interval.
    + apply finish_after_cancel_holds_interval.
  - destruct (sessions svc !! k) as [sk|] eqn:Hk; [|exact Hinv].
    destruct (0 <? ss_inflight sk)%nat; [|exact Hinv].
    apply finish_after_cancel_holds_interval.
Qed.

(** In every reachable state at most the interval in [pollingSubscription]
    is accounted for, and it is live. *)
Lemma reachable_holds_interval (events : list Event) :
  holds_interval (run maxAttempts timeoutMessage newService events).
Proof.
  induction events as [|e events IH] using rev_ind.
  - now apply no_interval_holds.
  - unfold run in *. rewrite fold_left_app. cbn [fold_left].
    apply step_holds_interval; [|exact IH].
    intros j s. apply reachable_sound.
Qed.
End Runs.

(** *** A poll request that fails *)

(** X27: in any state the service can reach, when a poll request of the
    session that holds the interval fails at the HTTP level, the handler
    cancels the interval and delivers the error result built from the
    failure's message, the only value this caller ever receives, and
    completes the Subject; whatever happens afterwards, the caller receives
    nothing more, the timer stays off and no further request is sent for
    the job. *)
Theorem poll_failure_ends_polling (maxAttempts : nat) (timeoutMessage : string)
    (earlier : list Event) (k : nat) (s : Session) (err : HttpError) :
  let svc := run maxAttempts timeoutMessage newService earlier in
  sessions svc !! k = Some s ->
  pollingSubscription svc = Some k ->
  (0 < ss_inflight s)%nat ->
  let svc' := step maxAttempts timeoutMessage svc (PollFails k err) in
  pollingSubscription svc' = None /\
  forall later,
    exists s', sessions (run maxAttempts timeoutMessage svc' later) !! k = Some s' /\
               ss_emitted s' = [createEmptyResult (pollErrorMessage err)] /\
               ss_completed s' = true /\
               ss_timer s' = false /\
               ss_polls s' = ss_polls s.
Proof.
  intros svc Hs Hsub Hflight svc'.
  assert (Hopen : ss_completed s = false).
  { destruct (reachable_holds_interval maxAttempts timeoutMessage earlier k Hsub)
      as [s0 [Hs0 [_ Hc]]].
    fold svc in Hs0. congruence. }
  pose proof (reachable_sound maxAttempts timeoutMessage earlier k s Hs) as Hsound.
  pose proof (pending_is_idle s Hsound (or_intror Hflight)) as Hpending.
  destruct Hsound as [_ [Hs2 _]]. specialize (Hs2 Hopen).
  assert (Hstep : svc' =
            finish k (createEmptyResult (pollErrorMessage err))
                   (cancelPolling (on_session k answered svc))).
  { subst svc'. cbn [step]. rewrite Hs. apply Nat.ltb_lt in Hflight. now rewrite Hflight. }
  pose proof (finish_lookup k (createEmptyResult (pollErrorMessage err)) _ k _
                (cancelPolling_lookup _ k _ (on_session_lookup k answered svc k s Hs)))
    as Hk.
  rewrite <- Hstep in Hk. cbn [on_session pollingSubscription] in Hk.
  rewrite Hsub, bool_decide_eq_true_2 in Hk by reflexivity.
  destruct (decide (k = k)) as [_ | Hne]; [|congruence].
  unfold next in Hk. cbn [unsubscribe_if unsubscribe answered ss_completed] in Hk.
  rewrite Hopen in Hk.
  cbn [complete unsubscribe answered ss_postPending ss_jobId ss_attempts ss_timer
         ss_inflight ss_polls ss_emitted ss_completed] in Hk.
  rewrite Hs2 in Hk. cbn [app] in Hk.
  split.
  - rewrite Hstep. unfold finish, cancelPolling, on_session.
    cbn [pollingSubscription]. now rewrite Hsub.
  - intros later.
    destruct (run_frozen maxAttempts timeoutMessage later svc' k _ Hk) as [s1 [H1 F1]].
    destruct (run_stopped maxAttempts timeoutMessage later svc' k _ Hk) as [s2 [H2 F2]].
    assert (s2 = s1) as -> by congruence.
    destruct (F1 eq_refl) as [Hc He]. destruct (F2 eq_refl Hpending) as [Ht [_ [Hpolls _]]].
    exists s1. split; [exact H1 |]. split; [exact He |]. split; [exact Hc |].
    split; [exact Ht | exact Hpolls].
Qed.

(** An HTTP error object with only a message. *)
Definition gateway_timeout : HttpError :=
  {| err_body_error := None; err_message := Some "Http failure response: 504" |}.

(** Three polls of a running job; the third request is still on the wire. *)
Definition three_polls : list Event :=
  [ CallGetSuggestions; PostReturns 0 (started "job_1");
    IntervalTick 0; PollReturns 0 (started "job_1");
    IntervalTick 0; PollReturns 0 (started "job_1");
    IntervalTick 0 ].

(** The third poll request of a running poll fails. *)
Lemma poll_failure_ends_polling_witness :
  let svc := run dashboard_maxAttempts dashboard_timeoutMessage newService three_polls in
  let svc' := step dashboard_maxAttempts dashboard_timeoutMessage svc
                   (PollFails 0 gateway_timeout) in
  pollingSubscription svc' = None /\
  forall later,
    exists s', sessions (run dashboard_maxAttempts dashboard_timeoutMessage svc' later)
                 !! 0%nat = Some s' /\
               ss_emitted s' = [createEmptyResult "Http failure response: 504"] /\
               ss_completed s' = true /\
               ss_timer s' = false /\
               ss_polls s' = 3%nat.
Proof.
  refine (poll_failure_ends_polling dashboard_maxAttempts dashboard_timeoutMessage
            three_polls 0%nat
            {| ss_postPending := false; ss_jobId := Some "job_1";
               ss_attempts := 3; ss_timer := true; ss_inflight := 1;
               ss_polls := 3; ss_emitted := []; ss_completed := false |}
            gateway_timeout _ _ _).
  - reflexivity.
  - reflexivity.
  - cbn. lia.
Defined.

(** *** A second submission while a poll request is on the wire *)

(** X19: the part of single-flight that holds: once [getSuggestions] is
    called again, the interval of the poll that was running never fires
    again and no further request is sent for its job. *)
Lemma resubmission_stops_the_timer (maxAttempts : nat) (timeoutMessage : string)
    (earlier later : list Event) (k : nat) (s : Session) :
  let svc := run maxAttempts timeoutMessage newService earlier in
  sessions svc !! k = Some s ->
  pollingSubscription svc = Some k ->
  exists s',
    sessions (run maxAttempts timeoutMessage svc (CallGetSuggestions :: later)) !! k = Some s' /\
    ss_timer s' = false /\ ss_polls s' = ss_polls s /\ ss_attempts s' = ss_attempts s.
Proof.
  intros svc Hs Hsub.
  assert (Ht : ss_timer s = true).
  { destruct (reachable_holds_interval maxAttempts timeoutMessage earlier k Hsub)
      as [s0 [Hs0 [Ht0 _]]].
    fold svc in Hs0. congruence. }
  pose proof (reachable_sound maxAttempts timeoutMessage earlier k s Hs) as Hsound.
  pose proof (pending_is_idle s Hsound (or_introl Ht)) as Hpending.
  assert (Hk : sessions (getSuggestions svc) !! k = Some (unsubscribe s)).
  { unfold getSuggestions. cbn [sessions]. apply lookup_app_l_Some.
    rewrite (cancelPolling_lookup svc k s Hs), Hsub, bool_decide_eq_true_2 by reflexivity.
    reflexivity. }
  destruct (run_stopped maxAttempts timeoutMessage later _ k _ Hk) as [s' [H' F]].
  destruct (F eq_refl Hpending) as [Ht' [_ [Hp' Ha']]].
  exists s'. split; [exact H' |]. split; [exact Ht' |]. split; assumption.
Qed.


(** A finished analysis, as the server would return it. *)
Definition finished_analysis : AdSuggestionsData :=
  {| performanceSummary := "Spend is concentrated on two keywords.";
     keywordSuggestions := ["add: hoa violation letter"];
     negativeKeywordSuggestions := ["attorney"];
     adCopySuggestions := [];
     generalRecommendations := [];
     data_error := None |}.

Definition completed_with (r : AdSuggestionsData) : JobResponse :=
  {| status := Complete; jobId := None; result := Some r; error := None |}.

(** Job A is polled once; while that request is on the wire job B is
    submitted and starts polling; then A's request completes. *)
Definition overlapping_submissions : list Event :=
  [ CallGetSuggestions; PostReturns 0 (started "job_A"); IntervalTick 0;
    CallGetSuggestions; PostReturns 1 (started "job_B");
    PollReturns 0 (completed_with finished_analysis) ].

(** C6 at the failing trace: submitting B does stop A's timer, but the
    reply to A's outstanding request is still handled: A's subscriber
    receives a value after B's submission, and the same handler cancels
    B's interval, so B's subscriber is left with an open Subject that no
    timer feeds. *)
Theorem stale_reply_reaches_cancelled_poll :
  let before := run dashboard_maxAttempts dashboard_timeoutMessage newService
                    (firstn 5 overlapping_submissions) in
  let after := run dashboard_maxAttempts dashboard_timeoutMessage newService
                   overlapping_submissions in
  (exists a b, sessions before = [a; b] /\
     ss_timer a = false /\ ss_emitted a = [] /\ ss_inflight a = 1%nat /\
     ss_timer b = true /\ pollingSubscription before = Some 1%nat) /\
  (exists a b, sessions after = [a; b] /\
     ss_emitted a = [finished_analysis] /\
     ss_timer b = false /\ ss_emitted b = [] /\ ss_completed b = false /\
     pollingSubscription after = None).
Proof.
  cbv zeta. split; eexists; eexists; (split; [vm_compute; reflexivity |]);
    repeat split.
Qed.

(** *** A poll request that fails while the field holds another interval *)

(** The user asks twice before the first POST is answered; both POSTs
    return a job id, so the field holds B's interval while A's is live too;
    A's interval fires once, and the request it sends fails. *)
Definition failure_after_overlapping_posts : list Event :=
  [ CallGetSuggestions; CallGetSuggestions;
    PostReturns 0 (started "job_A"); PostReturns 1 (started "job_B");
    IntervalTick 0; PollFails 0 gateway_timeout ].

(** C10 at the failing trace: the error handler does deliver the one error
    result to A's caller and completes A's Subject, but the interval that
    [cancelPolling] stops is B's, the one in the field.  A's own interval
    stays live, and its next tick sends a second request for job A; B's
    caller is left with an open Subject that no timer feeds. *)
Theorem failed_poll_cancels_another_interval :
  let before := run dashboard_maxAttempts dashboard_timeoutMessage newService
                    (firstn 5 failure_after_overlapping_posts) in
  let after := run dashboard_maxAttempts dashboard_timeoutMessage newService
                   failure_after_overlapping_posts in
  let next_tick := run dashboard_maxAttempts dashboard_timeoutMessage newService
                       (failure_after_overlapping_posts ++ [IntervalTick 0]) in
  (exists a b, sessions before = [a; b] /\
     ss_timer a = true /\ ss_inflight a = 1%nat /\ ss_polls a = 1%nat /\
     ss_emitted a = [] /\
     ss_timer b = true /\ pollingSubscription before = Some 1%nat) /\
  (exists a b, sessions after = [a; b] /\
     ss_emitted a = [createEmptyResult "Http failure response: 504"] /\
     ss_completed a = true /\
     ss_timer a = true /\
     ss_timer b = false /\ ss_emitted b = [] /\ ss_completed b = false /\
     pollingSubscription after = None) /\
  (exists a b, sessions next_tick = [a; b] /\
     ss_timer a = true /\ ss_polls a = 2%nat /\ ss_inflight a = 1%nat).
Proof.
  cbv zeta. split; [|split]; eexists; eexists; (split; [vm_compute; reflexivity |]);
    repeat split.
Qed.

End PollerFacts.

(** * More on the classification engine

    What [analyzeSearchTermsForGaps] keeps, beyond the claims above: the
    shape of the two waste lists, the statistics, and how wrong-intent
    detection and negation behave when terms and sets grow. *)

Module EngineFacts.
Import Classification.

Lemma filter_length_perm {A : Type} (f : A -> bool) (l l' : list A) :
  Permutation l l' -> length (filter f l) = length (filter f l').
Proof.
  induction 1 as [| x l l' _ IH | x y l | l l' l'' _ IH1 _ IH2]; cbn.
  - reflexivity.
  - destruct (f x); cbn; now rewrite IH.
  - destruct (f x), (f y); reflexivity.
  - congruence.
Qed.

Lemma filter_filter_andb {A : Type} (f g : A -> bool) (l : list A) :
  filter f (filter g l) = filter (fun x => g x && f x) l.
Proof.
  induction l as [|x l IH]; [reflexivity |]. cbn.
  destruct (g x); cbn; [destruct (f x) |]; now rewrite IH.
Qed.

Lemma disjoint_filters_length {A : Type} (f g : A -> bool) (l : list A) :
  (forall x, f x = true -> g x = false) ->
  (length (filter f l) + length (filter g l) <= length l)%nat.
Proof.
  intros H. induction l as [|x l IH]; [reflexivity |]. cbn.
  destruct (f x) eqn:E.
  - rewrite (H x E). cbn. lia.
  - destruct (g x); cbn; lia.
Qed.

Lemma StronglySorted_map {A B : Type} (f : A -> B) (R : B -> B -> Prop) (l : list A) :
  StronglySorted (fun a b => R (f a) (f b)) l -> StronglySorted R (map f l).
Proof.
  induction 1 as [|x l Hl IH Hx]; cbn; constructor; [assumption |].
  apply List.Forall_forall. intros y Hy. apply in_map_iff in Hy as [a [<- Ha]].
  rewrite List.Forall_forall in Hx. now apply Hx.
Qed.

Lemma no_member_is_nil {A : Type} (l : list A) : (forall x, ~ In x l) -> l = [].
Proof. destruct l as [|x l]; [reflexivity |]. intros H. destruct (H x). now left. Qed.

(** A waste candidate that no negative keyword covers yet. *)
Definition is_fresh_waste (negatives : gset string) (st : SearchTermRow) : bool :=
  is_waste st && negb (isAlreadyNegated negatives (st_searchTerm st)).

(** A waste candidate that a negative keyword already covers. *)
Definition is_covered_waste (negatives : gset string) (st : SearchTermRow) : bool :=
  is_waste st && isAlreadyNegated negatives (st_searchTerm st).

Lemma fresh_waste_length (negatives : gset string) (rows : list SearchTermRow) :
  length (filter (fun wt => negb (wt_alreadyNegative wt)) (allWasteTermsOf negatives rows)) =
  length (filter (is_fresh_waste negatives) rows).
Proof.
  unfold allWasteTermsOf.
  rewrite (filter_length_perm _ _ _ (sort_perm by_spend_desc _)).
  now rewrite filter_map_swap, length_map, filter_filter_andb.
Qed.

Lemma covered_waste_length (negatives : gset string) (rows : list SearchTermRow) :
  length (filter (fun wt => wt_alreadyNegative wt) (allWasteTermsOf negatives rows)) =
  length (filter (is_covered_waste negatives) rows).
Proof.
  unfold allWasteTermsOf.
  rewrite (filter_length_perm _ _ _ (sort_perm by_spend_desc _)).
  now rewrite filter_map_swap, length_map, filter_filter_andb.
Qed.

(** [b] does not cost more than [a]. *)
Definition spend_descending (a b : WasteTerm) : Prop := (wt_spend b <= wt_spend a)%Q.

Definition wasted_descending (a b : CoveredWaste) : Prop :=
  (cw_wastedSpend b <= cw_wastedSpend a)%Q.

(** X1: [wasteTerms] is in descending order of spend; every entry is the
    copy of an input row that is a waste candidate not yet negated; and
    [confirmedWaste], its length, is the number of such rows capped at 15. *)
Theorem waste_terms_are_top_fresh_spenders (rows : list SearchTermRow)
    (keywordData : Fetched KeywordRow) (negatives : gset string) :
  let r := analyzeSearchTermsForGaps (Rows rows) keywordData negatives in
  StronglySorted spend_descending (wasteTerms r) /\
  confirmedWaste (analysis r) = length (wasteTerms r) /\
  length (wasteTerms r) = Nat.min 15 (length (filter (is_fresh_waste negatives) rows)) /\
  (forall w, In w (wasteTerms r) ->
     exists st, In st rows /\ waste_candidate st /\
                isAlreadyNegated negatives (st_searchTerm st) = false /\
                w = to_waste negatives st).
Proof.
  intros r. split; [|split; [reflexivity | split]].
  - subst r. cbn [analyzeSearchTermsForGaps wasteTerms].
    apply (slice0_sorted wt_spend), (filter_sorted wt_spend), allWasteTerms_sorted.
  - subst r. cbn [analyzeSearchTermsForGaps wasteTerms]. unfold slice0.
    now rewrite length_firstn, fresh_waste_length.
  - intros w Hw. apply wasteTerms_In in Hw as [st [Hin [Hwaste [-> Hneg]]]].
    exists st. split; [exact Hin |]. split; [now apply is_waste_spec |]. now split.
Qed.

(** X2: [alreadyCovered] is never truncated: [alreadyNegated], its length,
    is the number of input rows that are waste candidates covered by a
    negative keyword; the list is in descending order of wasted spend and
    every entry carries the note "already negated" and more than 2.00. *)
Theorem already_covered_is_never_truncated (rows : list SearchTermRow)
    (keywordData : Fetched KeywordRow) (negatives : gset string) :
  let r := analyzeSearchTermsForGaps (Rows rows) keywordData negatives in
  StronglySorted wasted_descending (alreadyCovered r) /\
  alreadyNegated (analysis r) = length (alreadyCovered r) /\
  length (alreadyCovered r) = length (filter (is_covered_waste negatives) rows) /\
  (forall c, In c (alreadyCovered r) ->
     cw_note c = "already negated" /\ (2 < cw_wastedSpend c)%Q).
Proof.
  intros r. split; [|split; [reflexivity | split]].
  - subst r. cbn [analyzeSearchTermsForGaps alreadyCovered].
    apply StronglySorted_map.
    apply (filter_sorted wt_spend), allWasteTerms_sorted.
  - subst r. cbn [analyzeSearchTermsForGaps alreadyCovered].
    now rewrite length_map, covered_waste_length.
  - intros c Hc. apply alreadyCovered_In in Hc as [st [_ [Hwaste [_ ->]]]].
    split; [reflexivity |]. apply is_waste_spec in Hwaste. apply Hwaste.
Qed.

Lemma opportunity_is_not_waste (existingKeywords : gset string) (st : SearchTermRow) :
  is_opportunity existingKeywords st = true -> is_waste st = false.
Proof.
  unfold is_opportunity, is_waste. cbv zeta. rewrite !andb_true_iff, negb_true_iff.
  intros [[_ H] _]. rewrite H. now rewrite andb_false_r.
Qed.

(** X3: the three buckets never count more rows than the input has:
    [confirmedGaps + confirmedWaste + alreadyNegated <= totalSearchTerms],
    with at most 20 gaps and at most 15 waste terms, for every input (all
    four are 0 when the input has no rows to read). *)
Theorem buckets_fit_in_the_input (searchTermData : Fetched SearchTermRow)
    (keywordData : Fetched KeywordRow) (negatives : gset string) :
  let a := analysis (analyzeSearchTermsForGaps searchTermData keywordData negatives) in
  (confirmedGaps a + confirmedWaste a + alreadyNegated a <= totalSearchTerms a)%nat /\
  (confirmedGaps a <= 20)%nat /\
  (confirmedWaste a <= 15)%nat /\
  totalSearchTerms a = length (usable_rows searchTermData).
Proof.
  destruct searchTermData as [| e | | rows]; try (cbn; repeat split; lia).
  cbv zeta.
  cbn [analyzeSearchTermsForGaps analysis confirmedGaps confirmedWaste alreadyNegated
         totalSearchTerms usable_rows].
  unfold slice0. rewrite !length_firstn, length_map, fresh_waste_length, covered_waste_length.
  rewrite (Permutation_length (sort_perm by_clicks_desc _)), length_map.
  set (ek := existingKeywordsOf keywordData).
  pose proof (disjoint_filters_length (is_opportunity ek) is_waste rows
                (opportunity_is_not_waste ek)) as H1.
  pose proof (filter_length (fun st => isAlreadyNegated negatives (st_searchTerm st))
                (filter is_waste rows)) as H2.
  rewrite !filter_filter_andb in H2.
  change (filter (fun x => is_waste x && isAlreadyNegated negatives (st_searchTerm x)) rows)
    with (filter (is_covered_waste negatives) rows) in H2.
  change (filter (fun x => is_waste x && negb (isAlreadyNegated negatives (st_searchTerm x)))
                 rows)
    with (filter (is_fresh_waste negatives) rows) in H2.
  repeat split; lia.
Qed.

(** *** Wrong-intent detection on longer terms *)

(** X4: wrong-intent detection ignores case and survives added words: when
    the lower-cased text of [a] occurs in the lower-cased text of [b] and
    [a] is wrong-intent, so is [b], and no row with the term [b] is an
    opportunity. *)
Theorem wrong_intent_spreads_to_longer_terms (a b : string) :
  hasWrongIntent a = true ->
  is_substring (toLowerCase a) (toLowerCase b) ->
  hasWrongIntent b = true /\
  forall existingKeywords st,
    st_searchTerm st = b -> is_opportunity existingKeywords st = false.
Proof.
  intros Ha Hsub.
  assert (Hb : hasWrongIntent b = true).
  { unfold hasWrongIntent in *. cbv zeta in *. apply existsb_exists in Ha as [word [Hin Hword]].
    apply existsb_exists. exists word. split; [exact Hin |].
    apply includes_spec. apply includes_spec in Hword.
    now apply (is_substring_trans _ (toLowerCase a)). }
  split; [exact Hb |]. intros existingKeywords st Hst.
  unfold is_opportunity. cbv zeta. rewrite Hst, Hb. cbn [negb].
  now rewrite andb_false_r.
Qed.

(** A query that adds words, in another case, to a wrong-intent term. *)
Lemma wrong_intent_spreads_to_longer_terms_witness :
  hasWrongIntent "HOA Free Template pdf" = true /\
  forall existingKeywords st,
    st_searchTerm st = "HOA Free Template pdf" ->
    is_opportunity existingKeywords st = false.
Proof.
  apply (wrong_intent_spreads_to_longer_terms "free template" "HOA Free Template pdf").
  - vm_compute. reflexivity.
  - exists "hoa ", " pdf". vm_compute. reflexivity.
Defined.

(** *** Negation, by the size of the set *)

Fixpoint all_white_space (s : string) : bool :=
  match s with
  | EmptyString => true
  | String c s' => is_white_space c && all_white_space s'
  end.

Lemma lower_ascii_white_space (c : ascii) : is_white_space c = true -> lower_ascii c = c.
Proof.
  unfold is_white_space, lower_ascii. cbv zeta.
  destruct (Nat.leb_spec 9 (nat_of_ascii c)), (Nat.leb_spec (nat_of_ascii c) 13),
    (Nat.eqb_spec (nat_of_ascii c) 32), (Nat.leb_spec 65 (nat_of_ascii c)),
    (Nat.leb_spec (nat_of_ascii c) 90); cbn; intros Hws; try reflexivity;
    try discriminate; lia.
Qed.

Lemma blank_normalizes_to_empty (k : string) :
  all_white_space k = true -> trim (toLowerCase k) = EmptyString.
Proof.
  intros H. unfold trim.
  assert (Hstart : trimStart (toLowerCase k) = EmptyString).
  { induction k as [|c k IH]; [reflexivity |].
    cbn [all_white_space] in H. apply andb_true_iff in H as [Hc Hk].
    cbn [toLowerCase trimStart]. rewrite (lower_ascii_white_space c Hc), Hc.
    now apply IH. }
  now rewrite Hstart.
Qed.

Lemma includes_empty (s : string) : includes s EmptyString = true.
Proof. now destruct s. Qed.

(** X5: a negative keyword made only of white space passes the
    [if (neg.keyword)] guard and puts the empty string in the match set;
    since every string includes the empty string, every term then counts as
    already negated and [wasteTerms] is empty whatever the search terms
    are. *)
Theorem blank_negative_keyword_covers_every_term
    (campaignNegatives sharedSetNegatives : Fetched NegativeRow)
    (neg : NegativeRow) (k : string) :
  In neg (usable_rows campaignNegatives ++ usable_rows sharedSetNegatives) ->
  neg_keyword neg = Some k -> k <> EmptyString -> all_white_space k = true ->
  let negatives :=
    negativeKeywordsSet (combineNegativeKeywords campaignNegatives sharedSetNegatives) in
  (forall term, isAlreadyNegated negatives term = true) /\
  (forall searchTermData keywordData,
     wasteTerms (analyzeSearchTermsForGaps searchTermData keywordData negatives) = []).
Proof.
  intros Hin Hk Hne Hblank negatives.
  assert (Hall : forall term, isAlreadyNegated negatives term = true).
  { intros term. apply isAlreadyNegated_spec. exists EmptyString.
    split; [|apply is_substring_empty].
    apply Normalizer.combine_match_set. exists neg, k.
    repeat split; try assumption. symmetry. now apply blank_normalizes_to_empty. }
  split; [exact Hall |]. intros searchTermData keywordData.
  destruct searchTermData as [| e | | rows]; try reflexivity.
  apply no_member_is_nil. intros w Hw.
  apply wasteTerms_In in Hw as [st [_ [_ [_ Hneg]]]].
  rewrite Hall in Hneg. discriminate.
Qed.

(** A campaign negative whose text is two spaces. *)
Definition blank_negative : NegativeRow :=
  {| neg_keyword := Some "  "; neg_matchType := "BROAD";
     neg_campaignName := Some "Search"; neg_sharedSetName := None;
     neg_scope := ScopeCampaign |}.

Lemma blank_negative_keyword_covers_every_term_witness :
  let negatives :=
    negativeKeywordsSet (combineNegativeKeywords (Rows [blank_negative]) (Rows [])) in
  (forall term, isAlreadyNegated negatives term = true) /\
  (forall searchTermData keywordData,
     wasteTerms (analyzeSearchTermsForGaps searchTermData keywordData negatives) = []).
Proof.
  apply (blank_negative_keyword_covers_every_term (Rows [blank_negative]) (Rows [])
           blank_negative "  ").
  - left. reflexivity.
  - reflexivity.
  - discriminate.
  - reflexivity.
Defined.

(** X6: negation only grows with the set: a term negated by a set is
    negated by every larger set; with the empty set no term is negated, so
    [alreadyCovered] is empty and [alreadyNegated] is 0. *)
Theorem negation_grows_with_the_set (negatives : gset string) :
  (forall larger term,
     negatives ⊆ larger ->
     isAlreadyNegated negatives term = true -> isAlreadyNegated larger term = true) /\
  (forall term, isAlreadyNegated ∅ term = false) /\
  (forall searchTermData keywordData,
     let r := analyzeSearchTermsForGaps searchTermData keywordData ∅ in
     alreadyCovered r = [] /\ alreadyNegated (analysis r) = 0%nat).
Proof.
  assert (Hempty : forall term, isAlreadyNegated ∅ term = false).
  { intros term. destruct (isAlreadyNegated ∅ term) eqn:E; [|reflexivity].
    apply isAlreadyNegated_spec in E as [negative [Hin _]].
    now apply not_elem_of_empty in Hin. }
  split; [|split; [exact Hempty |]].
  - intros larger term Hsub H. apply isAlreadyNegated_spec.
    apply isAlreadyNegated_spec in H as [negative [Hin Hocc]].
    exists negative. split; [now apply Hsub | exact Hocc].
  - intros searchTermData keywordData r.
    assert (Hnil : alreadyCovered r = []).
    { subst r. destruct searchTermData as [| e | | rows]; try reflexivity.
      apply no_member_is_nil. intros c Hc.
      apply alreadyCovered_In in Hc as [st [_ [_ [Hneg _]]]].
      rewrite Hempty in Hneg. discriminate. }
    split; [exact Hnil |].
    subst r. destruct searchTermData as [| e | | rows]; try reflexivity.
    cbn [analyzeSearchTermsForGaps analysis alreadyNegated] in *.
    cbn [analyzeSearchTermsForGaps alreadyCovered] in Hnil. now rewrite Hnil.
Qed.

End EngineFacts.

(** ** The submit / poll endpoint ([exports.handler])

    One invocation of the function: the event, the configuration it reads,
    what the remote calls do this time and the job id [generateJobId()]
    draws are inputs; the reply, the store afterwards and the background
    run it starts (not awaited) are outputs.  Reply bodies are kept as
    records, not as the JSON text. *)

Module Api.
Import JobStore.

Inductive Method : Type := OPTIONS | GET | POST | OtherMethod (name : string).

(** [const { startDate, endDate, customerId } = body] *)
Record PostBody : Type := mkPostBody {
  startDate : option string;
  endDate : option string;
  customerId : option string
}.

(** [JSON.parse(event.body || '{}')] and the destructuring of its value:
    an object, or an exception with its [message]. *)
Inductive ParsedBody : Type :=
| BodyThrows (message : option string)
| BodyObject (fields : PostBody).

Record HttpEvent : Type := mkHttpEvent {
  httpMethod : Method;
  queryJobId : option string;   (* [event.queryStringParameters?.jobId] *)
  body : ParsedBody
}.

(** [processAnalysis(jobId, startDate, endDate, customerId)], started and
    left running. *)
Record Launch : Type := mkLaunch {
  launch_jobId : string;
  launch_startDate : string;
  launch_endDate : string;
  launch_customerId : option string
}.

Section WithResult.
Context {Result : Type}.

(** The object given to [JSON.stringify] for the body. *)
Record ReplyBody : Type := mkReplyBody {
  rb_status : JobStatus;
  rb_jobId : option string;
  rb_result : option Result;
  rb_error : option string;
  rb_message : option string
}.

Record Reply : Type := mkReply {
  statusCode : nat;
  replyBody : option ReplyBody   (* [None]: the empty body of OPTIONS *)
}.

Definition errorReply (code : nat) (text : string) : Reply :=
  {| statusCode := code;
     replyBody := Some {| rb_status := StatusError; rb_jobId := None; rb_result := None;
                          rb_error := Some text; rb_message := None |} |}.

(** The GET branch once [jobId] is there: the status snapshot. *)
Definition statusReply (jobId : string) (job : option (Job Result)) : Reply :=
  match job with
  | None =>
      {| statusCode := 200;
         replyBody := Some {| rb_status := StatusProcessing; rb_jobId := Some jobId;
                              rb_result := None; rb_error := None;
                              rb_message := Some "Job still initializing..." |} |}
  | Some job =>
      match job_status job with
      | StatusComplete =>
          {| statusCode := 200;
             replyBody := Some {| rb_status := StatusComplete; rb_jobId := None;
                                  rb_result := job_result job; rb_error := None;
                                  rb_message := None |} |}
      | StatusError =>
          {| statusCode := 200;
             replyBody := Some {| rb_status := StatusError; rb_jobId := None;
                                  rb_result := None; rb_error := job_error job;
                                  rb_message := None |} |}
      | StatusProcessing =>
          {| statusCode := 200;
             replyBody := Some {| rb_status := StatusProcessing; rb_jobId := Some jobId;
                                  rb_result := None; rb_error := None;
                                  rb_message := None |} |}
      end
  end.

(** [exports.handler = async (event) => ...]; [anthropicKey] tells whether
    [ANTHROPIC_API_KEY] is set, [freshId] is the value of
    [generateJobId()]. *)
Definition handler (anthropicKey : bool) (freshId now : string)
    (upsertDoes : UpsertBehaviour) (selectDoes : SelectBehaviour)
    (event : HttpEvent) (st : Store Result)
    : Completion (Reply * Store Result * option Launch) :=
  match httpMethod event with
  | OPTIONS => Returns ({| statusCode := 204; replyBody := None |}, st, None)
  | GET =>
      if truthy (queryJobId event) then
        let jobId := orEmpty (queryJobId event) in
        match loadJob jobId selectDoes st with
        | Returns job => Returns (statusReply jobId job, st, None)
        | Throws message => Throws message
        end
      else Returns (errorReply 400 "jobId parameter required", st, None)
  | OtherMethod _ => Returns (errorReply 405 "Method not allowed", st, None)
  | POST =>
      if anthropicKey then
        match body event with
        | BodyThrows message =>
            Returns (errorReply 500 (if truthy message then orEmpty message
                                     else "Failed to start analysis"), st, None)
        | BodyObject fields =>
            if truthy (startDate fields) && truthy (endDate fields) then
              try_catch
                (saveJob freshId
                   {| job_status := StatusProcessing; job_result := None; job_error := None |}
                   now upsertDoes st)
                (fun st' =>
                   Returns
                     ({| statusCode := 202;
                         replyBody :=
                           Some {| rb_status := StatusProcessing;
                                   rb_jobId := Some freshId;
                                   rb_result := None; rb_error := None;
                                   rb_message :=
                                     Some ("Analysis started. Poll GET /api/ad-suggestions?jobId="
                                           +:+ freshId) |} |},
                      st',
                      Some {| launch_jobId := freshId;
                              launch_startDate := orEmpty (startDate fields);
                              launch_endDate := orEmpty (endDate fields);
                              launch_customerId := customerId fields |}))
                (fun message =>
                   Returns (errorReply 500 (if truthy (Some message) then message
                                            else "Failed to start analysis"), st, None))
            else Returns (errorReply 400 "startDate and endDate are required", st, None)
        end
      else Returns (errorReply 200 "AI suggestions not configured. Add ANTHROPIC_API_KEY.",
                    st, None)
  end.
End WithResult.

Arguments ReplyBody : clear implicits.
Arguments Reply : clear implicits.

End Api.

(** * More on the job store and the endpoint *)

Module ApiFacts.
Import JobStore Api.

Section WithResult.
Context {Result : Type}.

(** The durable tier has nothing to say about [jobId] this time. *)
Definition durable_silent (selectDoes : SelectBehaviour) (st : Store Result)
    (jobId : string) : Prop :=
  match supabase st with
  | None => True
  | Some table => selectDoes <> SelectSucceeds \/ table !! jobId = None
  end.

Lemma loadJob_returns (jobId : string) (selectDoes : SelectBehaviour) (st : Store Result) :
  exists job, loadJob jobId selectDoes st = Returns job.
Proof.
  unfold loadJob. destruct (jobStore st !! jobId) as [job|]; [now eexists |].
  destruct (supabase st) as [table|]; [|now eexists].
  destruct selectDoes; cbn; [|now eexists | now eexists].
  destruct (table !! jobId); cbn; now eexists.
Qed.

Lemma loadJob_None (jobId : string) (selectDoes : SelectBehaviour) (st : Store Result) :
  loadJob jobId selectDoes st = Returns None <->
  jobStore st !! jobId = None /\ durable_silent selectDoes st jobId.
Proof.
  unfold loadJob, durable_silent.
  destruct (jobStore st !! jobId) as [job|].
  - split; [discriminate | intros [H _]; discriminate].
  - destruct (supabase st) as [table|]; [|tauto].
    destruct selectDoes; cbn.
    + destruct (table !! jobId); cbn; split; try tauto; try discriminate.
      intros [_ [H | H]]; [congruence | discriminate].
    + split; [intros _; split; [reflexivity | left; discriminate] | reflexivity].
    + split; [intros _; split; [reflexivity | left; discriminate] | reflexivity].
Qed.

(** X7: [loadJob] always returns and never throws, whatever the durable
    tier does; it answers [null] exactly when the id is absent from the
    in-process map and the durable tier gives nothing (not configured, the
    select reports an error or throws, or no row has the id). *)
Theorem load_answers_null_exactly_when_unknown (jobId : string)
    (selectDoes : SelectBehaviour) (st : Store Result) :
  (exists job, loadJob jobId selectDoes st = Returns job) /\
  (loadJob jobId selectDoes st = Returns None <->
   jobStore st !! jobId = None /\ durable_silent selectDoes st jobId).
Proof. split; [apply loadJob_returns | apply loadJob_None]. Qed.

End WithResult.

(** X8: the durable tier carries a job to another process: after a
    [saveJob] whose upsert succeeds, a process that shares the table but
    whose own map lacks the id loads status, result and error as saved; when
    the upsert fails instead and the table had no row for the id, that
    process finds nothing.  The upsert writes [data.error || null], so this
    is for a job whose error text, if it has one, is not the empty
    string. *)
Theorem durable_tier_serves_another_process {Result : Type} (jobId : string)
    (data : Job Result)
    (now : string) (st : Store Result) (table : gmap string (DurableRow Result))
    (otherMap : gmap string (Job Result)) :
  supabase st = Some table ->
  otherMap !! jobId = None ->
  job_error data <> Some EmptyString ->
  (exists st',
     saveJob jobId data now UpsertSucceeds st = Returns st' /\
     loadJob jobId SelectSucceeds {| jobStore := otherMap; supabase := supabase st' |} =
       Returns (Some data)) /\
  (forall upsertDoes st',
     upsertDoes <> UpsertSucceeds -> table !! jobId = None ->
     saveJob jobId data now upsertDoes st = Returns st' ->
     loadJob jobId SelectSucceeds {| jobStore := otherMap; supabase := supabase st' |} =
       Returns None).
Proof.
  intros Hsup Hother Herror. split.
  - eexists. split.
    + unfold saveJob. cbn [supabase]. rewrite Hsup. reflexivity.
    + unfold loadJob. cbn [jobStore supabase fst]. rewrite Hother.
      cbn [select_single try_catch]. rewrite lookup_insert_eq.
      cbn. destruct data as [status result [[|c text]|]]; cbn in *;
        [now elim Herror | reflexivity | reflexivity].
  - intros upsertDoes st' Hfail Hrow Hsave. unfold saveJob in Hsave.
    cbn [supabase] in Hsave. rewrite Hsup in Hsave.
    destruct upsertDoes; [congruence | |]; cbn in Hsave; injection Hsave as <-;
      unfold loadJob; cbn [jobStore supabase]; rewrite ?Hsup, Hother; cbn;
      now rewrite Hrow.
Qed.

(** A store with an empty table, and nothing in the map of the reader. *)
Lemma durable_tier_serves_another_process_witness :
  let data := {| job_status := StatusComplete; job_result := Some "report";
                 job_error := None |} in
  let st := {| jobStore := ∅; supabase := Some ∅ |} in
  (exists st',
     saveJob "job_1" data "2025-01-01T00:00:00Z" UpsertSucceeds st = Returns st' /\
     loadJob "job_1" SelectSucceeds {| jobStore := ∅; supabase := supabase st' |} =
       Returns (Some data)) /\
  (forall upsertDoes st',
     upsertDoes <> UpsertSucceeds -> (∅ : gmap string (DurableRow string)) !! "job_1" = None ->
     saveJob "job_1" data "2025-01-01T00:00:00Z" upsertDoes st = Returns st' ->
     loadJob "job_1" SelectSucceeds {| jobStore := ∅; supabase := supabase st' |} =
       Returns None).
Proof.
  apply (durable_tier_serves_another_process (Result := string) "job_1" _ _
           {| jobStore := ∅; supabase := Some ∅ |} ∅ ∅).
  - reflexivity.
  - reflexivity.
  - discriminate.
Defined.

(** X9: [saveJob] touches one id: for every other id, [loadJob] answers
    after the save what it answered before, in both tiers and whatever the
    upsert does. *)
Theorem save_leaves_other_jobs_alone {Result : Type} (jobId other : string)
    (data : Job Result) (now : string) (upsertDoes : UpsertBehaviour)
    (selectDoes : SelectBehaviour) (st : Store Result) :
  other <> jobId ->
  exists st',
    saveJob jobId data now upsertDoes st = Returns st' /\
    loadJob other selectDoes st' = loadJob other selectDoes st.
Proof.
  intros Hne. unfold saveJob. cbn [supabase jobStore].
  destruct (supabase st) as [table|] eqn:Hsup.
  - destruct upsertDoes; cbn [upsert try_catch fst]; eexists; (split; [reflexivity |]);
      unfold loadJob; cbn [jobStore supabase]; rewrite ?Hsup;
      rewrite lookup_insert_ne by congruence; try reflexivity.
    destruct (jobStore st !! other); [reflexivity |].
    destruct selectDoes; cbn [select_single try_catch]; try reflexivity.
    cbn [row_job_id]. now rewrite lookup_insert_ne by congruence.
  - eexists. split; [reflexivity |]. unfold loadJob. cbn [jobStore supabase].
    rewrite Hsup. now rewrite lookup_insert_ne by congruence.
Qed.

Lemma save_leaves_other_jobs_alone_witness :
  let data := {| job_status := StatusProcessing; job_result := None (A := string);
                 job_error := None |} in
  let st := {| jobStore := {[ "job_0" := data ]}; supabase := None |} in
  exists st',
    saveJob "job_1" data "2025-01-01T00:00:00Z" UpsertSucceeds st = Returns st' /\
    loadJob "job_0" SelectSucceeds st' = loadJob "job_0" SelectSucceeds st.
Proof.
  apply (save_leaves_other_jobs_alone (Result := string) "job_1" "job_0").
  discriminate.
Defined.

(** X10: every successful save stamps the durable row anew: whatever row
    the table held for the id, afterwards the row of the id holds the saved
    status with both [created_at] and [updated_at] set to the time of this
    save, so [created_at] does not keep the time of the submission; the rows
    of other ids are as they were. *)
Theorem durable_row_is_restamped_on_every_save {Result : Type} (jobId : string)
    (data : Job Result) (now : string) (st : Store Result)
    (table : gmap string (DurableRow Result)) :
  supabase st = Some table ->
  exists st' table',
    saveJob jobId data now UpsertSucceeds st = Returns st' /\
    supabase st' = Some table' /\
    (exists r, table' !! jobId = Some r /\
               row_job_id r = jobId /\ row_status r = job_status data /\
               row_created_at r = now /\ row_updated_at r = now) /\
    (forall other, other <> jobId -> table' !! other = table !! other).
Proof.
  intros Hsup. unfold saveJob. cbn [supabase]. rewrite Hsup.
  cbn [upsert try_catch fst row_job_id]. eexists. eexists.
  split; [reflexivity |]. split; [reflexivity |]. split.
  - eexists. split; [apply lookup_insert_eq |]. now repeat split.
  - intros other Hne. apply lookup_insert_ne. congruence.
Qed.

Lemma durable_row_is_restamped_on_every_save_witness :
  let first := {| row_job_id := "job_1"; row_status := StatusProcessing;
                  row_result := None (A := string); row_error := None;
                  row_created_at := "2025-01-01T00:00:00Z";
                  row_updated_at := "2025-01-01T00:00:00Z" |} in
  let data := {| job_status := StatusComplete; job_result := Some "report";
                 job_error := None |} in
  let st := {| jobStore := ∅; supabase := Some {[ "job_1" := first ]} |} in
  exists st' table',
    saveJob "job_1" data "2025-01-01T00:03:00Z" UpsertSucceeds st = Returns st' /\
    supabase st' = Some table' /\
    (exists r, table' !! "job_1" = Some r /\
               row_job_id r = "job_1" /\ row_status r = StatusComplete /\
               row_created_at r = "2025-01-01T00:03:00Z" /\
               row_updated_at r = "2025-01-01T00:03:00Z") /\
    (forall other, other <> "job_1" ->
       table' !! other = ({[ "job_1" := first ]} : gmap string (DurableRow string)) !! other).
Proof.
  apply (durable_row_is_restamped_on_every_save (Result := string) "job_1").
  reflexivity.
Defined.

(** *** The endpoint *)

Lemma saveJob_returns {Result : Type} (jobId : string) (data : Job Result) (now : string)
    (upsertDoes : UpsertBehaviour) (st : Store Result) :
  exists st',
    saveJob jobId data now upsertDoes st = Returns st' /\
    jobStore st' = <[jobId := data]> (jobStore st).
Proof.
  unfold saveJob. cbn [supabase jobStore].
  destruct (supabase st) as [table|]; [|now eexists].
  destruct upsertDoes; cbn [upsert try_catch]; now eexists.
Qed.

Lemma truthy_Some (s : string) : s <> EmptyString -> truthy (Some s) = true.
Proof. intros H. apply truthy_spec. now exists s. Qed.

(** The record [{ status: 'processing' }] of a new submission. *)
Definition processingJob {Result : Type} : Job Result :=
  {| job_status := StatusProcessing; job_result := None; job_error := None |}.

(** X11: a poll with a job id is never answered with an HTTP error and
    never changes the store: the reply is 200 and mirrors the job,
    [processing] with the id when no tier knows it or when it is still
    running, [complete] with the stored result and no id, [error] with the
    stored message and no id. *)
Theorem poll_reply_mirrors_the_job {Result : Type} (anthropicKey : bool)
    (freshId now : string) (upsertDoes : UpsertBehaviour) (selectDoes : SelectBehaviour)
    (event : HttpEvent) (st : Store Result) (jobId : string) :
  httpMethod event = GET -> queryJobId event = Some jobId -> jobId <> EmptyString ->
  exists job reply,
    loadJob jobId selectDoes st = Returns job /\
    handler anthropicKey freshId now upsertDoes selectDoes event st =
      Returns ({| statusCode := 200; replyBody := Some reply |}, st, None) /\
    match job with
    | None =>
        rb_status reply = StatusProcessing /\ rb_jobId reply = Some jobId /\
        rb_result reply = None /\ rb_error reply = None
    | Some j =>
        rb_status reply = job_status j /\
        rb_jobId reply =
          match job_status j with StatusProcessing => Some jobId | _ => None end /\
        rb_result reply =
          match job_status j with StatusComplete => job_result j | _ => None end /\
        rb_error reply =
          match job_status j with StatusError => job_error j | _ => None end
    end.
Proof.
  intros Hm Hq Hne. destruct (loadJob_returns jobId selectDoes st) as [job Hjob].
  unfold handler. rewrite Hm, Hq, (truthy_Some jobId Hne). cbn [orEmpty]. rewrite Hjob.
  exists job. destruct job as [j|]; cbn [statusReply].
  - destruct (job_status j) eqn:E; eexists; (split; [reflexivity |]);
      (split; [reflexivity |]); cbn; rewrite ?E; now repeat split.
  - eexists. split; [reflexivity |]. split; [reflexivity |]. now repeat split.
Qed.

Lemma poll_reply_mirrors_the_job_witness :
  let st := {| jobStore := {[ "job_1" := {| job_status := StatusComplete;
                                           job_result := Some "report";
                                           job_error := None |} ]};
               supabase := None |} in
  let event := {| httpMethod := GET; queryJobId := Some "job_1";
                  body := BodyObject {| startDate := None; endDate := None;
                                        customerId := None |} |} in
  exists job reply,
    loadJob "job_1" SelectSucceeds st = Returns job /\
    handler true "job_2" "2025-01-01T00:00:00Z" UpsertSucceeds SelectSucceeds event st =
      Returns ({| statusCode := 200; replyBody := Some reply |}, st, None) /\
    match job with
    | None =>
        rb_status reply = StatusProcessing /\ rb_jobId reply = Some "job_1" /\
        rb_result reply = None /\ rb_error reply = None
    | Some j =>
        rb_status reply = job_status j /\
        rb_jobId reply =
          match job_status j with StatusProcessing => Some "job_1" | _ => None end /\
        rb_result reply =
          match job_status j with StatusComplete => job_result j | _ => None end /\
        rb_error reply =
          match job_status j with StatusError => job_error j | _ => None end
    end.
Proof.
  apply (poll_reply_mirrors_the_job (Result := string) true "job_2" _ _ _ _ _ "job_1").
  - reflexivity.
  - reflexivity.
  - discriminate.
Defined.

(** X12: a submission with both dates, on a configured endpoint, is
    answered 202 with the fresh job id, starts one background run with the
    dates and customer id of the body, and leaves the job pollable: whatever
    the upsert did, a poll for that id in the same process is answered 200
    [processing] with the id. *)
Theorem submission_is_pollable {Result : Type} (freshId now : string)
    (upsertDoes : UpsertBehaviour) (selectDoes : SelectBehaviour)
    (event : HttpEvent) (st : Store Result) (fields : PostBody) (first last : string) :
  httpMethod event = POST -> body event = BodyObject fields ->
  startDate fields = Some first -> first <> EmptyString ->
  endDate fields = Some last -> last <> EmptyString ->
  freshId <> EmptyString ->
  exists st' reply,
    handler true freshId now upsertDoes selectDoes event st =
      Returns ({| statusCode := 202; replyBody := Some reply |}, st',
               Some {| launch_jobId := freshId; launch_startDate := first;
                       launch_endDate := last;
                       launch_customerId := customerId fields |}) /\
    rb_status reply = StatusProcessing /\ rb_jobId reply = Some freshId /\
    forall anthropicKey nextId later upsertDoes' selectDoes' poll,
      httpMethod poll = GET -> queryJobId poll = Some freshId ->
      exists reply',
        handler anthropicKey nextId later upsertDoes' selectDoes' poll st' =
          Returns ({| statusCode := 200; replyBody := Some reply' |}, st', None) /\
        rb_status reply' = StatusProcessing /\ rb_jobId reply' = Some freshId.
Proof.
  intros Hm Hb Hs Hsne He Hene Hid.
  destruct (saveJob_returns freshId (processingJob (Result := Result)) now upsertDoes st)
    as [st' [Hsave Hmap]].
  unfold handler. rewrite Hm, Hb, Hs, He, (truthy_Some first Hsne), (truthy_Some last Hene).
  cbn [andb orEmpty]. unfold processingJob in Hsave. rewrite Hsave. cbn [try_catch].
  eexists. eexists. split; [reflexivity |]. split; [reflexivity |]. split; [reflexivity |].
  intros anthropicKey nextId later upsertDoes' selectDoes' poll Hpm Hpq.
  rewrite Hpm, Hpq, (truthy_Some freshId Hid). cbn [orEmpty].
  unfold loadJob. rewrite Hmap, lookup_insert_eq. cbn [statusReply job_status processingJob].
  eexists. split; [reflexivity |]. now split.
Qed.

Lemma submission_is_pollable_witness :
  let fields := {| startDate := Some "2025-01-01"; endDate := Some "2025-01-31";
                   customerId := None |} in
  let event := {| httpMethod := POST; queryJobId := None; body := BodyObject fields |} in
  let st : Store string := {| jobStore := ∅; supabase := None |} in
  exists st' reply,
    handler true "job_1" "2025-02-01T00:00:00Z" (UpsertThrows "down") SelectSucceeds event st =
      Returns ({| statusCode := 202; replyBody := Some reply |}, st',
               Some {| launch_jobId := "job_1"; launch_startDate := "2025-01-01";
                       launch_endDate := "2025-01-31";
                       launch_customerId := None |}) /\
    rb_status reply = StatusProcessing /\ rb_jobId reply = Some "job_1" /\
    forall anthropicKey nextId later upsertDoes' selectDoes' poll,
      httpMethod poll = GET -> queryJobId poll = Some "job_1" ->
      exists reply',
        handler anthropicKey nextId later upsertDoes' selectDoes' poll st' =
          Returns ({| statusCode := 200; replyBody := Some reply' |}, st', None) /\
        rb_status reply' = StatusProcessing /\ rb_jobId reply' = Some "job_1".
Proof.
  intros fields event st.
  apply (submission_is_pollable (Result := string) "job_1" _ _ _ event st fields
           "2025-01-01" "2025-01-31");
    first [reflexivity | discriminate].
Defined.

(** X13: the endpoint never throws, and it writes to the store only when
    it accepts a submission: a run is started exactly when the reply is 202,
    and then the store holds the fresh id as [processing]; with any other
    reply the store is as it was.  A reply of 400 or above carries
    [status: 'error'], an error text and no job id. *)
Theorem endpoint_writes_only_when_it_accepts {Result : Type} (anthropicKey : bool)
    (freshId now : string) (upsertDoes : UpsertBehaviour) (selectDoes : SelectBehaviour)
    (event : HttpEvent) (st : Store Result) :
  exists reply st' launch,
    handler anthropicKey freshId now upsertDoes selectDoes event st =
      Returns (reply, st', launch) /\
    (statusCode reply = 202%nat <-> launch <> None) /\
    (launch = None -> st' = st) /\
    (forall l, launch = Some l ->
       launch_jobId l = freshId /\ jobStore st' !! freshId = Some processingJob) /\
    ((400 <= statusCode reply)%nat ->
       exists b text, replyBody reply = Some b /\ rb_status b = StatusError /\
                      rb_error b = Some text /\ rb_jobId b = None).
Proof.
  unfold handler.
  destruct (httpMethod event) as [| | | name].
  - eexists. eexists. eexists. split; [reflexivity |]. cbn.
    repeat split; try congruence; try lia.
  - destruct (truthy (queryJobId event)).
    + destruct (loadJob_returns (orEmpty (queryJobId event)) selectDoes st) as [job ->].
      unfold statusReply.
      destruct job as [j|]; [destruct (job_status j) |];
        (eexists; eexists; eexists; split; [reflexivity |]); cbn;
        repeat split; try congruence; try lia.
    + eexists. eexists. eexists. split; [reflexivity |]. cbn.
      repeat split; try congruence; try lia. intros _. now eexists _, _.
  - destruct anthropicKey.
    + destruct (body event) as [message | fields].
      * eexists. eexists. eexists. split; [reflexivity |]. cbn.
        repeat split; try congruence; try lia. intros _. now eexists _, _.
      * destruct (truthy (startDate fields) && truthy (endDate fields)).
        -- destruct (saveJob_returns freshId (processingJob (Result := Result)) now
                       upsertDoes st) as [st' [Hsave Hmap]].
           unfold processingJob in Hsave. rewrite Hsave. cbn [try_catch].
           eexists. eexists. eexists. split; [reflexivity |]. cbn [statusCode].
           split; [split; [congruence | reflexivity] |].
           split; [congruence |]. split.
           ++ intros l Hl. injection Hl as <-. cbn. split; [reflexivity |].
              rewrite Hmap. apply lookup_insert_eq.
           ++ lia.
        -- eexists. eexists. eexists. split; [reflexivity |]. cbn.
           repeat split; try congruence; try lia. intros _. now eexists _, _.
    + eexists. eexists. eexists. split; [reflexivity |]. cbn.
      repeat split; try congruence; try lia.
  - eexists. eexists. eexists. split; [reflexivity |]. cbn.
    repeat split; try congruence; try lia. intros _. now eexists _, _.
Qed.

End ApiFacts.

(** * More on the client poller

    What holds on every trace of the service, whatever the order in which
    the browser delivers timer ticks and HTTP completions, and how the
    replies of the endpoint drive a poll. *)

Module PollerMore.
Import JobStore Api Poller PollerFacts.

Section Guarded.
Variable maxAttempts : nat.
Variable timeoutMessage : string.

(** What one event does to one session, with the guards of the handlers:
    [held] tells whether [pollingSubscription] is the interval of this
    session, the only one [cancelPolling] can unsubscribe. *)
Inductive guarded_move (held : bool) : Session -> Session -> Prop :=
| guarded_stay s : guarded_move held s s
| guarded_unsubscribe s : held = true -> guarded_move held s (unsubscribe s)
| guarded_start s job :
    ss_postPending s = true -> guarded_move held s (armed job (postDone s))
| guarded_refuse s v :
    ss_postPending s = true -> guarded_move held s (complete (next v (postDone s)))
| guarded_poll s :
    ss_timer s = true -> (S (ss_attempts s) <= maxAttempts)%nat ->
    guarded_move held s (requested (counted s))
| guarded_timeout s v :
    ss_timer s = true -> (maxAttempts < S (ss_attempts s))%nat ->
    guarded_move held s (complete (next v (unsubscribe_if held (counted s))))
| guarded_answer s :
    (0 < ss_inflight s)%nat -> guarded_move held s (answered s)
| guarded_settle s v :
    (0 < ss_inflight s)%nat ->
    guarded_move held s (complete (next v (unsubscribe_if held (answered s)))).

Lemma guarded_cancel (held : bool) (s : Session) :
  guarded_move held s (unsubscribe_if held s).
Proof. destruct held; [now apply guarded_unsubscribe | apply guarded_stay]. Qed.

Lemma postNext_guarded (held : bool) (k : nat) (response : JobResponse) (svc : Service)
    (sk : Session) (j : nat) (s : Session) :
  sessions svc !! k = Some sk -> ss_postPending sk = true ->
  sessions svc !! j = Some s ->
  exists s', sessions (postNext k response (on_session k postDone svc)) !! j = Some s' /\
             guarded_move held s s'.
Proof.
  intros Hk Hp Hj. pose proof (on_session_lookup k postDone svc j s Hj) as H1.
  unfold postNext.
  destruct (status response), (truthy (jobId response));
    (eexists; split;
     [first [apply startPolling_lookup, H1 | apply finish_lookup, H1] |]);
    destruct (decide (k = j)) as [-> | Hne];
    try apply guarded_stay;
    assert (sk = s) as -> by congruence;
    first [now apply guarded_start | now apply guarded_refuse].
Qed.

Lemma tick_guarded (k : nat) (svc : Service) (sk : Session) (j : nat) (s : Session) :
  sessions svc !! k = Some sk -> ss_timer sk = true ->
  sessions svc !! j = Some s ->
  exists s', sessions (tick maxAttempts timeoutMessage k svc) !! j = Some s' /\
             guarded_move (bool_decide (pollingSubscription svc = Some j)) s s'.
Proof.
  intros Hk Ht Hj. unfold tick.
  pose proof (on_session_lookup k counted svc k sk Hk) as Hkk.
  destruct (decide (k = k)) as [_ | Hne]; [|congruence]. rewrite Hkk.
  pose proof (on_session_lookup k counted svc j s Hj) as H1.
  destruct (maxAttempts <? ss_attempts (counted sk))%nat eqn:Hlt.
  - apply Nat.ltb_lt in Hlt. cbn [counted ss_attempts] in Hlt.
    eexists. split; [apply finish_lookup, cancelPolling_lookup, H1 |].
    cbn [on_session pollingSubscription].
    destruct (decide (k = j)) as [-> | Hne].
    + assert (sk = s) as -> by congruence. now apply guarded_timeout.
    + apply guarded_cancel.
  - apply Nat.ltb_ge in Hlt. cbn [counted ss_attempts] in Hlt.
    eexists. split; [apply on_session_lookup, H1 |].
    destruct (decide (k = j)) as [-> | Hne]; [|apply guarded_stay].
    assert (sk = s) as -> by congruence. now apply guarded_poll.
Qed.

Lemma settle_guarded (k : nat) (v : AdSuggestionsData) (svc : Service) (sk : Session)
    (j : nat) (s : Session) :
  sessions svc !! k = Some sk -> (0 < ss_inflight sk)%nat ->
  sessions svc !! j = Some s ->
  exists s', sessions (finish k v (cancelPolling (on_session k answered svc))) !! j = Some s' /\
             guarded_move (bool_decide (pollingSubscription svc = Some j)) s s'.
Proof.
  intros Hk Hi Hj. pose proof (on_session_lookup k answered svc j s Hj) as H1.
  eexists. split; [apply finish_lookup, cancelPolling_lookup, H1 |].
  cbn [on_session pollingSubscription].
  destruct (decide (k = j)) as [-> | Hne].
  - assert (sk = s) as -> by congruence. now apply guarded_settle.
  - apply guarded_cancel.
Qed.

(** Every session survives an event, changed by one guarded move. *)
Lemma step_guarded (svc : Service) (e : Event) (j : nat) (s : Session) :
  sessions svc !! j = Some s ->
  exists s', sessions (step maxAttempts timeoutMessage svc e) !! j = Some s' /\
             guarded_move (bool_decide (pollingSubscription svc = Some j)) s s'.
Proof.
  intros Hj.
  assert (Hstay : exists s', sessions svc !! j = Some s' /\
                    guarded_move (bool_decide (pollingSubscription svc = Some j)) s s')
    by (exists s; split; [exact Hj | apply guarded_stay]).
  destruct e as [| k r | k err | k | k r | k err]; cbn [step].
  - unfold getSuggestions. cbn [sessions]. eexists.
    split; [apply lookup_app_l_Some, cancelPolling_lookup, Hj |].
    apply guarded_cancel.
  - destruct (sessions svc !! k) as [sk|] eqn:Hk; [|exact Hstay].
    destruct (ss_postPending sk) eqn:Hp; [|exact Hstay].
    now apply (postNext_guarded _ k r svc sk).
  - destruct (sessions svc !! k) as [sk|] eqn:Hk; [|exact Hstay].
    destruct (ss_postPending sk) eqn:Hp; [|exact Hstay].
    now apply (postNext_guarded _ k (postCaught err) svc sk).
  - destruct (sessions svc !! k) as [sk|] eqn:Hk; [|exact Hstay].
    destruct (ss_timer sk) eqn:Ht; [|exact Hstay].
    now apply (tick_guarded k svc sk).
  - destruct (sessions svc !! k) as [sk|] eqn:Hk; [|exact Hstay].
    destruct (0 <? ss_inflight sk)%nat eqn:Hi; [|exact Hstay].
    apply Nat.ltb_lt in Hi. unfold pollNext.
    destruct (status r).
    + eexists. split; [apply on_session_lookup, Hj |].
      destruct (decide (k = j)) as [-> | Hne]; [|apply guarded_stay].
      assert (sk = s) as -> by congruence. now apply guarded_answer.
    + destruct (result r); now apply (settle_guarded k _ svc sk).
    + now apply (settle_guarded k _ svc sk).
  - destruct (sessions svc !! k) as [sk|] eqn:Hk; [|exact Hstay].
    destruct (0 <? ss_inflight sk)%nat eqn:Hi; [|exact Hstay].
    apply Nat.ltb_lt in Hi. unfold pollError. now apply (settle_guarded k _ svc sk).
Qed.

(** *** The request budget *)

(** No more requests than ticks counted, no more than [maxAttempts], and
    none while the POST is pending. *)
Definition within_budget (s : Session) : Prop :=
  (ss_polls s <= ss_attempts s)%nat /\
  (ss_polls s <= maxAttempts)%nat /\
  (ss_postPending s = true -> ss_polls s = 0%nat).

Lemma guarded_within_budget (held : bool) (s s' : Session) :
  guarded_move held s s' -> sound s -> within_budget s -> within_budget s'.
Proof.
  intros Hmove Hs [B1 [B2 B3]].
  destruct Hmove as [s | s Hh | s job Hp | s v Hp | s Ht Hle | s v Ht Hlt | s Hi | s v Hi].
  - now repeat split.
  - now repeat split.
  - specialize (B3 Hp). repeat split; cbn; intros; try lia; congruence.
  - specialize (B3 Hp). unfold next. cbn. destruct (ss_completed s);
      repeat split; cbn; intros; try lia; congruence.
  - pose proof (pending_is_idle s Hs (or_introl Ht)) as Hp.
    repeat split; cbn; intros; try lia; congruence.
  - unfold next. destruct held; cbn; destruct (ss_completed s);
      repeat split; cbn; intros; try lia; auto.
  - repeat split; cbn; intros; try lia; auto.
  - unfold next. destruct held; cbn; destruct (ss_completed s);
      repeat split; cbn; intros; try lia; auto.
Qed.

Lemma reachable_within_budget (events : list Event) (j : nat) (s : Session) :
  sessions (run maxAttempts timeoutMessage newService events) !! j = Some s ->
  within_budget s.
Proof.
  revert j s. induction events as [|e events IH] using rev_ind; intros j s'.
  - cbn. intros H. rewrite lookup_nil in H. discriminate.
  - unfold run in *. rewrite fold_left_app. cbn [fold_left]. intros Hj.
    destruct (sessions (fold_left (step maxAttempts timeoutMessage) events newService) !! j)
      as [s|] eqn:E.
    + destruct (step_guarded _ e j s E) as [s2 [H2 M2]].
      assert (s2 = s') as -> by congruence.
      apply (guarded_within_budget _ s s' M2).
      * apply (reachable_sound maxAttempts timeoutMessage events j s E).
      * apply (IH j s E).
    + rewrite (step_new_session maxAttempts timeoutMessage _ e j s' E Hj).
      repeat split; cbn; intros; lia.
Qed.

(** X14: on every trace, for every submission, the service sends at most
    [maxAttempts] poll requests and never more requests than its interval
    has ticked, overlapping submissions and stale replies included. *)
Theorem requests_stay_within_budget (events : list Event) :
  Forall (fun s => (ss_polls s <= maxAttempts)%nat /\ (ss_polls s <= ss_attempts s)%nat)
         (sessions (run maxAttempts timeoutMessage newService events)).
Proof.
  apply Forall_lookup. intros j s Hj.
  destruct (reachable_within_budget events j s Hj) as [B1 [B2 _]]. now split.
Qed.

End Guarded.

(** *** What a caller receives *)

(** X15: on every trace each caller of [getSuggestions] receives at most
    one value, its Subject is completed as soon as it has received one, and
    once the Subject is completed nothing that happens later adds a value. *)
Theorem caller_receives_at_most_one_value (maxAttempts : nat) (timeoutMessage : string)
    (events later : list Event) (j : nat) (s : Session) :
  sessions (run maxAttempts timeoutMessage newService events) !! j = Some s ->
  (length (ss_emitted s) <= 1)%nat /\
  (ss_emitted s <> [] -> ss_completed s = true) /\
  exists s',
    sessions (run maxAttempts timeoutMessage newService (events ++ later)) !! j = Some s' /\
    (ss_completed s = true -> ss_completed s' = true /\ ss_emitted s' = ss_emitted s).
Proof.
  intros Hj.
  destruct (reachable_sound maxAttempts timeoutMessage events j s Hj) as [_ [H2 H3]].
  split; [exact H3 |]. split.
  - intros Hne. destruct (ss_completed s); [reflexivity |]. now elim Hne; apply H2.
  - unfold run. rewrite fold_left_app.
    apply (run_frozen maxAttempts timeoutMessage later _ j s Hj).
Qed.

(** Job A's caller after the trace of overlapping submissions: one value,
    Subject completed; a late tick and a late reply add nothing. *)
Lemma caller_receives_at_most_one_value_witness :
  let s := {| ss_postPending := false; ss_jobId := Some "job_A"; ss_attempts := 1;
              ss_timer := false; ss_inflight := 0; ss_polls := 1;
              ss_emitted := [finished_analysis]; ss_completed := true |} in
  let later := [IntervalTick 0; PollReturns 0 (completed_with (createEmptyResult "late"))] in
  (length (ss_emitted s) <= 1)%nat /\
  (ss_emitted s <> [] -> ss_completed s = true) /\
  exists s',
    sessions (run dashboard_maxAttempts dashboard_timeoutMessage newService
                  (overlapping_submissions ++ later)) !! 0%nat = Some s' /\
    (ss_completed s = true -> ss_completed s' = true /\ ss_emitted s' = ss_emitted s).
Proof.
  intros s later.
  apply (caller_receives_at_most_one_value dashboard_maxAttempts dashboard_timeoutMessage
           overlapping_submissions later 0%nat s).
  reflexivity.
Defined.

(** *** A poll request that is answered for good *)

(** The handlers that settle a poll ([next] with a final status, [error])
    run [cancelPolling(); result$.next(v); result$.complete()]: when the
    session holds the interval, [v] is all its caller ever receives. *)
Lemma settle_ends_polling (maxAttempts : nat) (timeoutMessage : string)
    (earlier : list Event) (k : nat) (s : Session) (v : AdSuggestionsData) :
  let svc := run maxAttempts timeoutMessage newService earlier in
  sessions svc !! k = Some s ->
  pollingSubscription svc = Some k ->
  (0 < ss_inflight s)%nat ->
  let svc' := finish k v (cancelPolling (on_session k answered svc)) in
  pollingSubscription svc' = None /\
  forall later,
    exists s', sessions (run maxAttempts timeoutMessage svc' later) !! k = Some s' /\
               ss_emitted s' = [v] /\
               ss_completed s' = true /\
               ss_timer s' = false /\
               ss_polls s' = ss_polls s.
Proof.
  intros svc Hs Hsub Hflight svc'.
  assert (Hopen : ss_completed s = false).
  { destruct (reachable_holds_interval maxAttempts timeoutMessage earlier k Hsub)
      as [s0 [Hs0 [_ Hc]]].
    fold svc in Hs0. congruence. }
  pose proof (reachable_sound maxAttempts timeoutMessage earlier k s Hs) as Hsound.
  pose proof (pending_is_idle s Hsound (or_intror Hflight)) as Hpending.
  destruct Hsound as [_ [Hs2 _]]. specialize (Hs2 Hopen).
  pose proof (finish_lookup k v _ k _
                (cancelPolling_lookup _ k _ (on_session_lookup k answered svc k s Hs)))
    as Hk.
  fold svc' in Hk. cbn [on_session pollingSubscription] in Hk.
  rewrite Hsub, bool_decide_eq_true_2 in Hk by reflexivity.
  destruct (decide (k = k)) as [_ | Hne]; [|congruence].
  unfold next in Hk. cbn [unsubscribe_if unsubscribe answered ss_completed] in Hk.
  rewrite Hopen in Hk.
  cbn [complete unsubscribe answered ss_postPending ss_jobId ss_attempts ss_timer
         ss_inflight ss_polls ss_emitted ss_completed] in Hk.
  rewrite Hs2 in Hk. cbn [app] in Hk.
  split.
  - subst svc'. unfold finish, cancelPolling, on_session.
    cbn [pollingSubscription]. now rewrite Hsub.
  - intros later.
    destruct (run_frozen maxAttempts timeoutMessage later svc' k _ Hk) as [s1 [H1 F1]].
    destruct (run_stopped maxAttempts timeoutMessage later svc' k _ Hk) as [s2 [H2 F2]].
    assert (s2 = s1) as -> by congruence.
    destruct (F1 eq_refl) as [Hc He]. destruct (F2 eq_refl Hpending) as [Ht [_ [Hpolls _]]].
    exists s1. split; [exact H1 |]. split; [exact He |]. split; [exact Hc |].
    split; [exact Ht | exact Hpolls].
Qed.

(** X16: in any state the service can reach, a poll reply with a final
    status for the session that holds the interval ends the poll: the
    interval is cancelled, the Subject is completed, and the caller receives
    exactly one value for good, namely the result of a [complete] reply,
    the error result of the reply's text (or of 'Analysis failed') for an
    [error] reply, and the error result 'Unexpected response format' for a
    [complete] reply that carries no result. *)
Theorem final_reply_ends_polling (maxAttempts : nat) (timeoutMessage : string)
    (earlier : list Event) (k : nat) (s : Session) (response : JobResponse) :
  let svc := run maxAttempts timeoutMessage newService earlier in
  sessions svc !! k = Some s ->
  pollingSubscription svc = Some k ->
  (0 < ss_inflight s)%nat ->
  status response <> Processing ->
  let svc' := step maxAttempts timeoutMessage svc (PollReturns k response) in
  let delivered :=
    match status response, result response with
    | Error, _ => createEmptyResult (or_else (error response) "Analysis failed")
    | _, Some r => r
    | _, None => createEmptyResult "Unexpected response format"
    end in
  pollingSubscription svc' = None /\
  forall later,
    exists s', sessions (run maxAttempts timeoutMessage svc' later) !! k = Some s' /\
               ss_emitted s' = [delivered] /\
               ss_completed s' = true /\
               ss_timer s' = false /\
               ss_polls s' = ss_polls s.
Proof.
  intros svc Hs Hsub Hflight Hfinal svc' delivered.
  assert (Hstep : svc' = finish k delivered (cancelPolling (on_session k answered svc))).
  { subst svc' delivered. cbn [step]. rewrite Hs.
    pose proof Hflight as Hltb. apply Nat.ltb_lt in Hltb. rewrite Hltb.
    unfold pollNext. destruct (status response); [congruence | |];
      now destruct (result response). }
  rewrite Hstep.
  apply (settle_ends_polling maxAttempts timeoutMessage earlier k s delivered Hs Hsub Hflight).
Qed.

(** The reply to the third poll request carries the finished analysis. *)
Lemma final_reply_ends_polling_witness :
  let svc := run dashboard_maxAttempts dashboard_timeoutMessage newService three_polls in
  let svc' := step dashboard_maxAttempts dashboard_timeoutMessage svc
                   (PollReturns 0 (completed_with finished_analysis)) in
  pollingSubscription svc' = None /\
  forall later,
    exists s', sessions (run dashboard_maxAttempts dashboard_timeoutMessage svc' later)
                 !! 0%nat = Some s' /\
               ss_emitted s' = [finished_analysis] /\
               ss_completed s' = true /\
               ss_timer s' = false /\
               ss_polls s' = 3%nat.
Proof.
  refine (final_reply_ends_polling dashboard_maxAttempts dashboard_timeoutMessage
            three_polls 0%nat
            {| ss_postPending := false; ss_jobId := Some "job_1";
               ss_attempts := 3; ss_timer := true; ss_inflight := 1;
               ss_polls := 3; ss_emitted := []; ss_completed := false |}
            (completed_with finished_analysis) _ _ _ _).
  - reflexivity.
  - reflexivity.
  - cbn. lia.
  - discriminate.
Defined.

(** *** A submission that is not accepted *)

Lemma or_else_Some (x fallback : string) :
  x <> EmptyString -> or_else (Some x) fallback = x.
Proof. destruct x; [congruence | reflexivity]. Qed.

Lemma or_else_nonempty (a : option string) (fallback : string) :
  fallback <> EmptyString -> or_else a fallback <> EmptyString.
Proof. destruct a as [[|c x]|]; cbn; auto; discriminate. Qed.

(** [result$.next(v); result$.complete()] in the subscriber of the POST:
    the caller receives [v] and nothing else, no interval is created and no
    poll request is ever sent; [pollingSubscription] is left alone. *)
Lemma refusal_settles (maxAttempts : nat) (timeoutMessage : string)
    (earlier : list Event) (k : nat) (s : Session) (v : AdSuggestionsData) :
  let svc := run maxAttempts timeoutMessage newService earlier in
  sessions svc !! k = Some s ->
  ss_postPending s = true ->
  let svc' := finish k v (on_session k postDone svc) in
  pollingSubscription svc' = pollingSubscription svc /\
  forall later,
    exists s', sessions (run maxAttempts timeoutMessage svc' later) !! k = Some s' /\
               ss_emitted s' = [v] /\
               ss_completed s' = true /\
               ss_timer s' = false /\
               ss_polls s' = 0%nat.
Proof.
  intros svc Hs Hp svc'. split; [reflexivity |].
  pose proof (reachable_sound maxAttempts timeoutMessage earlier k s Hs) as [H1 [H2 _]].
  destruct (H1 Hp) as [Ht [_ Hopen]]. specialize (H2 Hopen).
  destruct (reachable_within_budget maxAttempts timeoutMessage earlier k s Hs)
    as [_ [_ Hpolls]].
  specialize (Hpolls Hp).
  pose proof (finish_lookup k v _ k _ (on_session_lookup k postDone svc k s Hs)) as Hk.
  fold svc' in Hk.
  destruct (decide (k = k)) as [_ | Hne]; [|congruence].
  unfold next in Hk. cbn [postDone ss_completed] in Hk. rewrite Hopen in Hk.
  cbn [complete postDone ss_postPending ss_jobId ss_attempts ss_timer
         ss_inflight ss_polls ss_emitted ss_completed] in Hk.
  rewrite H2 in Hk. cbn [app] in Hk.
  intros later.
  destruct (run_frozen maxAttempts timeoutMessage later svc' k _ Hk) as [s1 [E1 F1]].
  destruct (run_stopped maxAttempts timeoutMessage later svc' k _ Hk) as [s2 [E2 F2]].
  assert (s2 = s1) as -> by congruence.
  destruct (F1 eq_refl) as [Hc He]. destruct (F2 Ht eq_refl) as [Ht' [_ [Hpolls' _]]].
  exists s1. split; [exact E1 |]. split; [exact He |]. split; [exact Hc |].
  split; [exact Ht' |]. cbn in Hpolls'. congruence.
Qed.

(** X17: when the POST is answered without a job id, the caller receives
    exactly one value, an error result, and the Subject is completed: the
    reply's own text (or 'Failed to start analysis') when its status is
    [error], 'No job ID returned' otherwise.  No interval is created for
    this submission, no poll request is ever sent for it, and the poll of
    another submission, if one is running, is left alone. *)
Theorem refused_submission_never_polls (maxAttempts : nat) (timeoutMessage : string)
    (earlier : list Event) (k : nat) (s : Session) (response : JobResponse) :
  let svc := run maxAttempts timeoutMessage newService earlier in
  sessions svc !! k = Some s ->
  ss_postPending s = true ->
  truthy (jobId response) = false ->
  let svc' := step maxAttempts timeoutMessage svc (PostReturns k response) in
  let text :=
    match status response with
    | Error => or_else (error response) "Failed to start analysis"
    | _ => "No job ID returned"
    end in
  pollingSubscription svc' = pollingSubscription svc /\
  forall later,
    exists s', sessions (run maxAttempts timeoutMessage svc' later) !! k = Some s' /\
               ss_emitted s' = [createEmptyResult text] /\
               ss_completed s' = true /\
               ss_timer s' = false /\
               ss_polls s' = 0%nat.
Proof.
  intros svc Hs Hp Hid svc' text.
  assert (Hstep : svc' = finish k (createEmptyResult text) (on_session k postDone svc)).
  { subst svc' text. cbn [step]. rewrite Hs, Hp. unfold postNext. rewrite Hid.
    now destruct (status response). }
  rewrite Hstep.
  apply (refusal_settles maxAttempts timeoutMessage earlier k s _ Hs Hp).
Qed.

(** What the endpoint answers to a POST when no API key is configured. *)
Definition not_configured : JobResponse :=
  {| status := Error; jobId := None; result := None;
     error := Some "AI suggestions not configured. Add ANTHROPIC_API_KEY." |}.

Lemma refused_submission_never_polls_witness :
  let svc := run dashboard_maxAttempts dashboard_timeoutMessage newService
                 [CallGetSuggestions] in
  let svc' := step dashboard_maxAttempts dashboard_timeoutMessage svc
                   (PostReturns 0 not_configured) in
  pollingSubscription svc' = pollingSubscription svc /\
  forall later,
    exists s', sessions (run dashboard_maxAttempts dashboard_timeoutMessage svc' later)
                 !! 0%nat = Some s' /\
               ss_emitted s' =
                 [createEmptyResult "AI suggestions not configured. Add ANTHROPIC_API_KEY."] /\
               ss_completed s' = true /\
               ss_timer s' = false /\
               ss_polls s' = 0%nat.
Proof.
  refine (refused_submission_never_polls dashboard_maxAttempts dashboard_timeoutMessage
            [CallGetSuggestions] 0%nat newSession not_configured _ _ _).
  - reflexivity.
  - reflexivity.
  - reflexivity.
Defined.

(** X18: when the POST itself fails, [catchError] turns the failure into
    an error reply and the caller receives exactly one value, the error
    result whose text is the server's error text if the failure carries
    one, else the transport's message, else 'Failed to start analysis'; the
    Subject is completed and no poll request is ever sent. *)
Theorem failed_submission_reports_the_failure (maxAttempts : nat) (timeoutMessage : string)
    (earlier : list Event) (k : nat) (s : Session) (err : HttpError) :
  let svc := run maxAttempts timeoutMessage newService earlier in
  sessions svc !! k = Some s ->
  ss_postPending s = true ->
  let svc' := step maxAttempts timeoutMessage svc (PostFails k err) in
  let text :=
    or_else (err_body_error err) (or_else (err_message err) "Failed to start analysis") in
  text <> EmptyString /\
  pollingSubscription svc' = pollingSubscription svc /\
  forall later,
    exists s', sessions (run maxAttempts timeoutMessage svc' later) !! k = Some s' /\
               ss_emitted s' = [createEmptyResult text] /\
               ss_completed s' = true /\
               ss_timer s' = false /\
               ss_polls s' = 0%nat.
Proof.
  intros svc Hs Hp svc' text.
  assert (Htext : text <> EmptyString).
  { subst text. apply or_else_nonempty, or_else_nonempty. discriminate. }
  split; [exact Htext |].
  assert (Hstep : svc' = finish k (createEmptyResult text) (on_session k postDone svc)).
  { subst svc'. cbn [step]. rewrite Hs, Hp. unfold postNext, postCaught.
    cbn [status jobId error truthy]. fold text. now rewrite (or_else_Some text _ Htext). }
  rewrite Hstep.
  apply (refusal_settles maxAttempts timeoutMessage earlier k s _ Hs Hp).
Qed.

Lemma failed_submission_reports_the_failure_witness :
  let svc := run dashboard_maxAttempts dashboard_timeoutMessage newService
                 [CallGetSuggestions] in
  let svc' := step dashboard_maxAttempts dashboard_timeoutMessage svc
                   (PostFails 0 gateway_timeout) in
  let text := or_else (err_body_error gateway_timeout)
                (or_else (err_message gateway_timeout) "Failed to start analysis") in
  text <> EmptyString /\
  pollingSubscription svc' = pollingSubscription svc /\
  forall later,
    exists s', sessions (run dashboard_maxAttempts dashboard_timeoutMessage svc' later)
                 !! 0%nat = Some s' /\
               ss_emitted s' = [createEmptyResult text] /\
               ss_completed s' = true /\
               ss_timer s' = false /\
               ss_polls s' = 0%nat.
Proof.
  refine (failed_submission_reports_the_failure dashboard_maxAttempts
            dashboard_timeoutMessage [CallGetSuggestions] 0%nat newSession
            gateway_timeout _ _).
  - reflexivity.
  - reflexivity.
Defined.

(** *** A second submission *)

(** One poll has been sent for "job_1"; then the user asks again, and the
    old timer's ticks and the reply to the old request still arrive. *)
Lemma resubmission_stops_the_timer_witness :
  let earlier := [CallGetSuggestions; PostReturns 0 (started "job_1"); IntervalTick 0] in
  let later := [IntervalTick 0; PollReturns 0 (started "job_1"); IntervalTick 0] in
  let svc := run dashboard_maxAttempts dashboard_timeoutMessage newService earlier in
  exists s',
    sessions (run dashboard_maxAttempts dashboard_timeoutMessage svc
                  (CallGetSuggestions :: later)) !! 0%nat = Some s' /\
    ss_timer s' = false /\ ss_polls s' = 1%nat /\ ss_attempts s' = 1%nat.
Proof.
  intros earlier later svc.
  refine (resubmission_stops_the_timer dashboard_maxAttempts dashboard_timeoutMessage
            earlier later 0%nat
            {| ss_postPending := false; ss_jobId := Some "job_1";
               ss_attempts := 1; ss_timer := true; ss_inflight := 1;
               ss_polls := 1; ss_emitted := []; ss_completed := false |} _ _).
  - reflexivity.
  - reflexivity.
Defined.

(** *** Two submissions whose POSTs are both pending *)

Section Leak.
Variable maxAttempts : nat.
Variable timeoutMessage : string.

(** [pollingSubscription] is set only by [startPolling], for a session
    whose POST has just been answered; everything else keeps it or clears
    it. *)
Lemma step_subscription (svc : Service) (e : Event) (k' : nat) :
  pollingSubscription (step maxAttempts timeoutMessage svc e) = Some k' ->
  pollingSubscription svc = Some k' \/
  exists sk, sessions svc !! k' = Some sk /\ ss_postPending sk = true.
Proof.
  assert (Hcancel : forall k v x, pollingSubscription (finish k v (cancelPolling x)) = Some k' ->
            pollingSubscription svc = Some k' \/
            exists sk, sessions svc !! k' = Some sk /\ ss_postPending sk = true).
  { intros k v x H. unfold finish, on_session in H. cbn [pollingSubscription] in H.
    rewrite pollingSubscription_cancelPolling in H. discriminate. }
  assert (Hpost : forall k r sk, sessions svc !! k = Some sk -> ss_postPending sk = true ->
            pollingSubscription (postNext k r (on_session k postDone svc)) = Some k' ->
            pollingSubscription svc = Some k' \/
            exists sk, sessions svc !! k' = Some sk /\ ss_postPending sk = true).
  { intros k r sk Hk Hp H. unfold postNext in H.
    destruct (status r), (truthy (jobId r));
      cbn [startPolling finish on_session pollingSubscription] in H;
      first [ injection H as <-; right; now exists sk | now left ]. }
  destruct e as [| k r | k err | k | k r | k err]; cbn [step].
  - unfold getSuggestions. cbn [pollingSubscription].
    rewrite pollingSubscription_cancelPolling. discriminate.
  - destruct (sessions svc !! k) as [sk|] eqn:Hk; [|now left].
    destruct (ss_postPending sk) eqn:Hp; [|now left]. now apply (Hpost k r sk).
  - destruct (sessions svc !! k) as [sk|] eqn:Hk; [|now left].
    destruct (ss_postPending sk) eqn:Hp; [|now left]. now apply (Hpost k _ sk).
  - destruct (sessions svc !! k) as [sk|] eqn:Hk; [|now left].
    destruct (ss_timer sk); [|now left]. unfold tick.
    destruct (sessions (on_session k counted svc) !! k) as [s1|]; [|now left].
    destruct (maxAttempts <? ss_attempts s1)%nat; [apply Hcancel | now left].
  - destruct (sessions svc !! k) as [sk|] eqn:Hk; [|now left].
    destruct (0 <? ss_inflight sk)%nat; [|now left]. unfold pollNext.
    destruct (status r); [now left | destruct (result r); apply Hcancel | apply Hcancel].
  - destruct (sessions svc !! k) as [sk|] eqn:Hk; [|now left].
    destruct (0 <? ss_inflight sk)%nat; [|now left]. apply Hcancel.
Qed.

(** The interval of session [j] is live and the service holds no handle
    on it. *)
Definition leaked (svc : Service) (j : nat) : Prop :=
  pollingSubscription svc <> Some j /\
  exists s, sessions svc !! j = Some s /\ ss_timer s = true /\ ss_postPending s = false.

Lemma step_leaked (svc : Service) (e : Event) (j : nat) :
  leaked svc j -> leaked (step maxAttempts timeoutMessage svc e) j.
Proof.
  intros [Hsub [s [Hs [Ht Hp]]]]. split.
  - intros H. destruct (step_subscription svc e j H) as [H' | [sk [Hk Hpk]]];
      [contradiction | congruence].
  - destruct (step_guarded maxAttempts timeoutMessage svc e j s Hs) as [s' [Hs' M]].
    rewrite bool_decide_eq_false_2 in M by exact Hsub.
    exists s'. split; [exact Hs' |].
    destruct M as [s | s Hh | s job Hp' | s v Hp' | s Ht' Hle | s v Ht' Hlt | s Hi | s v Hi];
      try congruence; unfold next; cbn; try destruct (ss_completed s); cbn; now split.
Qed.

Lemma run_leaked (events : list Event) (svc : Service) (j : nat) :
  leaked svc j -> leaked (run maxAttempts timeoutMessage svc events) j.
Proof.
  revert svc. induction events as [|e events IH]; intros svc H; [exact H |].
  cbn [run fold_left]. apply IH, step_leaked, H.
Qed.

(** X20: [startPolling] overwrites [pollingSubscription] without
    unsubscribing what it held.  When two submissions have their POSTs
    pending at the same time and both are answered with a job id, the
    interval of the first one is live but the field holds the second; from
    then on, whatever happens, the field never holds the first interval
    again and that interval is never unsubscribed, not even by its own
    timeout. *)
Theorem overlapping_posts_leak_an_interval (svc : Service) (j k : nat) (sj sk : Session)
    (a b : string) :
  sessions svc !! j = Some sj -> sessions svc !! k = Some sk -> j <> k ->
  ss_postPending sj = true -> ss_postPending sk = true ->
  a <> EmptyString -> b <> EmptyString ->
  let svc' := run maxAttempts timeoutMessage svc
                  [PostReturns j (started a); PostReturns k (started b)] in
  pollingSubscription svc' = Some k /\
  forall later,
    let svc'' := run maxAttempts timeoutMessage svc' later in
    pollingSubscription svc'' <> Some j /\
    exists sj', sessions svc'' !! j = Some sj' /\ ss_timer sj' = true.
Proof.
  intros Hj Hk Hne Hpj Hpk Ha Hb svc'.
  assert (H1 : step maxAttempts timeoutMessage svc (PostReturns j (started a)) =
               startPolling j a (on_session j postDone svc)).
  { cbn [step]. rewrite Hj, Hpj. unfold postNext. cbn [status jobId started].
    now rewrite (ApiFacts.truthy_Some a Ha). }
  pose proof (startPolling_lookup j a _ j _ (on_session_lookup j postDone svc j sj Hj)) as Hjj.
  pose proof (startPolling_lookup j a _ k _ (on_session_lookup j postDone svc k sk Hk)) as Hjk.
  destruct (decide (j = j)) as [_ | Hn]; [|congruence].
  destruct (decide (j = k)) as [Heq | _]; [congruence |].
  rewrite <- H1 in Hjj, Hjk.
  set (svc1 := step maxAttempts timeoutMessage svc (PostReturns j (started a))) in *.
  assert (H2 : step maxAttempts timeoutMessage svc1 (PostReturns k (started b)) =
               startPolling k b (on_session k postDone svc1)).
  { cbn [step]. rewrite Hjk, Hpk. unfold postNext. cbn [status jobId started].
    now rewrite (ApiFacts.truthy_Some b Hb). }
  pose proof (startPolling_lookup k b _ j _ (on_session_lookup k postDone svc1 j _ Hjj)) as Hkj.
  destruct (decide (k = j)) as [Heq | _]; [congruence |].
  rewrite <- H2 in Hkj.
  assert (Hrun : svc' = step maxAttempts timeoutMessage svc1 (PostReturns k (started b)))
    by reflexivity.
  assert (Hsub : pollingSubscription svc' = Some k) by (now rewrite Hrun, H2).
  split; [exact Hsub |].
  intros later svc''.
  assert (Hleak : leaked svc' j).
  { split; [rewrite Hsub; congruence |]. rewrite Hrun. eexists. split; [exact Hkj |].
    now split. }
  destruct (run_leaked later svc' j Hleak) as [Hsub' [sj' [Hsj' [Ht' _]]]].
  split; [exact Hsub' |]. now exists sj'.
Qed.

End Leak.

(** The user asks twice before the first POST is answered. *)
Lemma overlapping_posts_leak_an_interval_witness :
  let svc := run dashboard_maxAttempts dashboard_timeoutMessage newService
                 [CallGetSuggestions; CallGetSuggestions] in
  let svc' := run dashboard_maxAttempts dashboard_timeoutMessage svc
                  [PostReturns 0 (started "job_A"); PostReturns 1 (started "job_B")] in
  pollingSubscription svc' = Some 1%nat /\
  forall later,
    let svc'' := run dashboard_maxAttempts dashboard_timeoutMessage svc' later in
    pollingSubscription svc'' <> Some 0%nat /\
    exists sj', sessions svc'' !! 0%nat = Some sj' /\ ss_timer sj' = true.
Proof.
  refine (overlapping_posts_leak_an_interval dashboard_maxAttempts dashboard_timeoutMessage
            _ 0%nat 1%nat newSession newSession "job_A" "job_B" _ _ _ _ _ _ _).
  - reflexivity.
  - reflexivity.
  - discriminate.
  - reflexivity.
  - reflexivity.
  - discriminate.
  - discriminate.
Defined.

(** *** The endpoint and the poller together *)

Definition received_status (s : JobStatus) : Status :=
  match s with
  | StatusProcessing => Processing
  | StatusComplete => Complete
  | StatusError => Error
  end.

(** The [JobResponse] that [HttpClient] hands to the [next] handler for a
    reply of the endpoint: the JSON object with the fields the reply
    carries. *)
Definition received (reply : ReplyBody AdSuggestionsData) : JobResponse :=
  {| status := received_status (rb_status reply);
     jobId := rb_jobId reply;
     result := rb_result reply;
     error := rb_error reply |}.

(** The value a stored job makes the poller deliver; [None] while there is
    nothing to deliver. *)
Definition final_value (stored : option (Job AdSuggestionsData))
    : option AdSuggestionsData :=
  match stored with
  | None => None
  | Some job =>
      match job_status job with
      | StatusProcessing => None
      | StatusComplete =>
          Some (match job_result job with
                | Some r => r
                | None => createEmptyResult "Unexpected response format"
                end)
      | StatusError => Some (createEmptyResult (or_else (job_error job) "Analysis failed"))
      end
  end.

(** X21: a poll served by the endpoint.  In any state the poller can
    reach, with a request for [job] on the wire for the session that holds
    the interval: the endpoint answers 200 and leaves its store alone, and
    its reply, handed to the poller, does this.  If the store does not know
    the job, or the job is still processing, the caller receives nothing
    and the interval keeps running, so an id the server has never seen is
    polled until the time-out.  If the job is complete the caller receives
    its result; if it failed, the error result with the job's error text
    (or 'Analysis failed'); in both cases exactly one value for good, with
    the interval cancelled. *)
Theorem endpoint_reply_drives_the_poll (maxAttempts : nat) (timeoutMessage : string)
    (earlier : list Event) (k : nat) (s : Session)
    (anthropicKey : bool) (freshId now : string)
    (upsertDoes : UpsertBehaviour) (selectDoes : SelectBehaviour)
    (event : HttpEvent) (st : Store AdSuggestionsData) (job : string) :
  let svc := run maxAttempts timeoutMessage newService earlier in
  sessions svc !! k = Some s ->
  pollingSubscription svc = Some k ->
  (0 < ss_inflight s)%nat ->
  httpMethod event = GET -> queryJobId event = Some job -> job <> EmptyString ->
  exists stored reply,
    loadJob job selectDoes st = Returns stored /\
    handler anthropicKey freshId now upsertDoes selectDoes event st =
      Returns ({| statusCode := 200; replyBody := Some reply |}, st, None) /\
    let svc' := step maxAttempts timeoutMessage svc (PollReturns k (received reply)) in
    match final_value stored with
    | None =>
        pollingSubscription svc' = Some k /\
        exists s', sessions svc' !! k = Some s' /\
                   ss_emitted s' = [] /\ ss_completed s' = false /\ ss_timer s' = true
    | Some v =>
        pollingSubscription svc' = None /\
        forall later,
          exists s', sessions (run maxAttempts timeoutMessage svc' later) !! k = Some s' /\
                     ss_emitted s' = [v] /\
                     ss_completed s' = true /\
                     ss_timer s' = false /\
                     ss_polls s' = ss_polls s
    end.
Proof.
  intros svc Hs Hsub Hflight Hm Hq Hne.
  destruct (ApiFacts.loadJob_returns job selectDoes st) as [stored Hload].
  pose proof Hflight as Hltb. apply Nat.ltb_lt in Hltb.
  assert (Hquiet : forall response, status response = Processing ->
            let svc' := step maxAttempts timeoutMessage svc (PollReturns k response) in
            pollingSubscription svc' = Some k /\
            exists s', sessions svc' !! k = Some s' /\
                       ss_emitted s' = [] /\ ss_completed s' = false /\ ss_timer s' = true).
  { intros response E svc'.
    assert (Hstep : svc' = on_session k answered svc).
    { subst svc'. cbn [step]. rewrite Hs, Hltb. unfold pollNext. now rewrite E. }
    rewrite Hstep. split; [exact Hsub |].
    destruct (reachable_holds_interval maxAttempts timeoutMessage earlier k Hsub)
      as [s0 [Hs0 [Ht Hc]]].
    fold svc in Hs0. assert (s0 = s) as -> by congruence.
    destruct (reachable_sound maxAttempts timeoutMessage earlier k s Hs) as [_ [He _]].
    pose proof (on_session_lookup k answered svc k s Hs) as Hk.
    destruct (decide (k = k)) as [_ | Hn]; [|congruence].
    exists (answered s). split; [exact Hk |]. split; [exact (He Hc) |]. now split. }
  assert (Hfinal : forall response v,
            pollNext k response (on_session k answered svc) =
              finish k v (cancelPolling (on_session k answered svc)) ->
            let svc' := step maxAttempts timeoutMessage svc (PollReturns k response) in
            pollingSubscription svc' = None /\
            forall later,
              exists s', sessions (run maxAttempts timeoutMessage svc' later) !! k = Some s' /\
                         ss_emitted s' = [v] /\ ss_completed s' = true /\
                         ss_timer s' = false /\ ss_polls s' = ss_polls s).
  { intros response v E svc'.
    assert (Hstep : svc' = finish k v (cancelPolling (on_session k answered svc))).
    { subst svc'. cbn [step]. now rewrite Hs, Hltb. }
    rewrite Hstep.
    apply (settle_ends_polling maxAttempts timeoutMessage earlier k s v Hs Hsub Hflight). }
  exists stored. unfold handler.
  rewrite Hm, Hq, (ApiFacts.truthy_Some job Hne). cbn [orEmpty]. rewrite Hload.
  destruct stored as [j|]; cbn [statusReply final_value]; [destruct (job_status j) |];
    (eexists; split; [reflexivity |]; split; [reflexivity |]).
  - now apply Hquiet.
  - apply Hfinal. unfold pollNext. cbn [received received_status status result rb_status rb_result].
    now destruct (job_result j).
  - apply Hfinal. reflexivity.
  - now apply Hquiet.
Qed.

(** The third poll request reaches an endpoint whose store holds the
    finished analysis. *)
Lemma endpoint_reply_drives_the_poll_witness :
  let svc := run dashboard_maxAttempts dashboard_timeoutMessage newService three_polls in
  let st := {| jobStore := {[ "job_1" := {| job_status := StatusComplete;
                                           job_result := Some finished_analysis;
                                           job_error := None |} ]};
               supabase := None |} in
  let event := {| httpMethod := GET; queryJobId := Some "job_1";
                  body := BodyObject {| startDate := None; endDate := None;
                                        customerId := None |} |} in
  exists stored reply,
    loadJob "job_1" SelectSucceeds st = Returns stored /\
    handler true "job_2" "2025-02-01T00:00:00Z" UpsertSucceeds SelectSucceeds event st =
      Returns ({| statusCode := 200; replyBody := Some reply |}, st, None) /\
    let svc' := step dashboard_maxAttempts dashboard_timeoutMessage svc
                     (PollReturns 0 (received reply)) in
    match final_value stored with
    | None =>
        pollingSubscription svc' = Some 0%nat /\
        exists s', sessions svc' !! 0%nat = Some s' /\
                   ss_emitted s' = [] /\ ss_completed s' = false /\ ss_timer s' = true
    | Some v =>
        pollingSubscription svc' = None /\
        forall later,
          exists s', sessions (run dashboard_maxAttempts dashboard_timeoutMessage svc' later)
                       !! 0%nat = Some s' /\
                     ss_emitted s' = [v] /\
                     ss_completed s' = true /\
                     ss_timer s' = false /\
                     ss_polls s' = 3%nat
    end.
Proof.
  intros svc st event.
  refine (endpoint_reply_drives_the_poll dashboard_maxAttempts dashboard_timeoutMessage
            three_polls 0%nat
            {| ss_postPending := false; ss_jobId := Some "job_1";
               ss_attempts := 3; ss_timer := true; ss_inflight := 1;
               ss_polls := 3; ss_emitted := []; ss_completed := false |}
            true "job_2" "2025-02-01T00:00:00Z" UpsertSucceeds SelectSucceeds event st
            "job_1" _ _ _ _ _ _).
  - reflexivity.
  - reflexivity.
  - cbn. lia.
  - reflexivity.
  - reflexivity.
  - discriminate.
Defined.

End PollerMore.

(** * The background run ([processAnalysis])

    The run fetches the data, combines the negative keywords, classifies the
    search terms, asks the model, and saves the job.  The fetching and the
    call to the model are inputs here; what is modelled is what the run
    computes from them and how it ends. *)

Module Pipeline.
Import JobStore.

(** An entry of [negativeKeywordAudit.existingNegatives]. *)
Record AuditNegative : Type := mkAuditNegative {
  an_keyword : string;
  an_matchType : string;
  an_scope : Scope
}.

(** [negativeKeywordAudit]; [coverageScore] is the text
    "[coverage_negated] of [coverage_total] wrong-intent terms are negated",
    kept as its two numbers. *)
Record NegativeKeywordAudit (Gap : Type) : Type := mkNegativeKeywordAudit {
  audit_existingNegatives : list AuditNegative;
  audit_alreadyCovered : list CoveredWaste;
  audit_gaps : list Gap;
  coverage_negated : nat;
  coverage_total : nat
}.
Arguments audit_existingNegatives {Gap} _.
Arguments audit_alreadyCovered {Gap} _.
Arguments audit_gaps {Gap} _.
Arguments coverage_negated {Gap} _.
Arguments coverage_total {Gap} _.

(** From the fetched data to the audit: [combineNegativeKeywords], then
    [analyzeSearchTermsForGaps] with the combined set, then the object
    literal [negativeKeywordAudit]; [negativeKeywordSuggestions] is the
    field of that name in the model's reply, if it has one. *)
Definition negativeKeywordAuditOf {Gap : Type}
    (campaignNegatives sharedSetNegatives : Fetched NegativeRow)
    (searchTermData : Fetched SearchTermRow) (keywordData : Fetched KeywordRow)
    (negativeKeywordSuggestions : option (list Gap)) : NegativeKeywordAudit Gap :=
  let combined := combineNegativeKeywords campaignNegatives sharedSetNegatives in
  let searchTermsGaps :=
    analyzeSearchTermsForGaps searchTermData keywordData (negativeKeywordsSet combined) in
  let totalWrongIntentTerms :=
    (confirmedWaste (analysis searchTermsGaps) +
     alreadyNegated (analysis searchTermsGaps))%nat in
  {| audit_existingNegatives :=
       map (fun neg => {| an_keyword := en_keyword neg;
                          an_matchType := en_matchType neg;
                          an_scope := en_scope neg |})
           (slice0 50 (existingNegatives combined));
     audit_alreadyCovered := alreadyCovered searchTermsGaps;
     audit_gaps := match negativeKeywordSuggestions with Some gaps => gaps | None => [] end;
     coverage_negated := alreadyNegated (analysis searchTermsGaps);
     coverage_total := totalWrongIntentTerms |}.

Section Run.
Context {Suggestions Result : Type}.

(** The object saved as [result]: the reply's fields with the run's own
    ([generatedAt], [dateRange], [searchTermsAnalysis],
    [negativeKeywordAudit]). *)
Variable assemble : Suggestions -> Result.

(** How far a run that comes to an end gets before its last [saveJob]:
    something throws on the way (a fetch, the call to the model, reading the
    reply), with [error.message]; or the reply's text is not JSON; or the
    reply is parsed and the result assembled. *)
Inductive RunOutcome : Type :=
| Threw (message : option string)
| Unparsable
| Parsed (suggestions : Suggestions).

(** The outer [catch (error)]: [saveJob(jobId, { status: 'error', error:
    error.message })]. *)
Definition saveFailure (jobId : string) (message : option string) (now : string)
    (upsertDoes : UpsertBehaviour) (st : Store Result) : Completion (Store Result) :=
  saveJob jobId {| job_status := StatusError; job_result := None; job_error := message |}
          now upsertDoes st.

(** The end of [processAnalysis]; [upsertDoes] is what the upsert of the
    first [saveJob] does, [upsertAgain] what it does if the outer [catch]
    saves once more. *)
Definition processAnalysis (jobId : string) (outcome : RunOutcome) (now : string)
    (upsertDoes upsertAgain : UpsertBehaviour) (st : Store Result)
    : Completion (Store Result) :=
  match outcome with
  | Threw message => saveFailure jobId message now upsertDoes st
  | Unparsable =>
      try_catch
        (saveJob jobId {| job_status := StatusError; job_result := None;
                          job_error := Some "Failed to parse AI response" |}
                 now upsertDoes st)
        (fun st' => Returns st')
        (fun message => saveFailure jobId (Some message) now upsertAgain st)
  | Parsed suggestions =>
      try_catch
        (saveJob jobId {| job_status := StatusComplete;
                          job_result := Some (assemble suggestions);
                          job_error := None |}
                 now upsertDoes st)
        (fun st' => Returns st')
        (fun message => saveFailure jobId (Some message) now upsertAgain st)
  end.
End Run.

End Pipeline.

Module PipelineFacts.
Import JobStore Pipeline Classification EngineFacts.

Lemma waste_split_length (negatives : gset string) (rows : list SearchTermRow) :
  length (filter is_waste rows) =
  (length (filter (is_fresh_waste negatives) rows) +
   length (filter (is_covered_waste negatives) rows))%nat.
Proof.
  induction rows as [|st rows IH]; [reflexivity |].
  cbn [filter]. unfold is_fresh_waste, is_covered_waste in *.
  destruct (is_waste st); cbn [andb]; [|exact IH].
  destruct (isAlreadyNegated negatives (st_searchTerm st)); cbn [negb length]; lia.
Qed.

(** X22: the coverage score of the audit.  Its first number is the
    number of waste candidates that a fetched negative keyword covers; its
    second number adds the uncovered candidates only up to the 15 that
    [wasteTerms] keeps, so it is the number of wrong-intent waste candidates
    exactly when at most 15 of them are uncovered, and falls short of it
    otherwise.  The audit lists at most 50 existing negatives and every
    covered term. *)
Theorem coverage_score_counts_at_most_fifteen_gaps {Gap : Type}
    (campaignNegatives sharedSetNegatives : Fetched NegativeRow)
    (rows : list SearchTermRow) (keywordData : Fetched KeywordRow)
    (negativeKeywordSuggestions : option (list Gap)) :
  let audit := negativeKeywordAuditOf campaignNegatives sharedSetNegatives (Rows rows)
                 keywordData negativeKeywordSuggestions in
  let negatives :=
    negativeKeywordsSet (combineNegativeKeywords campaignNegatives sharedSetNegatives) in
  let uncovered := length (filter (is_fresh_waste negatives) rows) in
  let covered := length (filter (is_covered_waste negatives) rows) in
  let candidates := length (filter is_waste rows) in
  coverage_negated audit = covered /\
  coverage_total audit = (Nat.min 15 uncovered + covered)%nat /\
  (coverage_negated audit <= coverage_total audit <= candidates)%nat /\
  (coverage_total audit = candidates <-> (uncovered <= 15)%nat) /\
  length (audit_alreadyCovered audit) = covered /\
  (length (audit_existingNegatives audit) <= 50)%nat.
Proof.
  intros audit negatives uncovered covered candidates.
  assert (Hneg : coverage_negated audit = covered).
  { subst audit covered negatives.
    cbn [negativeKeywordAuditOf coverage_negated analyzeSearchTermsForGaps analysis
           alreadyNegated].
    now rewrite length_map, covered_waste_length. }
  assert (Htot : coverage_total audit = (Nat.min 15 uncovered + covered)%nat).
  { subst audit covered uncovered negatives.
    cbn [negativeKeywordAuditOf coverage_total analyzeSearchTermsForGaps analysis
           alreadyNegated confirmedWaste].
    unfold slice0.
    now rewrite length_firstn, length_map, fresh_waste_length, covered_waste_length. }
  assert (Hsplit : candidates = (uncovered + covered)%nat)
    by apply waste_split_length.
  split; [exact Hneg |]. split; [exact Htot |].
  split; [lia |]. split; [lia |]. split.
  - subst audit covered negatives.
    cbn [negativeKeywordAuditOf audit_alreadyCovered analyzeSearchTermsForGaps alreadyCovered].
    now rewrite length_map, covered_waste_length.
  - subst audit. cbn [negativeKeywordAuditOf audit_existingNegatives].
    rewrite length_map. apply slice0_length.
Qed.

(** X23: from the fetched negative keywords to the audit.  When a
    keyword of either fetched list, present and non-empty, occurs as written
    in the search term of a waste candidate, the audit lists that term under
    [alreadyCovered] with its spend and the note "already negated", and
    [wasteTerms] has no entry for that term. *)
Theorem fetched_negative_moves_term_to_covered {Gap : Type}
    (campaignNegatives sharedSetNegatives : Fetched NegativeRow)
    (rows : list SearchTermRow) (keywordData : Fetched KeywordRow)
    (negativeKeywordSuggestions : option (list Gap))
    (neg : NegativeRow) (k : string) (st : SearchTermRow) :
  In neg (usable_rows campaignNegatives ++ usable_rows sharedSetNegatives) ->
  neg_keyword neg = Some k -> k <> EmptyString ->
  In st rows -> waste_candidate st ->
  is_substring k (st_searchTerm st) ->
  let audit := negativeKeywordAuditOf campaignNegatives sharedSetNegatives (Rows rows)
                 keywordData negativeKeywordSuggestions in
  let negatives :=
    negativeKeywordsSet (combineNegativeKeywords campaignNegatives sharedSetNegatives) in
  In {| cw_keyword := st_searchTerm st; cw_wastedSpend := st_spend st;
        cw_note := "already negated" |} (audit_alreadyCovered audit) /\
  forall w, In w (wasteTerms (analyzeSearchTermsForGaps (Rows rows) keywordData negatives)) ->
            wt_searchTerm w <> st_searchTerm st.
Proof.
  intros Hneg Hk Hne Hst Hwaste Hsub audit negatives.
  pose proof (Normalizer.fetched_keyword_negates campaignNegatives sharedSetNegatives
                neg k (st_searchTerm st) Hneg Hk Hne Hsub) as Hcovered.
  fold negatives in Hcovered. split.
  - subst audit. cbn [negativeKeywordAuditOf audit_alreadyCovered]. fold negatives.
    apply alreadyCovered_In. exists st. split; [exact Hst |].
    split; [now apply is_waste_spec |]. now split.
  - intros w Hw Heq. apply wasteTerms_In in Hw as [st' [_ [_ [-> Hfresh]]]].
    cbn [to_waste wt_searchTerm] in Heq. rewrite Heq in Hfresh. congruence.
Qed.

(** The campaign has the negative keyword "Attorney"; the search term
    "hoa attorney help" cost 5.00 for 3 clicks and no conversion. *)
Lemma fetched_negative_moves_term_to_covered_witness :
  let campaignNegatives :=
    Rows [ {| neg_keyword := Some "attorney"; neg_matchType := "PHRASE";
              neg_campaignName := Some "Search"; neg_sharedSetName := None;
              neg_scope := ScopeCampaign |} ] in
  let st := row "hoa attorney help" 3 5 0 in
  let audit := negativeKeywordAuditOf (Gap := string) campaignNegatives (Rows []) (Rows [st])
                 (Rows []) None in
  let negatives :=
    negativeKeywordsSet (combineNegativeKeywords campaignNegatives (Rows [])) in
  In {| cw_keyword := st_searchTerm st; cw_wastedSpend := st_spend st;
        cw_note := "already negated" |} (audit_alreadyCovered audit) /\
  forall w, In w (wasteTerms (analyzeSearchTermsForGaps (Rows [st]) (Rows []) negatives)) ->
            wt_searchTerm w <> st_searchTerm st.
Proof.
  intros campaignNegatives st.
  refine (fetched_negative_moves_term_to_covered (Gap := string) campaignNegatives (Rows [])
            [st] (Rows []) None
            {| neg_keyword := Some "attorney"; neg_matchType := "PHRASE";
               neg_campaignName := Some "Search"; neg_sharedSetName := None;
               neg_scope := ScopeCampaign |}
            "attorney" st _ _ _ _ _ _).
  - now left.
  - reflexivity.
  - discriminate.
  - now left.
  - apply is_waste_spec. vm_compute. reflexivity.
  - exists "hoa ", " help". reflexivity.
Defined.

(** X24: a run that comes to an end never leaves its job in
    [processing].  Whatever the durable tier does, [processAnalysis]
    returns without throwing and the in-memory store then holds the job as
    [complete] with the assembled result when the reply was parsed, as
    [error] with 'Failed to parse AI response' when it was not JSON, and as
    [error] with the thrown message otherwise; every other job is as it
    was. *)
Theorem run_never_leaves_the_job_processing {Suggestions Result : Type}
    (assemble : Suggestions -> Result) (jobId : string)
    (outcome : RunOutcome (Suggestions := Suggestions)) (now : string)
    (upsertDoes upsertAgain : UpsertBehaviour) (st : Store Result) :
  exists st' job,
    processAnalysis assemble jobId outcome now upsertDoes upsertAgain st = Returns st' /\
    jobStore st' !! jobId = Some job /\
    job_status job <> StatusProcessing /\
    job =
      match outcome with
      | Parsed suggestions =>
          {| job_status := StatusComplete; job_result := Some (assemble suggestions);
             job_error := None |}
      | Unparsable =>
          {| job_status := StatusError; job_result := None;
             job_error := Some "Failed to parse AI response" |}
      | Threw message =>
          {| job_status := StatusError; job_result := None; job_error := message |}
      end /\
    forall other, other <> jobId -> jobStore st' !! other = jobStore st !! other.
Proof.
  destruct outcome as [message | | suggestions];
    unfold processAnalysis, saveFailure;
    match goal with
    | |- context [saveJob jobId ?data now upsertDoes st] =>
        destruct (ApiFacts.saveJob_returns jobId data now upsertDoes st) as [st' [Hsave Hmap]]
    end;
    rewrite Hsave; cbn [try_catch];
    eexists; eexists;
    (split; [reflexivity |]);
    (split; [rewrite Hmap; apply lookup_insert_eq |]);
    (split; [discriminate |]);
    (split; [reflexivity |]);
    intros other Hother; rewrite Hmap; now apply lookup_insert_ne.
Qed.

End PipelineFacts.

(** * The campaign copy of the service

    [src/app/core/services/ad-suggestions.service.ts] has the fields, the
    interval and [cancelPolling] of the dashboard copy; it reads the replies
    differently: a reply is an error when its [error] field is set, whatever
    its status, a final poll reply without [error] is delivered as it is,
    and a failed request is described by [err.message] alone. *)

Module Campaign.
Import Poller.

(** A reply as this copy reads it ([AdSuggestionsData & JobResponse]):
    the three fields it tests, and the reply seen as the value that
    [result$.next(response)] delivers. *)
Record Reply : Type := mkReply {
  r_status : option Status;
  r_jobId : option string;
  r_error : option string;
  r_self : AdSuggestionsData
}.

Definition maxAttempts : nat := 90.
Definition timeoutMessage : string :=
  "Analysis timed out after 3 minutes. Please try again.".

(** The callback given to [interval(2000).subscribe]: the one of the
    dashboard copy with this copy's bound and text. *)
Definition tick (k : nat) (svc : Service) : Service :=
  Poller.tick maxAttempts timeoutMessage k svc.

(** The [next] handler of a poll request. *)
Definition pollNext (k : nat) (response : Reply) (svc : Service) : Service :=
  match r_status response with
  | Some Processing => svc
  | _ =>
      if truthy (r_error response)
      then finish k (createEmptyResult (orEmpty (r_error response))) (cancelPolling svc)
      else finish k (r_self response) (cancelPolling svc)
  end.

(** The [error] handler of a poll request. *)
Definition pollError (k : nat) (err : HttpError) (svc : Service) : Service :=
  finish k (createEmptyResult (or_else (err_message err) "Polling failed"))
         (cancelPolling svc).

(** The subscriber of the POST in [getSuggestions]. *)
Definition postNext (k : nat) (response : Reply) (svc : Service) : Service :=
  if truthy (r_error response) && negb (truthy (r_jobId response))
  then finish k (createEmptyResult (orEmpty (r_error response))) svc
  else if truthy (r_jobId response)
       then startPolling k (orEmpty (r_jobId response)) svc
       else finish k (createEmptyResult "No job ID returned") svc.

(** [catchError] of the POST: [{ error: error.message || 'Failed to start
    analysis' }]. *)
Definition postCaught (err : HttpError) : Reply :=
  let text := or_else (err_message err) "Failed to start analysis" in
  {| r_status := None; r_jobId := None; r_error := Some text;
     r_self := createEmptyResult text |}.

Inductive Event : Type :=
| CallGetSuggestions
| PostReturns (k : nat) (response : Reply)
| PostFails (k : nat) (err : HttpError)
| IntervalTick (k : nat)
| PollReturns (k : nat) (response : Reply)
| PollFails (k : nat) (err : HttpError).

(** As for the dashboard copy, an event is delivered only when something
    is there to deliver it. *)
Definition step (svc : Service) (e : Event) : Service :=
  match e with
  | CallGetSuggestions => getSuggestions svc
  | PostReturns k response =>
      match sessions svc !! k with
      | Some s =>
          if ss_postPending s then postNext k response (on_session k postDone svc)
          else svc
      | None => svc
      end
  | PostFails k err =>
      match sessions svc !! k with
      | Some s =>
          if ss_postPending s
          then postNext k (postCaught err) (on_session k postDone svc)
          else svc
      | None => svc
      end
  | IntervalTick k =>
      match sessions svc !! k with
      | Some s => if ss_timer s then tick k svc else svc
      | None => svc
      end
  | PollReturns k response =>
      match sessions svc !! k with
      | Some s =>
          if (0 <? ss_inflight s)%nat
          then pollNext k response (on_session k answered svc)
          else svc
      | None => svc
      end
  | PollFails k err =>
      match sessions svc !! k with
      | Some s =>
          if (0 <? ss_inflight s)%nat
          then pollError k err (on_session k answered svc)
          else svc
      | None => svc
      end
  end.

Definition run (svc : Service) (events : list Event) : Service :=
  fold_left step events svc.

End Campaign.

Module CampaignFacts.
Import Poller PollerFacts PollerMore.

(** The dashboard copy's reading of a POST reply that makes it do what the
    campaign copy does with [r]. *)
Definition post_view (r : Campaign.Reply) : JobResponse :=
  {| status := if truthy (Campaign.r_error r) && negb (truthy (Campaign.r_jobId r))
               then Error else Processing;
     jobId := Campaign.r_jobId r;
     result := None;
     error := Campaign.r_error r |}.

(** The same for a poll reply. *)
Definition poll_view (r : Campaign.Reply) : JobResponse :=
  match Campaign.r_status r with
  | Some Processing =>
      {| status := Processing; jobId := Campaign.r_jobId r; result := None;
         error := Campaign.r_error r |}
  | _ =>
      if truthy (Campaign.r_error r)
      then {| status := Error; jobId := Campaign.r_jobId r; result := None;
              error := Campaign.r_error r |}
      else {| status := Complete; jobId := Campaign.r_jobId r;
              result := Some (Campaign.r_self r); error := None |}
  end.

(** A failure with nothing but its message. *)
Definition message_only (err : HttpError) : HttpError :=
  {| err_body_error := None; err_message := err_message err |}.

Definition as_dashboard (e : Campaign.Event) : Event :=
  match e with
  | Campaign.CallGetSuggestions => CallGetSuggestions
  | Campaign.PostReturns k r => PostReturns k (post_view r)
  | Campaign.PostFails k err => PostFails k (message_only err)
  | Campaign.IntervalTick k => IntervalTick k
  | Campaign.PollReturns k r => PollReturns k (poll_view r)
  | Campaign.PollFails k err => PollFails k (message_only err)
  end.

Lemma or_else_truthy (a : option string) (fallback : string) :
  truthy a = true -> or_else a fallback = orEmpty a.
Proof. intros H. unfold or_else. now rewrite H. Qed.

Lemma postNext_view (k : nat) (r : Campaign.Reply) (svc : Service) :
  Campaign.postNext k r svc = postNext k (post_view r) svc.
Proof.
  unfold Campaign.postNext, postNext, post_view. cbn [status jobId error].
  destruct (truthy (Campaign.r_error r)) eqn:He,
           (truthy (Campaign.r_jobId r)) eqn:Hj; cbn [andb negb]; try reflexivity.
  now rewrite (or_else_truthy _ _ He).
Qed.

Lemma pollNext_view (k : nat) (r : Campaign.Reply) (svc : Service) :
  Campaign.pollNext k r svc = pollNext k (poll_view r) svc.
Proof.
  unfold Campaign.pollNext, pollNext, poll_view.
  destruct (Campaign.r_status r) as [[| |]|]; try reflexivity;
    destruct (truthy (Campaign.r_error r)) eqn:He; cbn [status result error];
    rewrite ?(or_else_truthy _ _ He); reflexivity.
Qed.

Lemma postCaught_view (k : nat) (err : HttpError) (svc : Service) :
  Campaign.postNext k (Campaign.postCaught err) svc =
  postNext k (postCaught (message_only err)) svc.
Proof.
  assert (Htext : or_else (err_message err) "Failed to start analysis" <> EmptyString)
    by (apply or_else_nonempty; discriminate).
  unfold Campaign.postNext, Campaign.postCaught, postNext, postCaught, message_only.
  cbv zeta. cbn [Campaign.r_error Campaign.r_jobId status jobId error err_body_error
                   err_message].
  change (or_else None (or_else (err_message err) "Failed to start analysis"))
    with (or_else (err_message err) "Failed to start analysis").
  rewrite (ApiFacts.truthy_Some _ Htext). cbn [truthy andb negb orEmpty].
  now rewrite (or_else_Some _ _ Htext).
Qed.

Lemma step_as_dashboard (svc : Service) (e : Campaign.Event) :
  Campaign.step svc e =
  step Campaign.maxAttempts Campaign.timeoutMessage svc (as_dashboard e).
Proof.
  destruct e as [| k r | k err | k | k r | k err]; cbn [Campaign.step step as_dashboard].
  - reflexivity.
  - destruct (sessions svc !! k) as [s|]; [|reflexivity].
    destruct (ss_postPending s); [apply postNext_view | reflexivity].
  - destruct (sessions svc !! k) as [s|]; [|reflexivity].
    destruct (ss_postPending s); [apply postCaught_view | reflexivity].
  - reflexivity.
  - destruct (sessions svc !! k) as [s|]; [|reflexivity].
    destruct (0 <? ss_inflight s)%nat; [apply pollNext_view | reflexivity].
  - destruct (sessions svc !! k) as [s|]; [|reflexivity].
    destruct (0 <? ss_inflight s)%nat; reflexivity.
Qed.

Lemma run_as_dashboard (events : list Campaign.Event) (svc : Service) :
  Campaign.run svc events =
  run Campaign.maxAttempts Campaign.timeoutMessage svc (map as_dashboard events).
Proof.
  revert svc. induction events as [|e events IH]; intros svc; [reflexivity |].
  cbn [Campaign.run run fold_left map]. rewrite step_as_dashboard. apply IH.
Qed.

(** X25: the campaign copy of the service does, on every event and hence
    on every trace, what the dashboard copy does with 90 attempts and the
    3-minute text once each reply is read the way the campaign copy reads
    it: a reply with [error] set and no job id as a refusal, a final poll
    reply as an error when [error] is set and as the finished result
    otherwise, a failed request by its message alone. *)
Theorem campaign_copy_follows_the_dashboard_copy (events : list Campaign.Event)
    (svc : Service) :
  Campaign.run svc events =
  run 90 "Analysis timed out after 3 minutes. Please try again." svc
      (map as_dashboard events) /\
  (forall e, Campaign.step svc e =
             step 90 "Analysis timed out after 3 minutes. Please try again." svc
                  (as_dashboard e)).
Proof. split; [apply run_as_dashboard | apply step_as_dashboard]. Qed.

(** X26: on every trace of the campaign copy, each submission sends at
    most 90 poll requests, each caller receives at most one value, and a
    caller that has received a value has a completed Subject. *)
Theorem campaign_copy_polls_at_most_ninety_times (events : list Campaign.Event) :
  Forall (fun s => (ss_polls s <= 90)%nat /\
                   (length (ss_emitted s) <= 1)%nat /\
                   (ss_emitted s <> [] -> ss_completed s = true))
         (sessions (Campaign.run newService events)).
Proof.
  rewrite run_as_dashboard. apply Forall_lookup. intros j s Hj.
  destruct (reachable_within_budget _ _ _ j s Hj) as [_ [B _]].
  destruct (reachable_sound _ _ _ j s Hj) as [_ [H2 H3]].
  split; [exact B |]. split; [exact H3 |].
  intros Hne. destruct (ss_completed s); [reflexivity |]. now elim Hne; apply H2.
Qed.

End CampaignFacts.
